(** * Turf finder: a shallow embedding of the search-aggregation pipeline

    The development follows the TypeScript sources of the repository:
    - [types.ts]     (the records and the default configuration),
    - [distance.ts]  (haversine distance, rounding, [sortByDistance]),
    - [cache.ts]     (the TTL cache and its key generation),
    - [google.ts]    (request bodies, the post-hoc filter, [searchTurfs],
                      [getPlaceDetails] and [getPlaceDetailsBatch]),
    - [index.ts]     ([parseCliArgs], the distance step of [main],
                      [buildTurfResult], [truncateText]).

    Conventions.  A JavaScript string is a [string] (a sequence of code
    units; the code units are those of the ASCII range).  An optional
    field [f?: T] is an [option T]; [undefined] and [null] are [None].
    A JavaScript number is a [number]: a rational or one of the three
    special values; arithmetic on the finite values is exact, and what is
    proved through it depends on the order of numbers and on which of
    them are [NaN] only, never on how a finite result is rounded.  The
    haversine distance, whose results depend on the rounding, is taken
    over the binary64 numbers of the program ([PrimFloat]); [Math.sin],
    [Math.cos] and [Math.atan2], which ECMAScript leaves to the
    implementation, are parameters there.  Calls of [console.log] and
    [console.warn] are left out; record fields that no modelled function
    reads are left out. *)

From Stdlib Require Import QArith Qround.
From Stdlib Require Import Floats.
From Stdlib Require Lqa DecimalString.
From Stdlib Require Import Sorting.Permutation Sorting.Sorted.
From stdpp Require Import base option list gmap strings relations.

Local Open Scope string_scope.

(** ** Strings *)

Module JsString.

(** [s.length] *)
Definition length (s : string) : Z := Z.of_nat (String.length s).

(** [s.substring(start, end)]: both indices are clamped to
    [0 .. s.length] and swapped when [start > end]. *)
Definition clamp (s : string) (i : Z) : nat :=
  Z.to_nat (Z.min (Z.max i 0) (length s)).

Definition substring (s : string) (start stop : Z) : string :=
  let a := clamp s start in
  let b := clamp s stop in
  String.substring (Nat.min a b) (Nat.max a b - Nat.min a b) s.

(** [s.startsWith(p)] at the head of [s]. *)
Fixpoint startsWith (p s : string) : bool :=
  match p, s with
  | EmptyString, _ => true
  | String _ _, EmptyString => false
  | String a p', String b s' => if Ascii.eqb a b then startsWith p' s' else false
  end.

(** [s.includes(p)]: [p] occurs in [s] at some position. *)
Fixpoint includes (s p : string) : bool :=
  if startsWith p s then true
  else match s with
       | EmptyString => false
       | String _ s' => includes s' p
       end.

(** [c.toLowerCase()] on one code unit of the ASCII range. *)
Definition lower_ascii (c : Ascii.ascii) : Ascii.ascii :=
  let n := Ascii.nat_of_ascii c in
  if (65 <=? n)%nat && (n <=? 90)%nat then Ascii.ascii_of_nat (n + 32) else c.

(** [s.toLowerCase()] *)
Fixpoint toLowerCase (s : string) : string :=
  match s with
  | EmptyString => EmptyString
  | String c s' => String (lower_ascii c) (toLowerCase s')
  end.

(** [a || b] on strings: the empty string is falsy. *)
Definition truthy (s : string) : bool :=
  match s with EmptyString => false | _ => true end.

End JsString.

(** ** truncateText (index.ts) *)

Definition truncateText (text : string) (maxLength : Z) : string :=
  if (JsString.length text <=? maxLength)%Z then text
  else JsString.substring text 0 (maxLength - 3) ++ "...".

(** ** Numbers *)

(** A JavaScript number: [NaN], the two infinities, or a finite value. *)
Inductive number : Type :=
  | NaN
  | PosInfinity
  | NegInfinity
  | Num (q : Q).

Module JsNumber.

Definition of_Z (z : Z) : number := Num (inject_Z z).
Definition of_nat (n : nat) : number := of_Z (Z.of_nat n).

(** [!!x]: zero and [NaN] are falsy. *)
Definition truthy (x : number) : bool :=
  match x with
  | NaN => false
  | Num q => negb (Qeq_bool q 0)
  | _ => true
  end.

(** [a <= b]; every comparison with [NaN] is false. *)
Definition leb (a b : number) : bool :=
  match a, b with
  | NaN, _ | _, NaN => false
  | NegInfinity, _ => true
  | _, PosInfinity => true
  | PosInfinity, _ => false
  | _, NegInfinity => false
  | Num x, Num y => Qle_bool x y
  end.

(** [a < b] *)
Definition ltb (a b : number) : bool :=
  match a, b with
  | NaN, _ | _, NaN => false
  | NegInfinity, NegInfinity => false
  | NegInfinity, _ => true
  | PosInfinity, _ => false
  | Num _, PosInfinity => true
  | Num _, NegInfinity => false
  | Num x, Num y => negb (Qle_bool y x)
  end.

Definition geb (a b : number) : bool := leb b a.
Definition gtb (a b : number) : bool := ltb b a.

(** [Math.min(a, b)]: [NaN] when an argument is [NaN]. *)
Definition Math_min (a b : number) : number :=
  match a, b with
  | NaN, _ | _, NaN => NaN
  | _, _ => if leb a b then a else b
  end.

(** The sign of a non-[NaN] number, for products with an infinity. *)
Definition sign (x : number) : comparison :=
  match x with
  | NaN => Eq
  | PosInfinity => Gt
  | NegInfinity => Lt
  | Num q => (q ?= 0)%Q
  end.

Definition infinity_of_sign (c : comparison) : number :=
  match c with Eq => NaN | Gt => PosInfinity | Lt => NegInfinity end.

Definition mul_sign (a b : comparison) : comparison :=
  match a, b with
  | Eq, _ | _, Eq => Eq
  | Lt, Lt | Gt, Gt => Gt
  | _, _ => Lt
  end.

(** [a * b] *)
Definition mul (a b : number) : number :=
  match a, b with
  | NaN, _ | _, NaN => NaN
  | Num x, Num y => Num (x * y)
  | _, _ => infinity_of_sign (mul_sign (sign a) (sign b))
  end.

(** [a - b] *)
Definition sub (a b : number) : number :=
  match a, b with
  | NaN, _ | _, NaN => NaN
  | Num x, Num y => Num (x - y)
  | PosInfinity, PosInfinity | NegInfinity, NegInfinity => NaN
  | PosInfinity, _ | _, NegInfinity => PosInfinity
  | NegInfinity, _ | _, PosInfinity => NegInfinity
  end.

(** Truncation towards zero of a finite value. *)
Definition trunc (q : Q) : Z :=
  if Qle_bool 0 q then Qfloor q else Qceiling q.

(** [arr.slice(0, end)] on a list: [end] goes through
    [ToIntegerOrInfinity]; a negative [end] counts from the back. *)
Definition slice0 {A} (l : list A) (stop : number) : list A :=
  let len := Z.of_nat (List.length l) in
  match stop with
  | NaN => []
  | NegInfinity => []
  | PosInfinity => l
  | Num q =>
      let r := trunc q in
      let final := if (r <? 0)%Z then Z.max (len + r) 0 else Z.min r len in
      take (Z.to_nat final) l
  end.

(** [a || b] for an optional number *)
Definition or_else (a : option number) (b : number) : number :=
  match a with
  | Some x => if truthy x then x else b
  | None => b
  end.

End JsNumber.

(** [a || b] for an optional string whose fallback is a string. *)
Definition str_or (a : option string) (b : string) : string :=
  match a with
  | Some s => if JsString.truthy s then s else b
  | None => b
  end.

(** [a || b] when [b] is itself optional. *)
Definition str_or_opt (a b : option string) : option string :=
  match a with
  | Some s => if JsString.truthy s then Some s else b
  | None => b
  end.

(** [if (a)] for an optional string *)
Definition opt_truthy (a : option string) : bool :=
  match a with
  | Some s => JsString.truthy s
  | None => false
  end.

(** [a ?? b] *)
Definition nullish {A} (a b : option A) : option A :=
  match a with
  | Some x => Some x
  | None => b
  end.

(** ** types.ts *)

Record Config := {
  defaultRadiusKm : number;
  maxResults : number;
  detailsLimit : number;
  cacheTtlMs : Z;
  concurrencyLimit : number;
}.

Definition DEFAULT_CONFIG : Config := {|
  defaultRadiusKm := JsNumber.of_Z 5;
  maxResults := JsNumber.of_Z 30;
  detailsLimit := JsNumber.of_Z 20;
  cacheTtlMs := 10 * 60 * 1000;
  concurrencyLimit := JsNumber.of_Z 5;
|}.

Record LatLng := { lat : number; lng : number }.

Record LocalizedText := {
  text : option string;
  languageCode : option string;
}.

Record Location := {
  latitude : option number;
  longitude : option number;
}.

Record GooglePhoto := {
  photo_name : string;
  widthPx : option number;
  heightPx : option number;
}.

Record AuthorAttribution := {
  author_displayName : option string;
  author_uri : option string;
  author_photoUri : option string;
}.

Record GoogleReview := {
  review_name : option string;
  relativePublishTimeDescription : option string;
  review_rating : option number;
  review_text : option LocalizedText;
  originalText : option LocalizedText;
  authorAttribution : option AuthorAttribution;
  publishTime : option string;
}.

Record RegularOpeningHours := {
  openNow : option bool;
  weekdayDescriptions : option (list string);
}.

Record NearbySearchPlace := {
  id : string;
  displayName : option LocalizedText;
  formattedAddress : option string;
  location : option Location;
  rating : option number;
  userRatingCount : option number;
  photos : option (list GooglePhoto);
  regularOpeningHours : option RegularOpeningHours;
  businessStatus : option string;
  types : option (list string);
}.

Record PlaceDetailsResponse := {
  d_id : string;
  d_displayName : option LocalizedText;
  d_formattedAddress : option string;
  nationalPhoneNumber : option string;
  internationalPhoneNumber : option string;
  d_location : option Location;
  d_rating : option number;
  d_userRatingCount : option number;
  d_photos : option (list GooglePhoto);
  reviews : option (list GoogleReview);
  d_regularOpeningHours : option RegularOpeningHours;
  googleMapsUri : option string;
  websiteUri : option string;
  d_businessStatus : option string;
}.

Record TurfReview := {
  tr_author : string;
  tr_rating : option number;
  tr_relativeTime : string;
  tr_text : string;
}.

Record TurfResult := {
  r_placeId : string;
  r_name : string;
  r_distanceKm : number;
  r_address : string;
  r_mapsUrl : string;
  r_phone : option string;
  r_openNow : option bool;
  r_rating : option number;
  r_userRatingsTotal : option number;
  r_photos : list string;
  r_topReviews : list TurfReview;
  r_lat : option number;
  r_lng : option number;
}.

(** The error classes of types.ts; [details] payloads are not kept. *)
Inductive TurfFinderError : Type :=
  | GoogleApiError (message : string)
  | GeocodingError (message : string)
  | ValidationError (message : string).

(** A computation that either returns or throws. *)
Inductive Result (A : Type) : Type :=
  | Ok (a : A)
  | Throw (e : TurfFinderError).
Arguments Ok {A} a.
Arguments Throw {A} e.

Definition bind {A B} (m : Result A) (k : A -> Result B) : Result B :=
  match m with
  | Ok a => k a
  | Throw e => Throw e
  end.

Fixpoint mapM {A B} (f : A -> Result B) (l : list A) : Result (list B) :=
  match l with
  | [] => Ok []
  | x :: l' => bind (f x) (fun y => bind (mapM f l') (fun ys => Ok (y :: ys)))
  end.

(** ** google.ts: constants and the post-hoc filter *)

Definition PLACES_PHOTO_URL : string := "https://places.googleapis.com/v1".

Definition DEFAULT_TURF_KEYWORDS : list string :=
  [ "turf"; "football turf"; "box cricket"; "turf ground"; "sports turf";
    "cricket ground"; "football ground"; "futsal"; "five a side football";
    "seven a side football" ].

Definition EXCLUDE_KEYWORDS : list string :=
  [ "bowling"; "bowl"; "arcade"; "gaming zone"; "game zone"; "virtual reality";
    "vr arena"; "laser tag"; "escape room"; "trampoline"; "go kart"; "karting";
    "billiard"; "pool table"; "snooker"; "paintball"; "shooting range";
    "ice skating"; "roller skating"; "spa"; "salon"; "restaurant"; "cafe";
    "bar"; "pub"; "lounge" ].

Definition excludeTypes : list string :=
  [ "bowling_alley"; "amusement_center"; "movie_theater"; "night_club";
    "casino"; "bar"; "restaurant"; "cafe" ].

(** [arr.includes(x)] on an array of strings *)
Fixpoint Array_includes (arr : list string) (x : string) : bool :=
  match arr with
  | [] => false
  | y :: arr' => if String.eqb y x then true else Array_includes arr' x
  end.

(** The first loop of the filter callback: does [name] contain one of the
    keywords?  The loop returns at the first hit. *)
Fixpoint matches_exclude_keyword (name : string) (keywords : list string) : bool :=
  match keywords with
  | [] => false
  | keyword :: rest =>
      if JsString.includes name keyword then true
      else matches_exclude_keyword name rest
  end.

(** The second loop: is one of the excluded type codes among [types]? *)
Fixpoint has_exclude_type (types : list string) (excluded : list string) : bool :=
  match excluded with
  | [] => false
  | type :: rest =>
      if Array_includes types type then true
      else has_exclude_type types rest
  end.

(** [place.displayName?.text] *)
Definition displayName_text (d : option LocalizedText) : option string :=
  match d with
  | Some t => text t
  | None => None
  end.

(** The callback of [places.filter(...)]: [true] keeps the place. *)
Definition filterTurfResults_keep (place : NearbySearchPlace) : bool :=
  let name := JsString.toLowerCase (str_or (displayName_text (displayName place)) "") in
  let types := match types place with Some ts => ts | None => [] end in
  if matches_exclude_keyword name EXCLUDE_KEYWORDS then false
  else if has_exclude_type types excludeTypes then false
  else true.

Definition filterTurfResults (places : list NearbySearchPlace) : list NearbySearchPlace :=
  List.filter filterTurfResults_keep places.

(** ** google.ts: the request bodies of the two search operations *)

Record NearbySearchOptions := {
  ns_lat : number;
  ns_lng : number;
  ns_radiusMeters : number;
  ns_includedTypes : option (list string);
  ns_keyword : option string;
  ns_maxResultCount : option number;
}.

Record TextSearchOptions := {
  ts_textQuery : string;
  ts_lat : number;
  ts_lng : number;
  ts_radiusMeters : number;
  ts_maxResultCount : option number;
}.

Record Circle := {
  center_latitude : number;
  center_longitude : number;
  radius : number;
}.

Record NearbyRequestBody := {
  nb_locationRestriction : Circle;
  nb_maxResultCount : number;
  nb_includedTypes : option (list string);
}.

Record TextRequestBody := {
  tb_textQuery : string;
  tb_locationRestriction : Circle;
  tb_maxResultCount : number;
}.

(** [requestBody] of [nearbySearch], built after a cache miss. *)
Definition nearbySearch_requestBody (options : NearbySearchOptions) : NearbyRequestBody :=
  {| nb_locationRestriction :=
       {| center_latitude := ns_lat options;
          center_longitude := ns_lng options;
          radius := JsNumber.Math_min (ns_radiusMeters options) (JsNumber.of_Z 50000) |};
     nb_maxResultCount :=
       JsNumber.or_else (ns_maxResultCount options) (maxResults DEFAULT_CONFIG);
     nb_includedTypes :=
       match ns_includedTypes options with
       | Some (t :: ts) => Some (t :: ts)
       | _ => None
       end |}.

(** [requestBody] of [textSearch], built after a cache miss. *)
Definition textSearch_requestBody (options : TextSearchOptions) : TextRequestBody :=
  {| tb_textQuery := ts_textQuery options;
     tb_locationRestriction :=
       {| center_latitude := ts_lat options;
          center_longitude := ts_lng options;
          radius := JsNumber.Math_min (ts_radiusMeters options) (JsNumber.of_Z 50000) |};
     tb_maxResultCount :=
       JsNumber.or_else (ts_maxResultCount options) (maxResults DEFAULT_CONFIG) |}.

(** ** google.ts: searchTurfs *)

(** The loop state of [searchTurfs]: the [Set] of seen ids and the array
    of places collected so far. *)
Record SearchState := {
  seenPlaceIds : gset string;
  allPlaces : list NearbySearchPlace;
}.

(** The body of both [for (const place of ...)] loops. *)
Definition add_unique (st : SearchState) (place : NearbySearchPlace) : SearchState :=
  if decide (id place ∈ seenPlaceIds st) then st
  else {| seenPlaceIds := {[ id place ]} ∪ seenPlaceIds st;
          allPlaces := allPlaces st ++ [place] |}.

Definition add_all (st : SearchState) (places : list NearbySearchPlace) : SearchState :=
  foldl add_unique st places.

(** A search call as an instrumented stub sees it. *)
Inductive SearchCall : Type :=
  | NearbyCall (options : NearbySearchOptions)
  | TextCall (options : TextSearchOptions).

(** One entry of the call log: the call, [allPlaces.length] when the call
    was issued and after its results were merged, and what it returned. *)
Record CallEntry := {
  call : SearchCall;
  count_before : nat;
  outcome : Result (list NearbySearchPlace);
  count_after : nat;
}.

Definition is_text_call (e : CallEntry) : bool :=
  match call e with TextCall _ => true | NearbyCall _ => false end.

Definition returned (e : CallEntry) : bool :=
  match outcome e with Ok _ => true | Throw _ => false end.

Definition returned_places (e : CallEntry) : list NearbySearchPlace :=
  match outcome e with Ok places => places | Throw _ => [] end.

(** What one run of [searchTurfs] did. *)
Record SearchRun (World : Type) := {
  merged : list NearbySearchPlace;      (* allPlaces after the last pass *)
  output : list NearbySearchPlace;      (* the returned array *)
  calls : list CallEntry;               (* the search calls, in order *)
  world_after : World;
}.
Arguments merged {World} _.
Arguments output {World} _.
Arguments calls {World} _.
Arguments world_after {World} _.

Section SearchTurfs.

(** The two search operations are stubs over an abstract world (the
    provider and the search cache): a call returns or throws, and
    changes the world. *)
Context {World : Type}.
Variable nearbySearch :
  NearbySearchOptions -> World -> Result (list NearbySearchPlace) * World.
Variable textSearch :
  TextSearchOptions -> World -> Result (list NearbySearchPlace) * World.

(** The keyword list: a truthy custom keyword goes first. *)
Definition build_keywords (customKeyword : option string) : list string :=
  match customKeyword with
  | Some k =>
      if JsString.truthy k
      then k :: List.filter (fun k' => negb (String.eqb k' k)) DEFAULT_TURF_KEYWORDS
      else DEFAULT_TURF_KEYWORDS
  | None => DEFAULT_TURF_KEYWORDS
  end.

Section Passes.
Variables (lat lng radiusMeters maxResults : number).

Definition nearby_options : NearbySearchOptions :=
  {| ns_lat := lat; ns_lng := lng; ns_radiusMeters := radiusMeters;
     ns_includedTypes := Some ["sports_club"; "sports_complex"; "stadium"; "gym"];
     ns_keyword := None;
     ns_maxResultCount := Some (JsNumber.Math_min (JsNumber.of_Z 20) maxResults) |}.

Definition text_options (keyword : string) : TextSearchOptions :=
  {| ts_textQuery := keyword; ts_lat := lat; ts_lng := lng;
     ts_radiusMeters := radiusMeters;
     ts_maxResultCount := Some (JsNumber.Math_min (JsNumber.of_Z 20) maxResults) |}.

(** The nearby seed pass: a failure is logged and ignored. *)
Definition nearby_pass (st : SearchState) (w : World)
  : SearchState * World * CallEntry :=
  let '(res, w') := nearbySearch nearby_options w in
  let st' := match res with Ok places => add_all st places | Throw _ => st end in
  (st', w',
   {| call := NearbyCall nearby_options;
      count_before := List.length (allPlaces st);
      outcome := res;
      count_after := List.length (allPlaces st') |}).

(** The keyword loop.  The [break] sits inside the [try], after the
    results of a pass that returned were merged; a pass that throws
    goes to the [catch] and on to the next keyword. *)
Fixpoint keyword_loop (keywords : list string) (st : SearchState) (w : World)
  : SearchState * World * list CallEntry :=
  match keywords with
  | [] => (st, w, [])
  | keyword :: rest =>
      let '(res, w') := textSearch (text_options keyword) w in
      match res with
      | Ok places =>
          let st' := add_all st places in
          let e := {| call := TextCall (text_options keyword);
                      count_before := List.length (allPlaces st);
                      outcome := res;
                      count_after := List.length (allPlaces st') |} in
          if JsNumber.geb (JsNumber.of_nat (List.length (allPlaces st'))) maxResults
          then (st', w', [e])
          else
            let '(st'', w'', es) := keyword_loop rest st' w' in
            (st'', w'', e :: es)
      | Throw _ =>
          let e := {| call := TextCall (text_options keyword);
                      count_before := List.length (allPlaces st);
                      outcome := res;
                      count_after := List.length (allPlaces st) |} in
          let '(st'', w'', es) := keyword_loop rest st w' in
          (st'', w'', e :: es)
      end
  end.
End Passes.

Definition searchTurfs (lat lng radiusKm : number) (customKeyword : option string)
    (maxResults_arg : option number) (w : World) : SearchRun World :=
  let maxResults := default (maxResults DEFAULT_CONFIG) maxResults_arg in
  let radiusMeters := JsNumber.mul radiusKm (JsNumber.of_Z 1000) in
  let st0 := {| seenPlaceIds := ∅; allPlaces := [] |} in
  let keywords := build_keywords customKeyword in
  let '(st1, w1, e0) := nearby_pass lat lng radiusMeters maxResults st0 w in
  let '(st2, w2, es) := keyword_loop lat lng radiusMeters maxResults keywords st1 w1 in
  let filteredPlaces := filterTurfResults (allPlaces st2) in
  {| merged := allPlaces st2;
     output := JsNumber.slice0 filteredPlaces maxResults;
     calls := e0 :: es;
     world_after := w2 |}.

End SearchTurfs.

(** ** google.ts: the API key and photo URLs *)

(** [getApiKey()] over the module-level [apiKey]. *)
Definition getApiKey (apiKey : option string) : Result string :=
  match apiKey with
  | Some key =>
      if JsString.truthy key then Ok key
      else Throw (GoogleApiError "Google Maps API key not set. Call setApiKey() or set GOOGLE_MAPS_API_KEY env var.")
  | None =>
      Throw (GoogleApiError "Google Maps API key not set. Call setApiKey() or set GOOGLE_MAPS_API_KEY env var.")
  end.

(** [getPhotoUrl(photoName)]; both sizes are left at their default, 400. *)
Definition getPhotoUrl (apiKey : option string) (photoName : string) : Result string :=
  bind (getApiKey apiKey) (fun key =>
    Ok (PLACES_PHOTO_URL ++ "/" ++ photoName
        ++ "/media?maxWidthPx=400&maxHeightPx=400&key=" ++ key)).

Definition getPhotoUrls (apiKey : option string) (photos : option (list GooglePhoto))
    (maxPhotos : nat) : Result (list string) :=
  match photos with
  | None | Some [] => Ok []
  | Some ps => mapM (fun photo => getPhotoUrl apiKey (photo_name photo)) (take maxPhotos ps)
  end.

(** ** index.ts: buildTurfResult *)

(** [o?.f] for an optional record [o] and an optional field [f]. *)
Definition opt_field {A B} (o : option A) (f : A -> option B) : option B :=
  match o with
  | Some a => f a
  | None => None
  end.

Definition hours_openNow (h : option RegularOpeningHours) : option bool :=
  opt_field h openNow.

Definition buildTurfReview (review : GoogleReview) : TurfReview :=
  {| tr_author :=
       str_or (opt_field (authorAttribution review) author_displayName) "Anonymous";
     tr_rating := nullish (review_rating review) None;
     tr_relativeTime := str_or (relativePublishTimeDescription review) "";
     tr_text :=
       truncateText
         (str_or (str_or_opt (opt_field (review_text review) text)
                             (opt_field (originalText review) text)) "")
         240 |}.

Definition buildTurfResult (apiKey : option string) (place : NearbySearchPlace)
    (details : option PlaceDetailsResponse) (distanceKm : number) : Result TurfResult :=
  let name :=
    str_or (str_or_opt (displayName_text (opt_field details d_displayName))
                       (displayName_text (displayName place))) "Unknown" in
  let address :=
    str_or (str_or_opt (opt_field details d_formattedAddress) (formattedAddress place))
           "Address not available" in
  let phone :=
    if opt_truthy (opt_field details internationalPhoneNumber)
    then opt_field details internationalPhoneNumber
    else if opt_truthy (opt_field details nationalPhoneNumber)
    then opt_field details nationalPhoneNumber
    else None in
  let mapsUrl :=
    str_or (opt_field details googleMapsUri)
           ("https://www.google.com/maps/place/?q=place_id:" ++ id place) in
  let openNow :=
    nullish (hours_openNow (opt_field details d_regularOpeningHours))
            (nullish (hours_openNow (regularOpeningHours place)) None) in
  let rating := nullish (opt_field details d_rating) (nullish (rating place) None) in
  let userRatingsTotal :=
    nullish (opt_field details d_userRatingCount) (nullish (userRatingCount place) None) in
  bind (getPhotoUrls apiKey
          (match opt_field details d_photos with
           | Some ps => Some ps
           | None => photos place
           end) 3)
    (fun photos =>
  let placeLat :=
    nullish (opt_field (opt_field details d_location) latitude)
            (nullish (opt_field (location place) latitude) None) in
  let placeLng :=
    nullish (opt_field (opt_field details d_location) longitude)
            (nullish (opt_field (location place) longitude) None) in
  let topReviews :=
    List.map buildTurfReview
      (take 3 (match opt_field details reviews with Some rs => rs | None => [] end)) in
  Ok {| r_placeId := id place;
        r_name := name;
        r_distanceKm := distanceKm;
        r_address := address;
        r_mapsUrl := mapsUrl;
        r_phone := phone;
        r_openNow := openNow;
        r_rating := rating;
        r_userRatingsTotal := userRatingsTotal;
        r_photos := photos;
        r_topReviews := topReviews;
        r_lat := placeLat;
        r_lng := placeLng |}).

(** ** cache.ts *)

(** The values a parameter record can hold. *)
#[local] Unset Elimination Schemes.
Inductive JsValue : Type :=
  | JUndefined
  | JNull
  | JBool (b : bool)
  | JNumber (n : number)
  | JString (s : string)
  | JArray (items : list JsValue)
  | JObject (fields : list (string * JsValue)).
#[local] Set Elimination Schemes.

(** A parameter record ([Record<string, unknown>]): its own keys in the
    order [Object.keys] lists them, each with its value. *)
Definition Params : Type := list (string * JsValue).

Definition Object_keys (params : Params) : list string := List.map fst params.

(** [params[key]] *)
Fixpoint get_property (params : Params) (key : string) : JsValue :=
  match params with
  | [] => JUndefined
  | (k, v) :: rest => if String.eqb k key then v else get_property rest key
  end.

(** [arr.sort()] on strings: ascending by code units, stable. *)
Fixpoint sort_insert (x : string) (sorted : list string) : list string :=
  match sorted with
  | [] => [x]
  | y :: rest => if String.leb x y then x :: y :: rest else y :: sort_insert x rest
  end.

Definition Array_sort (arr : list string) : list string :=
  List.fold_right sort_insert [] arr.

(** [arr.join(sep)] *)
Fixpoint Array_join (sep : string) (arr : list string) : string :=
  match arr with
  | [] => ""
  | [x] => x
  | x :: rest => x ++ sep ++ Array_join sep rest
  end.

Record CacheEntry (T : Type) := { data : T; expiresAt : Z }.
Arguments data {T} _.
Arguments expiresAt {T} _.

Record TtlCache (T : Type) := {
  cache : gmap string (CacheEntry T);
  ttlMs : Z;
}.
Arguments cache {T} _.
Arguments ttlMs {T} _.

Section Cache.

(** [JSON.stringify] as it appears inside the template literal. *)
Variable JSON_stringify : JsValue -> string.

(** [TtlCache.generateKey(params)] *)
Definition generateKey (params : Params) : string :=
  Array_join "&"
    (List.map (fun key => key ++ "=" ++ JSON_stringify (get_property params key))
              (Array_sort (Object_keys params))).

Context {T : Type}.

Definition TtlCache_new (ttl : option Z) : TtlCache T :=
  {| cache := ∅;
     ttlMs := match ttl with Some t => t | None => cacheTtlMs DEFAULT_CONFIG end |}.

(** [get(key)] at time [now]; an expired entry is deleted. *)
Definition TtlCache_get (now : Z) (key : string) (c : TtlCache T) : option T * TtlCache T :=
  match cache c !! key with
  | None => (None, c)
  | Some entry =>
      if (expiresAt entry <? now)%Z
      then (None, {| cache := delete key (cache c); ttlMs := ttlMs c |})
      else (Some (data entry), c)
  end.

(** [set(key, data)] at time [now] *)
Definition TtlCache_set (now : Z) (key : string) (d : T) (c : TtlCache T) : TtlCache T :=
  {| cache := <[ key := {| data := d; expiresAt := now + ttlMs c |} ]> (cache c);
     ttlMs := ttlMs c |}.

Definition TtlCache_delete (key : string) (c : TtlCache T) : bool * TtlCache T :=
  (bool_decide (is_Some (cache c !! key)),
   {| cache := delete key (cache c); ttlMs := ttlMs c |}).

Definition TtlCache_clear (c : TtlCache T) : TtlCache T :=
  {| cache := ∅; ttlMs := ttlMs c |}.

(** [prune()] at time [now]: the number of entries removed, and what is left. *)
Definition TtlCache_prune (now : Z) (c : TtlCache T) : nat * TtlCache T :=
  let expired := filter (fun kv => (expiresAt kv.2 < now)%Z) (cache c) in
  (size expired,
   {| cache := filter (fun kv => ¬ (expiresAt kv.2 < now)%Z) (cache c);
      ttlMs := ttlMs c |}).

Definition TtlCache_stats (c : TtlCache T) : nat * Z := (size (cache c), ttlMs c).

End Cache.

(** ** google.ts: getPlaceDetails *)

(** What the remote call of one detail fetch does. *)
Inductive FetchOutcome : Type :=
  | FetchOk (body : PlaceDetailsResponse)   (* [response.ok], body parsed *)
  | FetchNotOk (status : Z)                 (* [!response.ok] *)
  | FetchThrows (message : string).         (* [fetch] or [response.json()] rejects *)

Definition fetch_failed (o : FetchOutcome) : bool :=
  match o with FetchOk _ => false | _ => true end.

(** A detail fetch between its two suspension points. *)
Inductive TaskPhase : Type :=
  | Fetching                                          (* awaiting the response *)
  | Settled (details : option PlaceDetailsResponse).  (* [getPlaceDetails] returned *)

Section PlaceDetails.

Variable JSON_stringify : JsValue -> string.
Variable apiKey : option string.

Definition details_cacheKey (placeId : string) : string :=
  generateKey JSON_stringify [("type", JString "details"); ("placeId", JString placeId)].

(** [getPlaceDetails] up to its first [await]: the cache lookup, then the
    request headers (where [getApiKey()] can throw inside the [try]). *)
Definition getPlaceDetails_begin (now : Z) (placeId : string)
    (c : TtlCache PlaceDetailsResponse) : TaskPhase * TtlCache PlaceDetailsResponse :=
  let '(cached, c') := TtlCache_get now (details_cacheKey placeId) c in
  match cached with
  | Some d => (Settled (Some d), c')
  | None =>
      match getApiKey apiKey with
      | Ok _ => (Fetching, c')
      | Throw _ => (Settled None, c')
      end
  end.

(** [getPlaceDetails] from the response on. *)
Definition getPlaceDetails_resume (now : Z) (placeId : string) (o : FetchOutcome)
    (c : TtlCache PlaceDetailsResponse)
    : option PlaceDetailsResponse * TtlCache PlaceDetailsResponse :=
  match o with
  | FetchOk body => (Some body, TtlCache_set now (details_cacheKey placeId) body c)
  | FetchNotOk _ => (None, c)
  | FetchThrows _ => (None, c)
  end.

(** One whole call, when nothing else runs in between. *)
Definition getPlaceDetails (now : Z) (placeId : string) (o : FetchOutcome)
    (c : TtlCache PlaceDetailsResponse)
    : option PlaceDetailsResponse * TtlCache PlaceDetailsResponse :=
  match getPlaceDetails_begin now placeId c with
  | (Settled r, c') => (r, c')
  | (Fetching, c') => getPlaceDetails_resume now placeId o c'
  end.

(** ** google.ts: getPlaceDetailsBatch

    [pLimit(n)] keeps a FIFO queue of tasks and runs at most [n] of them
    at a time; a task's slot is freed when its function has returned.
    [Promise.all] resolves when every task has.  The order in which the
    responses arrive, their content and the clock are not determined by
    the program: they are the nondeterminism of the step relation. *)
Record BatchState := {
  queue : list string;                                  (* not yet started *)
  running : list (string * TaskPhase);                  (* in flight *)
  results : gmap string (option PlaceDetailsResponse);  (* the [Map] *)
  detailsCache : TtlCache PlaceDetailsResponse;
}.

Definition batch_init (placeIds : list string) (c : TtlCache PlaceDetailsResponse)
    : BatchState :=
  {| queue := placeIds; running := []; results := ∅; detailsCache := c |}.

(** Every task has returned: [await Promise.all(tasks)] resumes and the
    function returns [results]. *)
Definition batch_done (s : BatchState) : Prop :=
  queue s = [] /\ running s = [].

Inductive batch_step (concurrencyLimit : nat) : BatchState -> BatchState -> Prop :=
  | step_start now placeId q run res c phase c' :
      (List.length run < concurrencyLimit)%nat ->
      getPlaceDetails_begin now placeId c = (phase, c') ->
      batch_step concurrencyLimit
        {| queue := placeId :: q; running := run; results := res; detailsCache := c |}
        {| queue := q; running := run ++ [(placeId, phase)]; results := res;
           detailsCache := c' |}
  | step_response now o placeId q run1 run2 res c r c' :
      getPlaceDetails_resume now placeId o c = (r, c') ->
      batch_step concurrencyLimit
        {| queue := q; running := run1 ++ (placeId, Fetching) :: run2; results := res;
           detailsCache := c |}
        {| queue := q; running := run1 ++ (placeId, Settled r) :: run2; results := res;
           detailsCache := c' |}
  | step_return placeId q run1 run2 res c r :
      batch_step concurrencyLimit
        {| queue := q; running := run1 ++ (placeId, Settled r) :: run2; results := res;
           detailsCache := c |}
        {| queue := q; running := run1 ++ run2; results := <[ placeId := r ]> res;
           detailsCache := c |}.

(** The work left in a state: each queued task takes at most three
    steps, a fetching one two, a settled one one. *)
Definition phase_weight (p : TaskPhase) : nat :=
  match p with Fetching => 2 | Settled _ => 1 end.

Definition batch_weight (s : BatchState) : nat :=
  3 * List.length (queue s) + list_sum (List.map (fun t => phase_weight t.2) (running s)).

End PlaceDetails.

(** ** distance.ts: rounding and the radius filter *)

(** [Math.round(x)]: the nearest integer, halves rounded up. *)
Definition Math_round (x : number) : number :=
  match x with
  | Num q => JsNumber.of_Z (Qfloor (q + (1 # 2))%Q)
  | other => other
  end.

(** [a / 100] *)
Definition div100 (x : number) : number :=
  match x with
  | Num q => Num (q / 100)%Q
  | other => other
  end.

(** [roundDistance] with exact arithmetic on the finite values.  The
    program multiplies and divides in binary64, so a finite result can
    differ from this one in the last hundredth; [NaN] and the infinities
    go through as they do here.  The distance step uses the results only
    through [<=] against the radius and through the order of the sort. *)
Definition roundDistance (distanceKm : number) : number :=
  div100 (Math_round (JsNumber.mul distanceKm (JsNumber.of_Z 100))).

(** [arr.sort((a, b) => key(a) - key(b))]: stable; [x] goes behind [y]
    only when the comparator is positive.  When no key is [NaN] the
    comparator is consistent and the order is the one ECMAScript fixes.
    With a [NaN] key it is not, and the order is the engine's own: of such
    an array only what does not depend on the order (which elements it
    holds, and how often) is read off this definition. *)
Section SortBy.
Context {A : Type}.
Variable key : A -> number.

Definition comparator (a b : A) : number := JsNumber.sub (key a) (key b).

Fixpoint sortBy_insert (x : A) (sorted : list A) : list A :=
  match sorted with
  | [] => [x]
  | y :: rest =>
      if JsNumber.gtb (comparator x y) (JsNumber.of_Z 0)
      then y :: sortBy_insert x rest
      else x :: y :: rest
  end.

Definition Array_sortBy (arr : list A) : list A :=
  List.fold_right sortBy_insert [] arr.
End SortBy.

(** [sortByDistance(items, referencePoint, getLocation)]; the item with
    its [distanceKm] is a pair.  [haversineDistance] stands for the value
    the floating-point function computes. *)
Definition sortByDistance {T} (haversineDistance : LatLng -> LatLng -> number)
    (items : list T) (referencePoint : LatLng) (getLocation : T -> option LatLng)
    : list (T * number) :=
  Array_sortBy snd
    (List.map (fun item =>
                 match getLocation item with
                 | None => (item, PosInfinity)
                 | Some location =>
                     (item, roundDistance (haversineDistance referencePoint location))
                 end) items).

Definition filterWithinRadius {T} (items : list (T * number)) (radiusKm : number)
    : list (T * number) :=
  List.filter (fun item => JsNumber.leb (snd item) radiusKm) items.

(** ** index.ts: the CLI arguments and the distance step of main *)

Record CliOptions := {
  opt_location : option string;
  opt_lat : option number;
  opt_lng : option number;
  opt_radiusKm : number;
  opt_keyword : option string;
  opt_maxResults : number;
  opt_detailsLimit : number;
}.

Record CliArgs := {
  arg_location : option string;
  arg_lat : option number;
  arg_lng : option number;
  arg_radiusKm : number;
  arg_keyword : option string;
  arg_maxResults : number;
  arg_detailsLimit : number;
}.

Definition is_none {A} (o : option A) : bool :=
  match o with None => true | Some _ => false end.

Definition parseCliArgs (options : CliOptions) : Result CliArgs :=
  if negb (opt_truthy (opt_location options))
     && (is_none (opt_lat options) || is_none (opt_lng options))
  then Throw (ValidationError "Either --location OR both --lat and --lng are required.")
  else if negb (is_none (opt_lat options)) && is_none (opt_lng options)
  then Throw (ValidationError "--lng is required when --lat is specified")
  else if negb (is_none (opt_lng options)) && is_none (opt_lat options)
  then Throw (ValidationError "--lat is required when --lng is specified")
  else if JsNumber.leb (opt_radiusKm options) (JsNumber.of_Z 0)
          || JsNumber.gtb (opt_radiusKm options) (JsNumber.of_Z 50)
  then Throw (ValidationError "Radius must be between 0 and 50 km")
  else Ok {| arg_location := opt_location options;
             arg_lat := opt_lat options;
             arg_lng := opt_lng options;
             arg_radiusKm := opt_radiusKm options;
             arg_keyword := opt_keyword options;
             arg_maxResults := opt_maxResults options;
             arg_detailsLimit := opt_detailsLimit options |}.

(** [!x] for an optional number: [undefined], [0] and [NaN] are falsy. *)
Definition number_falsy (x : option number) : bool :=
  match x with
  | Some n => negb (JsNumber.truthy n)
  | None => true
  end.

Section DistanceStep.

(** The value [haversineDistance] computes in floating point; the
    distance step only rounds and compares it. *)
Variable haversineDistance : LatLng -> LatLng -> number.

Variables (query_lat query_lng query_radiusKm : number).

(** The callback of [places.map(...)] in [main]. *)
Definition with_distance (place : NearbySearchPlace) : NearbySearchPlace * number :=
  let placeLat := opt_field (location place) latitude in
  let placeLng := opt_field (location place) longitude in
  match placeLat, placeLng with
  | Some la, Some lo =>
      if number_falsy placeLat || number_falsy placeLng
      then (place, PosInfinity)
      else (place,
            roundDistance
              (haversineDistance {| lat := query_lat; lng := query_lng |}
                                 {| lat := la; lng := lo |}))
  | _, _ => (place, PosInfinity)
  end.

Definition placesWithDistance (places : list NearbySearchPlace)
    : list (NearbySearchPlace * number) :=
  Array_sortBy snd
    (List.filter (fun p => JsNumber.leb (snd p) query_radiusKm)
                 (List.map with_distance places)).

End DistanceStep.

(** ** distance.ts: the haversine distance

    The numbers are the binary64 values of the program: [*], [+], [-], [/]
    and [Math.sqrt] are the IEEE 754 operations of [PrimFloat].
    [Math.sin], [Math.cos] and [Math.atan2] are parameters. *)
Module Distance.

Local Open Scope float_scope.

Record LatLng := { lat : float; lng : float }.

(** [Math.PI] *)
Definition Math_PI : float := 0x1.921fb54442d18p+1.

Definition EARTH_RADIUS_KM : float := 6371.

Definition toRadians (degrees : float) : float := degrees * (Math_PI / 180).

Section Haversine.

Variables Math_sin Math_cos : float -> float.
Variable Math_atan2 : float -> float -> float.

(** The local [a] of [haversineDistance]. *)
Definition haversine_a (point1 point2 : LatLng) : float :=
  let lat1Rad := toRadians (lat point1) in
  let lat2Rad := toRadians (lat point2) in
  let deltaLat := toRadians (lat point2 - lat point1) in
  let deltaLng := toRadians (lng point2 - lng point1) in
  Math_sin (deltaLat / 2) * Math_sin (deltaLat / 2) +
  Math_cos lat1Rad * Math_cos lat2Rad * Math_sin (deltaLng / 2) * Math_sin (deltaLng / 2).

Definition haversineDistance (point1 point2 : LatLng) : float :=
  let a := haversine_a point1 point2 in
  let c := 2 * Math_atan2 (sqrt a) (sqrt (1 - a)) in
  EARTH_RADIUS_KM * c.

End Haversine.

(** [x == y] on numbers *)
Definition equals (x y : float) : bool := x =? y.

End Distance.

(** ** google.ts: setApiKey, isApiKeyConfigured *)

(** [setApiKey(key)]: the new value of the module-level [apiKey]. *)
Definition setApiKey (key : string) (apiKey : option string) : option string := Some key.

(** [isApiKeyConfigured()], that is [!!apiKey]. *)
Definition isApiKeyConfigured (apiKey : option string) : bool := opt_truthy apiKey.

(** ** google.ts: nearbySearch and textSearch as a whole *)

(** An integer in a template literal. *)
Definition Z_to_string (z : Z) : string :=
  DecimalString.NilZero.string_of_int (Z.to_int z).

(** The double quote. *)
Definition quote : string := String (Ascii.ascii_of_nat 34) "".

(** What the remote call of one search does. *)
Inductive SearchOutcome : Type :=
  | SearchOk (places : option (list NearbySearchPlace))  (* [response.ok]; [data.places] *)
  | SearchNotOk (status : Z) (statusText : string)       (* [!response.ok] *)
  | SearchThrows (message : option string).  (* [fetch] or [json()] rejects; the message
                                                when the reason is an [Error] *)

(** The result of a search call, the search cache after it, and the body
    of the request it sent, if it sent one. *)
Record SearchReturn (Body : Type) := {
  sr_result : Result (list NearbySearchPlace);
  sr_cache : TtlCache (list NearbySearchPlace);
  sr_request : option Body;
}.
Arguments sr_result {Body} _.
Arguments sr_cache {Body} _.
Arguments sr_request {Body} _.

Definition opt_param {A} (key : string) (to_value : A -> JsValue) (field : option A)
    : Params :=
  match field with
  | Some v => [(key, to_value v)]
  | None => []
  end.

(** [{ type: 'nearby', ...options }] *)
Definition nearby_params (options : NearbySearchOptions) : Params :=
  ([("type", JString "nearby"); ("lat", JNumber (ns_lat options));
    ("lng", JNumber (ns_lng options)); ("radiusMeters", JNumber (ns_radiusMeters options))]
   ++ opt_param "includedTypes" (fun ts => JArray (List.map JString ts))
        (ns_includedTypes options)
   ++ opt_param "keyword" JString (ns_keyword options)
   ++ opt_param "maxResultCount" JNumber (ns_maxResultCount options))%list.

(** [{ type: 'text', ...options }] *)
Definition text_params (options : TextSearchOptions) : Params :=
  ([("type", JString "text"); ("textQuery", JString (ts_textQuery options));
    ("lat", JNumber (ts_lat options)); ("lng", JNumber (ts_lng options));
    ("radiusMeters", JNumber (ts_radiusMeters options))]
   ++ opt_param "maxResultCount" JNumber (ts_maxResultCount options))%list.

Section SearchCalls.

Variable JSON_stringify : JsValue -> string.
Variable apiKey : option string.

(** [nearbySearch(options)]: the clock reads [now] at the cache lookup and
    [later] when the response is stored. *)
Definition nearbySearch (now later : Z) (options : NearbySearchOptions)
    (o : SearchOutcome) (c : TtlCache (list NearbySearchPlace))
    : SearchReturn NearbyRequestBody :=
  let cacheKey := generateKey JSON_stringify (nearby_params options) in
  let '(cached, c1) := TtlCache_get now cacheKey c in
  match cached with
  | Some places => {| sr_result := Ok places; sr_cache := c1; sr_request := None |}
  | None =>
      let requestBody := nearbySearch_requestBody options in
      match getApiKey apiKey with
      | Throw e => {| sr_result := Throw e; sr_cache := c1; sr_request := None |}
      | Ok _ =>
          match o with
          | SearchOk data_places =>
              let places := match data_places with Some ps => ps | None => [] end in
              {| sr_result := Ok places;
                 sr_cache := TtlCache_set later cacheKey places c1;
                 sr_request := Some requestBody |}
          | SearchNotOk status statusText =>
              {| sr_result :=
                   Throw (GoogleApiError ("Nearby search failed: " ++ Z_to_string status
                                          ++ " " ++ statusText));
                 sr_cache := c1; sr_request := Some requestBody |}
          | SearchThrows message =>
              {| sr_result :=
                   Throw (GoogleApiError
                            ("Nearby search request failed: "
                             ++ match message with Some m => m | None => "Unknown error" end));
                 sr_cache := c1; sr_request := Some requestBody |}
          end
      end
  end.

(** [textSearch(options)] *)
Definition textSearch (now later : Z) (options : TextSearchOptions)
    (o : SearchOutcome) (c : TtlCache (list NearbySearchPlace))
    : SearchReturn TextRequestBody :=
  let cacheKey := generateKey JSON_stringify (text_params options) in
  let '(cached, c1) := TtlCache_get now cacheKey c in
  match cached with
  | Some places => {| sr_result := Ok places; sr_cache := c1; sr_request := None |}
  | None =>
      let requestBody := textSearch_requestBody options in
      match getApiKey apiKey with
      | Throw e => {| sr_result := Throw e; sr_cache := c1; sr_request := None |}
      | Ok _ =>
          match o with
          | SearchOk data_places =>
              let places := match data_places with Some ps => ps | None => [] end in
              {| sr_result := Ok places;
                 sr_cache := TtlCache_set later cacheKey places c1;
                 sr_request := Some requestBody |}
          | SearchNotOk status statusText =>
              {| sr_result :=
                   Throw (GoogleApiError ("Text search failed: " ++ Z_to_string status
                                          ++ " " ++ statusText));
                 sr_cache := c1; sr_request := Some requestBody |}
          | SearchThrows message =>
              {| sr_result :=
                   Throw (GoogleApiError
                            ("Text search request failed: "
                             ++ match message with Some m => m | None => "Unknown error" end));
                 sr_cache := c1; sr_request := Some requestBody |}
          end
      end
  end.

End SearchCalls.

(** ** google.ts: geocodeLocation *)

Record GeocodingResult := {
  geo_lat : number;
  geo_lng : number;
  geo_formattedAddress : string;
}.

Record GeocodeBounds := { northeast : LatLng; southwest : LatLng }.

Record GeocodeOptions := {
  region : option string;
  bounds : option GeocodeBounds;
}.

(** One entry of [data.results]. *)
Record GeocodingMatch := {
  match_lat : number;
  match_lng : number;
  formatted_address : string;
}.

Record GeocodingApiResponse := {
  geo_status : string;
  geo_results : list GeocodingMatch;
  error_message : option string;
}.

Inductive GeocodeOutcome : Type :=
  | GeocodeResponds (data : GeocodingApiResponse)
  | GeocodeThrows (message : option string).

(** The parameters of the request, before they are encoded in the URL. *)
Record GeocodeRequest := {
  rq_address : string;
  rq_key : string;
  rq_region : string;
  rq_bounds : option GeocodeBounds;
}.

Definition LatLng_value (p : LatLng) : JsValue :=
  JObject [("lat", JNumber (lat p)); ("lng", JNumber (lng p))].

Definition GeocodeBounds_value (b : GeocodeBounds) : JsValue :=
  JObject [("northeast", LatLng_value (northeast b));
           ("southwest", LatLng_value (southwest b))].

(** [{ address, ...options }] *)
Definition geocode_params (address : string) (options : GeocodeOptions) : Params :=
  ([("address", JString address)]
   ++ opt_param "region" JString (region options)
   ++ opt_param "bounds" GeocodeBounds_value (bounds options))%list.

Record GeocodeReturn := {
  gr_result : Result GeocodingResult;
  gr_cache : TtlCache GeocodingResult;
  gr_request : option GeocodeRequest;
}.

Section Geocoding.

Variable JSON_stringify : JsValue -> string.
Variable apiKey : option string.

(** The message of the [TypeError] the engine raises when
    [result.geometry] is read off [undefined]. *)
Variable TypeError_message : string.

Definition geocodeLocation (now later : Z) (address : string) (options : GeocodeOptions)
    (o : GeocodeOutcome) (c : TtlCache GeocodingResult) : GeocodeReturn :=
  let cacheKey := generateKey JSON_stringify (geocode_params address options) in
  let '(cached, c1) := TtlCache_get now cacheKey c in
  match cached with
  | Some found => {| gr_result := Ok found; gr_cache := c1; gr_request := None |}
  | None =>
      match getApiKey apiKey with
      | Throw e => {| gr_result := Throw e; gr_cache := c1; gr_request := None |}
      | Ok key =>
          let request :=
            {| rq_address := address; rq_key := key;
               rq_region := str_or (region options) "in";
               rq_bounds := bounds options |} in
          let failed e :=
            {| gr_result := Throw e; gr_cache := c1; gr_request := Some request |} in
          match o with
          | GeocodeThrows message =>
              failed (GeocodingError
                        ("Geocoding request failed: "
                         ++ match message with Some m => m | None => "Unknown error" end))
          | GeocodeResponds data =>
              if String.eqb (geo_status data) "ZERO_RESULTS"
              then failed (GeocodingError
                             ("No results found for location: " ++ quote ++ address ++ quote))
              else if negb (String.eqb (geo_status data) "OK")
              then failed (GeocodingError ("Geocoding failed: " ++ geo_status data))
              else
                match geo_results data with
                | [] =>
                    failed (GeocodingError
                              ("Geocoding request failed: " ++ TypeError_message))
                | result :: _ =>
                    let geocodeResult :=
                      {| geo_lat := match_lat result; geo_lng := match_lng result;
                         geo_formattedAddress := formatted_address result |} in
                    {| gr_result := Ok geocodeResult;
                       gr_cache := TtlCache_set later cacheKey geocodeResult c1;
                       gr_request := Some request |}
                end
          end
      end
  end.

End Geocoding.

(** ** index.ts: resolveSearchQuery *)

Record SearchQuery := {
  q_lat : number;
  q_lng : number;
  q_radiusKm : number;
  q_keyword : option string;
  q_maxResults : number;
  q_detailsLimit : number;
}.

(** [geocodeLocation] is a stub over an abstract world, as the search
    operations are for [searchTurfs]. *)
Definition resolveSearchQuery {World}
    (geocode : string -> World -> Result GeocodingResult * World)
    (args : CliArgs) (w : World) : Result SearchQuery * World :=
  let query la lo :=
    {| q_lat := la; q_lng := lo; q_radiusKm := arg_radiusKm args;
       q_keyword := arg_keyword args; q_maxResults := arg_maxResults args;
       q_detailsLimit := arg_detailsLimit args |} in
  match arg_lat args, arg_lng args with
  | Some la, Some lo => (Ok (query la lo), w)
  | _, _ =>
      match arg_location args with
      | Some location =>
          if JsString.truthy location
          then
            let '(res, w') := geocode location w in
            match res with
            | Ok geocodeResult =>
                (Ok (query (geo_lat geocodeResult) (geo_lng geocodeResult)), w')
            | Throw e => (Throw e, w')
            end
          else (Throw (ValidationError "No location provided"), w)
      | None => (Throw (ValidationError "No location provided"), w)
      end
  end.

(** ** api/distance.ts *)

Record MatrixElement := {
  el_status : string;
  el_distance_text : string;
  el_duration_text : string;
}.

Record MatrixRow := { elements : option (list MatrixElement) }.

Record MatrixResponse := {
  mx_status : string;
  rows : list MatrixRow;
}.

Record Leg := { leg_distance : string; leg_duration : string }.

Record DistanceResult := {
  destination : string;
  driving : option Leg;
  bicycling : option Leg;
}.

(** [fetchDistanceMatrix], from the parsed response on.  The response is
    taken to be well formed: an answer with the status OK has a [rows]
    array, and an element with the status OK has its two texts. *)
Definition fetchDistanceMatrix (destinations : list string) (data : MatrixResponse)
    : list (option Leg) :=
  if negb (String.eqb (mx_status data) "OK")
  then List.map (fun _ => None) destinations
  else
    let elements :=
      match rows data with
      | row :: _ => match elements row with Some es => es | None => [] end
      | [] => []
      end in
    List.map (fun element =>
                if String.eqb (el_status element) "OK"
                then Some {| leg_distance := el_distance_text element;
                             leg_duration := el_duration_text element |}
                else None) elements.

(** [data[i] || null] *)
Definition leg_at (data : list (option Leg)) (i : nat) : option Leg :=
  match data !! i with
  | Some leg => leg
  | None => None
  end.

(** The [for] loop of the handler, from index [i] on. *)
Fixpoint distance_results (destinations : list string)
    (drivingData bicyclingData : list (option Leg)) (i : nat) : list DistanceResult :=
  match destinations with
  | [] => []
  | d :: rest =>
      {| destination := d; driving := leg_at drivingData i;
         bicycling := leg_at bicyclingData i |}
      :: distance_results rest drivingData bicyclingData (S i)
  end.

Inductive MatrixOutcome : Type :=
  | MatrixData (data : MatrixResponse)
  | MatrixThrows (message : option string).

Inductive DistanceResponse : Type :=
  | EndOk                                   (* [res.status(200).end()] *)
  | JsonError (status : Z) (error : string) (message : option string)
  | JsonResults (results : list DistanceResult).

(** The handler.  [driving_first] tells which of the two fetches settles
    first; it matters only when both reject. *)
Definition distance_handler (method : string) (origin : option string)
    (destinations : option (list string)) (o_driving o_bicycling : MatrixOutcome)
    (driving_first : bool) : DistanceResponse :=
  if String.eqb method "OPTIONS" then EndOk
  else if negb (String.eqb method "POST") then JsonError 405 "Method not allowed" None
  else
    match destinations with
    | Some ds =>
        if negb (opt_truthy origin)
        then JsonError 400 "Origin and destinations array required" None
        else
          let failure message :=
            JsonError 500 "Distance calculation failed"
              (Some (match message with Some m => m | None => "Unknown error" end)) in
          match o_driving, o_bicycling with
          | MatrixData drivingResponse, MatrixData bicyclingResponse =>
              JsonResults
                (distance_results ds (fetchDistanceMatrix ds drivingResponse)
                   (fetchDistanceMatrix ds bicyclingResponse) 0)
          | MatrixThrows m, MatrixData _ => failure m
          | MatrixData _, MatrixThrows m => failure m
          | MatrixThrows m1, MatrixThrows m2 =>
              failure (if driving_first then m1 else m2)
          end
    | None => JsonError 400 "Origin and destinations array required" None
    end.

(** ** Sample data *)

Definition no_text : LocalizedText := {| text := None; languageCode := None |}.

Definition named (name : string) : LocalizedText :=
  {| text := Some name; languageCode := Some "en" |}.

(** A place summary with only an id, a name, type codes and a position. *)
Definition sample_place (i name : string) (ts : option (list string))
    (loc : option Location) : NearbySearchPlace :=
  {| id := i; displayName := Some (named name); formattedAddress := None;
     location := loc; rating := None; userRatingCount := None; photos := None;
     regularOpeningHours := None; businessStatus := None; types := ts |}.

Definition at_position (la lo : Q) : option Location :=
  Some {| latitude := Some (Num la); longitude := Some (Num lo) |}.

(** A review text of [n] code units. *)
Definition review_of_length (n : nat) : string :=
  String.string_of_list_ascii (List.repeat (Ascii.ascii_of_nat 97) n).

Definition bowling_alley : NearbySearchPlace :=
  sample_place "p-bowl" "XYZ Bowling Alley" (Some ["sports_complex"]) None.

Definition diner : NearbySearchPlace :=
  sample_place "p-diner" "Green Field" (Some ["restaurant"; "food"]) None.

(** Search stubs over a world without state. *)
Definition stub_nearby (places : list NearbySearchPlace)
    (_ : NearbySearchOptions) (w : unit) : Result (list NearbySearchPlace) * unit :=
  (Ok places, w).

Definition stub_text (answer : string -> Result (list NearbySearchPlace))
    (options : TextSearchOptions) (w : unit) : Result (list NearbySearchPlace) * unit :=
  (answer (ts_textQuery options), w).

Definition arena_a : NearbySearchPlace :=
  sample_place "a" "Arena A" (Some ["sports_complex"]) (at_position 12.9 77.6).
Definition arena_b : NearbySearchPlace :=
  sample_place "b" "Arena B" (Some ["stadium"]) (at_position 12.91 77.61).
Definition arena_b_again : NearbySearchPlace :=
  sample_place "b" "Arena B (second listing)" None (at_position 12.91 77.61).
Definition arena_c : NearbySearchPlace :=
  sample_place "c" "Arena C" None (at_position 12.92 77.62).

(** A text search that answers each query with one place named after it. *)
Definition one_per_keyword (query : string) : Result (list NearbySearchPlace) :=
  Ok [sample_place query query None None].

(** A run whose second keyword pass reaches [maxResults = 2]. *)
Definition capped_run : SearchRun unit :=
  searchTurfs (stub_nearby []) (stub_text one_per_keyword)
    (Num 12.9) (Num 77.6) (Num 5) None (Some (JsNumber.of_Z 2)) tt.

(** A run whose first keyword pass sights the id "b" a second time. *)
Definition overlapping_answer (query : string) : Result (list NearbySearchPlace) :=
  if String.eqb query "turf" then Ok [arena_b_again; arena_c] else Ok [].

Definition overlapping_run : SearchRun unit :=
  searchTurfs (stub_nearby [arena_a; arena_b]) (stub_text overlapping_answer)
    (Num 12.9) (Num 77.6) (Num 5) None None tt.

(** A summary and a detail record that differ in their ratings only. *)
Definition summary_rated (r : option number) : NearbySearchPlace :=
  {| id := "p1"; displayName := Some (named "Summary name");
     formattedAddress := Some "1 Summary Road";
     location := at_position 12.9 77.6; rating := r; userRatingCount := None;
     photos := Some [{| photo_name := "places/p1/photos/x"; widthPx := None;
                        heightPx := None |}];
     regularOpeningHours := None; businessStatus := None; types := None |}.

Definition detail_rated (r : option number) : PlaceDetailsResponse :=
  {| d_id := "p1"; d_displayName := None; d_formattedAddress := None;
     nationalPhoneNumber := Some "080 1234"; internationalPhoneNumber := None;
     d_location := None; d_rating := r; d_userRatingCount := None; d_photos := None;
     reviews := None; d_regularOpeningHours := None; googleMapsUri := None;
     websiteUri := None; d_businessStatus := None |}.

(** A place on the equator and one on the prime meridian. *)
Definition on_equator : NearbySearchPlace :=
  sample_place "eq" "Equator Turf" None (at_position 0 77.6).
Definition on_meridian : NearbySearchPlace :=
  sample_place "gm" "Meridian Turf" None (at_position 12.9 0).

Definition cli_options (radiusKm : number) : CliOptions :=
  {| opt_location := None; opt_lat := Some (Num 0.001); opt_lng := Some (Num 77.6);
     opt_radiusKm := radiusKm; opt_keyword := None;
     opt_maxResults := JsNumber.of_Z 30; opt_detailsLimit := JsNumber.of_Z 20 |}.

(** A stand-in for [JSON.stringify] on the values the cache keys hold. *)
Definition sample_stringify (v : JsValue) : string :=
  match v with
  | JString s => String (Ascii.ascii_of_nat 34) s ++ String (Ascii.ascii_of_nat 34) ""
  | JNumber (Num q) => if Qeq_bool q 1 then "1" else "2"
  | _ => "null"
  end.

Definition empty_cache : TtlCache PlaceDetailsResponse := TtlCache_new None.

(** A text search for "turf" around a point. *)
Definition turf_query : TextSearchOptions :=
  text_options (Num 12.9) (Num 77.6) (Num 5000) (Num 20) "turf".

(** Where items of a toy list are; "nowhere" has no location. *)
Definition toy_location (item : string) : option LatLng :=
  if String.eqb item "nowhere" then None else Some {| lat := Num 1; lng := Num 0 |}.

Definition no_geocode_options : GeocodeOptions := {| region := None; bounds := None |}.

(** A geocoding answer with two matches. *)
Definition two_matches : GeocodingApiResponse :=
  {| geo_status := "OK";
     geo_results :=
       [ {| match_lat := Num 12.9121; match_lng := Num 77.6446;
            formatted_address := "HSR Layout, Bengaluru" |};
         {| match_lat := Num 13.0; match_lng := Num 77.5;
            formatted_address := "HSR Road" |} ];
     error_message := None |}.

(** A distance matrix with one usable element and one that is not. *)
Definition sample_matrix : MatrixResponse :=
  {| mx_status := "OK";
     rows := [ {| elements :=
                    Some [ {| el_status := "OK"; el_distance_text := "2.1 km";
                              el_duration_text := "9 mins" |};
                           {| el_status := "NOT_FOUND"; el_distance_text := "";
                              el_duration_text := "" |} ] |} ] |}.

Definition denied_matrix : MatrixResponse :=
  {| mx_status := "REQUEST_DENIED"; rows := [] |}.

(** A detail record whose name is there and is the empty text. *)
Definition detail_unnamed : PlaceDetailsResponse :=
  {| d_id := "p1"; d_displayName := Some (named ""); d_formattedAddress := None;
     nationalPhoneNumber := None; internationalPhoneNumber := None;
     d_location := None; d_rating := None; d_userRatingCount := None; d_photos := None;
     reviews := None; d_regularOpeningHours := None; googleMapsUri := None;
     websiteUri := None; d_businessStatus := None |}.

(** A distance that is not a number for places at latitude 9 only. *)
Definition toy_distance (a b : LatLng) : number :=
  match lat b with
  | Num q => if Qeq_bool q 9 then NaN else Num 3
  | _ => NaN
  end.

(** Two points on opposite sides of the globe, both valid coordinates. *)
Definition near_side : Distance.LatLng :=
  {| Distance.lat := 8%float; Distance.lng := 1%float |}.
Definition far_side : Distance.LatLng :=
  {| Distance.lat := (-8)%float; Distance.lng := (-179)%float |}.

(** 8 and 90 degrees in radians as [toRadians] gives them
    (0.13962634015954636 and 1.5707963267948966), and the binary64 numbers
    nearest to the sine and the cosine of the former (0.13917310096006544
    and 0.99026806874157036). *)
Definition rad_8 : float := 0x1.1df46a2529d39p-3%float.
Definition rad_90 : float := 0x1.921fb54442d18p+0%float.
Definition sin_rad_8 : float := 0x1.1d06c968d9e19p-3%float.
Definition cos_rad_8 : float := 0x1.fb046a930947ap-1%float.

(** Stand-ins for [Math.sin], [Math.cos] and [Math.atan2] that hold the
    values of the library at the arguments a run on [near_side] and
    [far_side] needs. *)
Definition sample_sin (x : float) : float :=
  if (abs x =? rad_8)%float then (if (x <? 0)%float then - sin_rad_8 else sin_rad_8)%float
  else if (abs x =? rad_90)%float then (if (x <? 0)%float then -1 else 1)%float
  else x.

Definition sample_cos (x : float) : float :=
  if (abs x =? rad_8)%float then cos_rad_8 else 1%float.

Definition sample_atan2 (y x : float) : float :=
  if is_nan x || is_nan y then nan else 0%float.

(** ** The vocabulary of the specification *)

(** [p] occurs in [s]. *)
Definition contains (s p : string) : Prop :=
  exists before after, s = before ++ p ++ after.

(** [s] contains [p] when case is ignored. *)
Definition contains_ignoring_case (s p : string) : Prop :=
  contains (JsString.toLowerCase s) (JsString.toLowerCase p).

(** The display name the filter looks at; an absent name is empty. *)
Definition place_name (place : NearbySearchPlace) : string :=
  match displayName_text (displayName place) with
  | Some name => name
  | None => ""
  end.

Definition place_types (place : NearbySearchPlace) : list string :=
  match types place with
  | Some ts => ts
  | None => []
  end.

(** The two exclusion checks of the aggregator, and their disjunction. *)
Definition name_excluded (place : NearbySearchPlace) : Prop :=
  exists keyword, In keyword EXCLUDE_KEYWORDS /\
                  contains_ignoring_case (place_name place) keyword.

Definition type_excluded (place : NearbySearchPlace) : Prop :=
  exists type, In type excludeTypes /\ In type (place_types place).

Definition excluded (place : NearbySearchPlace) : Prop :=
  name_excluded place \/ type_excluded place.

(** [kept] is [places] with exactly the excluded places taken out. *)
Inductive removes_excluded : list NearbySearchPlace -> list NearbySearchPlace -> Prop :=
  | removes_nil : removes_excluded [] []
  | removes_drop place places kept :
      excluded place -> removes_excluded places kept ->
      removes_excluded (place :: places) kept
  | removes_keep place places kept :
      ~ excluded place -> removes_excluded places kept ->
      removes_excluded (place :: places) (place :: kept).

(** Every place the passes of a run surfaced, in the order of sighting. *)
Definition surfaced {World} (run : SearchRun World) : list NearbySearchPlace :=
  List.concat (List.map returned_places (calls run)).

(** The first place of [stream] that carries the id [i]. *)
Definition first_sighting (i : string) (stream : list NearbySearchPlace)
    : option NearbySearchPlace :=
  List.find (fun place => String.eqb (id place) i) stream.

(** The early stop read as a bound at every text-search call: when the
    call is issued, the accumulated count is still below [maxResults]. *)
Definition no_text_call_at_cap {World} (run : SearchRun World) (maxResults : number)
    : Prop :=
  forall e, In e (calls run) -> is_text_call e = true ->
            JsNumber.geb (JsNumber.of_nat (count_before e)) maxResults = false.

(** The provider-imposed limits: 50 km, and 20 results per call. *)
Definition MAX_RADIUS_METERS : number := JsNumber.of_Z 50000.
Definition PAGE_MAX : number := JsNumber.of_Z 20.

(** What a search call asks the provider for, once its request body is
    built. *)
Definition requested_radius (c : SearchCall) : number :=
  match c with
  | NearbyCall options => radius (nb_locationRestriction (nearbySearch_requestBody options))
  | TextCall options => radius (tb_locationRestriction (textSearch_requestBody options))
  end.

Definition requested_page_size (c : SearchCall) : number :=
  match c with
  | NearbyCall options => nb_maxResultCount (nearbySearch_requestBody options)
  | TextCall options => tb_maxResultCount (textSearch_requestBody options)
  end.

(** Detail wins, summary is the fallback, then the sentinel. *)
Definition resolve {A} (detail summary : option A) (sentinel : A) : A :=
  match detail, summary with
  | Some v, _ => v
  | None, Some v => v
  | None, None => sentinel
  end.

(** The same policy for a field whose sentinel is null. *)
Definition resolve_nullable {A} (detail summary : option A) : option A :=
  resolve (option_map Some detail) (option_map Some summary) None.

(** A text field that is there and not the empty text; the empty text
    counts as absent. *)
Definition non_empty (field : option string) : option string :=
  match field with
  | Some EmptyString => None
  | other => other
  end.

(** The field policy with every field that is there counted as present,
    the empty text too. *)
Definition resolves_when_there (apiKey : option string) (place : NearbySearchPlace)
    (details : option PlaceDetailsResponse) (distanceKm : number) : Prop :=
  exists result,
    buildTurfResult apiKey place details distanceKm = Ok result /\
    r_name result =
      resolve (displayName_text (opt_field details d_displayName))
              (displayName_text (displayName place)) "Unknown" /\
    r_address result =
      resolve (opt_field details d_formattedAddress)
              (formattedAddress place) "Address not available" /\
    r_rating result = resolve_nullable (opt_field details d_rating) (rating place) /\
    r_phone result =
      resolve_nullable
        (resolve_nullable (opt_field details internationalPhoneNumber)
                          (opt_field details nationalPhoneNumber))
        None /\
    r_openNow result =
      resolve_nullable (opt_field (opt_field details d_regularOpeningHours) openNow)
                       (opt_field (regularOpeningHours place) openNow).

(** A coordinate that is absent or equal to zero. *)
Definition zero_or_absent (c : option number) : Prop :=
  match c with
  | None => True
  | Some (Num q) => (q == 0)%Q
  | Some _ => False
  end.

(** The place reports no location, or a latitude or longitude that is
    absent or zero. *)
Definition location_zero_or_missing (place : NearbySearchPlace) : Prop :=
  match location place with
  | None => True
  | Some loc => zero_or_absent (latitude loc) \/ zero_or_absent (longitude loc)
  end.

(** [Math.sin] and [Math.cos] return, at 8 and 90 degrees either way,
    the binary64 number nearest to the exact value. *)
Definition nearest_at_samples (Math_sin Math_cos : float -> float) : Prop :=
  Math_sin rad_8 = sin_rad_8 /\ Math_sin (- rad_8)%float = (- sin_rad_8)%float /\
  Math_sin rad_90 = 1%float /\ Math_sin (- rad_90)%float = (-1)%float /\
  Math_cos rad_8 = cos_rad_8 /\ Math_cos (- rad_8)%float = cos_rad_8.

(** The square of the sine of half an angle given in degrees. *)
Definition half_sin_sq (Math_sin : float -> float) (delta : float) : float :=
  (Math_sin (Distance.toRadians delta / 2) * Math_sin (Distance.toRadians delta / 2))%float.

(** Two keys are tied when each is at most the other. *)
Definition tied (a b : number) : bool := JsNumber.leb a b && JsNumber.leb b a.

(** The query of a text-search call. *)
Definition text_query (e : CallEntry) : string :=
  match call e with
  | TextCall options => ts_textQuery options
  | NearbyCall _ => ""
  end.

(** The URL [getPhotoUrl] builds for a photo under the key [key]. *)
Definition photo_url (key : string) (photo : GooglePhoto) : string :=
  PLACES_PHOTO_URL ++ "/" ++ photo_name photo
  ++ "/media?maxWidthPx=400&maxHeightPx=400&key=" ++ key.

(** The photos of an optional array; none when it is absent. *)
Definition photo_list (photos : option (list GooglePhoto)) : list GooglePhoto :=
  match photos with
  | Some ps => ps
  | None => []
  end.

(** The leg of a matrix answer at a position: the answer has the status
    OK, and the element at that position of its first row has the status
    OK and these texts. *)
Definition leg_from (data : MatrixResponse) (i : nat) (leg : Leg) : Prop :=
  mx_status data = "OK"%string /\
  exists row more es element,
    rows data = row :: more /\ elements row = Some es /\ es !! i = Some element /\
    el_status element = "OK"%string /\
    leg = {| leg_distance := el_distance_text element;
             leg_duration := el_duration_text element |}.

(** ** Invariants *)

(** What the merge loops maintain: [seenPlaceIds] holds the ids of
    [allPlaces], no id occurs twice, every place of the stream seen so far
    has its id in [allPlaces], and each collected place is the first of
    the stream with its id. *)
Record merge_inv (st : SearchState) (stream : list NearbySearchPlace) : Prop := {
  inv_seen : forall i, i ∈ seenPlaceIds st <-> In i (List.map id (allPlaces st));
  inv_nodup : NoDup (List.map id (allPlaces st));
  inv_cover : forall p, In p stream -> In (id p) (List.map id (allPlaces st));
  inv_first : forall q, In q (allPlaces st) -> first_sighting (id q) stream = Some q;
}.

(** Sortedness for [arr.sort()]: every element is below all later ones. *)
Inductive ascending : list string -> Prop :=
  | ascending_nil : ascending []
  | ascending_cons x l :
      (forall y, In y l -> String.leb x y = true) -> ascending l -> ascending (x :: l).

(** Every requested id is queued, in flight, or has its entry. *)
Definition accounted (placeIds : list string) (s : BatchState) : Prop :=
  forall i, In i placeIds <->
            In i (queue s) \/ In i (List.map fst (running s)) \/ is_Some (results s !! i).

(** * Properties *)

Local Open Scope list_scope.

(** ** Strings *)

Lemma string_length_app (a b : string) :
  String.length (a ++ b)%string = (String.length a + String.length b)%nat.
Proof. induction a as [|c a IH]; simpl; [done | by rewrite IH]. Qed.

Lemma string_length_substring_0 (n : nat) (s : string) :
  (n <= String.length s)%nat -> String.length (String.substring 0 n s) = n.
Proof.
  revert s; induction n as [|n IH]; intros s Hn.
  - by destruct s.
  - destruct s as [|c s]; simpl in *; [lia |]. rewrite IH; lia.
Qed.

(** C5.  Truncation in the result builder: a review text longer than 240
    code units becomes exactly 240 code units long and ends in the
    ellipsis marker "..."; a text of at most 240 code units is returned
    unchanged. *)
Theorem truncateText_240 (text : string) :
  ((240 < JsString.length text)%Z ->
     JsString.length (truncateText text 240) = 240%Z /\
     exists body, truncateText text 240 = (body ++ "...")%string) /\
  ((JsString.length text <= 240)%Z ->
     truncateText text 240 = text).
Proof.
  unfold truncateText, JsString.length. split.
  - intros Hlong.
    destruct (Z.leb_spec (Z.of_nat (String.length text)) 240) as [Hle|_]; [lia|].
    split; [| eexists; reflexivity].
    rewrite string_length_app. unfold JsString.substring, JsString.clamp, JsString.length.
    replace (Z.to_nat (Z.min (Z.max 0 0) (Z.of_nat (String.length text)))) with 0%nat by lia.
    replace (Z.to_nat (Z.min (Z.max (240 - 3) 0) (Z.of_nat (String.length text))))
      with 237%nat by lia.
    rewrite Nat.min_0_l, Nat.max_0_l, Nat.sub_0_r.
    rewrite string_length_substring_0 by lia. simpl. lia.
  - intros Hshort.
    destruct (Z.leb_spec (Z.of_nat (String.length text)) 240) as [_|Hgt]; [done | lia].
Qed.

Lemma truncateText_240_witness :
  JsString.length (truncateText (review_of_length 300) 240) = 240%Z /\
  truncateText (review_of_length 100) 240 = review_of_length 100.
Proof.
  split.
  - apply (proj1 (truncateText_240 (review_of_length 300))). vm_compute. reflexivity.
  - apply (proj2 (truncateText_240 (review_of_length 100))). vm_compute. discriminate.
Defined.

Lemma startsWith_spec (p s : string) :
  JsString.startsWith p s = true <-> exists after, s = (p ++ after)%string.
Proof.
  revert s; induction p as [|a p IH]; intros s; simpl.
  - split; [intros _; by exists s | done].
  - destruct s as [|b s].
    + split; [done | intros [after H]; discriminate].
    + destruct (Ascii.eqb_spec a b) as [->|Hne].
      * rewrite IH. split; intros [after H]; exists after; [by rewrite H | by injection H].
      * split; [done | intros [after H]; injection H; intros; congruence].
Qed.

Lemma includes_spec (s p : string) :
  JsString.includes s p = true <-> contains s p.
Proof.
  unfold contains. induction s as [|c s IH].
  - simpl. destruct (JsString.startsWith p "") eqn:E.
    + apply startsWith_spec in E as [after E]. split; [intros _ | done].
      by exists "", after.
    + split; [done |]. intros ([|b before] & after & H).
      * assert (JsString.startsWith p "" = true) as E'
          by (apply startsWith_spec; by exists after).
        congruence.
      * discriminate.
  - cbn [JsString.includes]. destruct (JsString.startsWith p (String c s)) eqn:E.
    + apply startsWith_spec in E as [after E]. split; [intros _ | done].
      by exists "", after.
    + rewrite IH. split.
      * intros (before & after & ->). by exists (String c before), after.
      * intros ([|b before] & after & H).
        -- assert (JsString.startsWith p (String c s) = true) as E'
             by (apply startsWith_spec; by exists after).
           congruence.
        -- injection H as -> ->. by exists before, after.
Qed.

Lemma matches_exclude_keyword_spec (name : string) (keywords : list string) :
  matches_exclude_keyword name keywords = true <->
  exists keyword, In keyword keywords /\ contains name keyword.
Proof.
  induction keywords as [|k ks IH]; simpl.
  - split; [done | by intros (? & [] & _)].
  - destruct (JsString.includes name k) eqn:E.
    + split; [intros _ | done]. exists k. split; [by left | by apply includes_spec].
    + rewrite IH. split.
      * intros (kw & Hin & Hc). exists kw. split; [by right | done].
      * intros (kw & [<- | Hin] & Hc); [| by exists kw].
        apply includes_spec in Hc. congruence.
Qed.

Lemma Array_includes_spec (arr : list string) (x : string) :
  Array_includes arr x = true <-> In x arr.
Proof.
  induction arr as [|y arr IH]; simpl; [done |].
  destruct (String.eqb_spec y x) as [->|Hne].
  - split; [by left | done].
  - rewrite IH. split; [by right | by intros [? | ?]].
Qed.

Lemma has_exclude_type_spec (ts excl : list string) :
  has_exclude_type ts excl = true <-> exists type, In type excl /\ In type ts.
Proof.
  induction excl as [|t excl IH]; simpl.
  - split; [done | by intros (? & [] & _)].
  - destruct (Array_includes ts t) eqn:E.
    + split; [intros _ | done]. exists t. split; [by left | by apply Array_includes_spec].
    + rewrite IH. split.
      * intros (t' & Hin & Hc). exists t'. split; [by right | done].
      * intros (t' & [<- | Hin] & Hc); [| by exists t'].
        apply Array_includes_spec in Hc. congruence.
Qed.

(** The exclusion keywords are written in lower case, so looking for them
    in the lower-cased name is the comparison that ignores case. *)
Lemma EXCLUDE_KEYWORDS_lower (keyword : string) :
  In keyword EXCLUDE_KEYWORDS -> JsString.toLowerCase keyword = keyword.
Proof.
  unfold EXCLUDE_KEYWORDS. simpl. intros Hin.
  repeat (destruct Hin as [<- | Hin]; [reflexivity |]). destruct Hin.
Qed.

Lemma str_or_empty (o : option LocalizedText) :
  str_or (displayName_text o) "" =
  match displayName_text o with Some name => name | None => "" end.
Proof. unfold str_or. destruct (displayName_text o) as [[|c s]|]; reflexivity. Qed.

Lemma filterTurfResults_keep_spec (place : NearbySearchPlace) :
  filterTurfResults_keep place = false <-> excluded place.
Proof.
  unfold filterTurfResults_keep, excluded, name_excluded, type_excluded,
    contains_ignoring_case.
  rewrite str_or_empty. fold (place_name place). fold (place_types place).
  destruct (matches_exclude_keyword _ EXCLUDE_KEYWORDS) eqn:Ek.
  - split; [intros _ | done]. left.
    apply matches_exclude_keyword_spec in Ek as (kw & Hin & Hc).
    exists kw. split; [done |]. by rewrite (EXCLUDE_KEYWORDS_lower kw Hin).
  - destruct (has_exclude_type _ excludeTypes) eqn:Et.
    + split; [intros _ | done]. right. by apply has_exclude_type_spec.
    + split; [done |]. intros [(kw & Hin & Hc) | Ht].
      * rewrite (EXCLUDE_KEYWORDS_lower kw Hin) in Hc.
        assert (matches_exclude_keyword (JsString.toLowerCase (place_name place))
                  EXCLUDE_KEYWORDS = true) as E'
          by (apply matches_exclude_keyword_spec; by exists kw).
        congruence.
      * apply has_exclude_type_spec in Ht. congruence.
Qed.

Lemma filterTurfResults_In (place : NearbySearchPlace) (places : list NearbySearchPlace) :
  In place (filterTurfResults places) <-> In place places /\ ~ excluded place.
Proof.
  unfold filterTurfResults. rewrite filter_In, <- filterTurfResults_keep_spec.
  destruct (filterTurfResults_keep place); intuition congruence.
Qed.

(** C4.  The post-hoc filter removes exactly the places whose display name
    contains, case ignored, a keyword of the exclusion list, or whose type
    codes meet the exclusion type list; either check alone removes the
    place.  A place named "XYZ Bowling Alley" is removed whatever its type
    codes, and a place of type "restaurant" whatever its name. *)
Theorem filterTurfResults_removes_excluded :
  (forall places, removes_excluded places (filterTurfResults places)) /\
  (forall place places,
     displayName_text (displayName place) = Some "XYZ Bowling Alley" ->
     ~ In place (filterTurfResults places)) /\
  (forall place places codes,
     types place = Some codes -> In "restaurant" codes ->
     ~ In place (filterTurfResults places)).
Proof.
  split; [| split].
  - induction places as [|place places IH]; [constructor |].
    unfold filterTurfResults in *. simpl.
    destruct (filterTurfResults_keep place) eqn:E.
    + apply removes_keep; [| done].
      rewrite <- filterTurfResults_keep_spec. congruence.
    + apply removes_drop; [| done]. by apply filterTurfResults_keep_spec.
  - intros place places Hname Hin.
    apply filterTurfResults_In in Hin as [_ Hnot]. apply Hnot. left.
    exists "bowling". split; [by left |].
    unfold contains_ignoring_case, place_name. rewrite Hname.
    by exists "xyz ", " alley".
  - intros place places codes Htypes Hcode Hin.
    apply filterTurfResults_In in Hin as [_ Hnot]. apply Hnot. right.
    exists "restaurant". split; [unfold excludeTypes; simpl; tauto |].
    unfold place_types. by rewrite Htypes.
Qed.

Lemma filterTurfResults_removes_excluded_witness :
  ~ In bowling_alley (filterTurfResults [bowling_alley; diner]) /\
  ~ In diner (filterTurfResults [bowling_alley; diner]).
Proof.
  destruct filterTurfResults_removes_excluded as (_ & Hname & Htype). split.
  - apply Hname. reflexivity.
  - apply (Htype _ _ ["restaurant"; "food"]); [reflexivity | by left].
Defined.

(** ** searchTurfs: merging the passes *)

Lemma merge_inv_init : merge_inv {| seenPlaceIds := ∅; allPlaces := [] |} [].
Proof.
  split; simpl.
  - intros i. set_solver.
  - constructor.
  - intros p [].
  - intros q [].
Qed.

Lemma first_sighting_app_Some i stream more q :
  first_sighting i stream = Some q -> first_sighting i (stream ++ more) = Some q.
Proof.
  unfold first_sighting. induction stream as [|p stream IH]; simpl; [done |].
  destruct (String.eqb (id p) i); [done | apply IH].
Qed.

Lemma first_sighting_app_None i stream more :
  (forall p, In p stream -> id p <> i) ->
  first_sighting i (stream ++ more) = first_sighting i more.
Proof.
  unfold first_sighting. induction stream as [|p stream IH]; simpl; intros Hno; [done |].
  destruct (String.eqb_spec (id p) i) as [Heq|_].
  - exfalso. apply (Hno p); [by left | done].
  - apply IH. intros p' Hp'. apply Hno. by right.
Qed.

Lemma add_unique_inv st stream place :
  merge_inv st stream -> merge_inv (add_unique st place) (stream ++ [place]).
Proof.
  intros [Hseen Hnodup Hcover Hfirst]. unfold add_unique.
  destruct (decide (id place ∈ seenPlaceIds st)) as [Hin|Hnotin].
  - split; try done.
    + intros p [Hp | [<- | []]]%in_app_or; [by apply Hcover | by apply Hseen].
    + intros q Hq. by apply first_sighting_app_Some, Hfirst.
  - assert (~ In (id place) (List.map id (allPlaces st))) as Hfresh
      by (intros H; by apply Hnotin, Hseen).
    split; simpl.
    + intros i. rewrite List.map_app, in_app_iff, <- Hseen. simpl.
      rewrite elem_of_union, elem_of_singleton. intuition congruence.
    + rewrite List.map_app. simpl. apply NoDup_app. split; [done |]. split.
      * intros x Hx Hx'. apply list_elem_of_In in Hx, Hx'.
        destruct Hx' as [<- | []]. by apply Hfresh.
      * apply NoDup_singleton.
    + intros p Hp. rewrite List.map_app, in_app_iff.
      apply in_app_or in Hp as [Hp | [<- | []]]; [left; by apply Hcover | right; by left].
    + intros q [Hq | [<- | []]]%in_app_or.
      * by apply first_sighting_app_Some, Hfirst.
      * rewrite first_sighting_app_None.
        -- unfold first_sighting. simpl. by rewrite String.eqb_refl.
        -- intros p Hp Heq. apply Hfresh. rewrite <- Heq. by apply Hcover.
Qed.

Lemma add_all_inv places st stream :
  merge_inv st stream -> merge_inv (add_all st places) (stream ++ places).
Proof.
  revert st stream. induction places as [|p places IH]; intros st stream Hinv.
  - by rewrite app_nil_r.
  - simpl. replace (stream ++ p :: places) with ((stream ++ [p]) ++ places)
      by (by rewrite <- app_assoc).
    apply IH. by apply add_unique_inv.
Qed.

Section SearchTurfsFacts.

Context {World : Type}.
Variable nearbySearch :
  NearbySearchOptions -> World -> Result (list NearbySearchPlace) * World.
Variable textSearch :
  TextSearchOptions -> World -> Result (list NearbySearchPlace) * World.
Variables (lat lng radiusMeters maxResults : number).

Lemma nearby_pass_inv st w st' w' e stream :
  nearby_pass nearbySearch lat lng radiusMeters maxResults st w = (st', w', e) ->
  merge_inv st stream ->
  merge_inv st' (stream ++ returned_places e).
Proof.
  unfold nearby_pass. destruct (nearbySearch _ w) as [res w1].
  intros [= <- <- <-] Hinv. unfold returned_places. simpl.
  destruct res as [places | err]; [by apply add_all_inv | by rewrite app_nil_r].
Qed.

Lemma keyword_loop_inv keywords : forall st w st' w' es stream,
  keyword_loop textSearch lat lng radiusMeters maxResults keywords st w = (st', w', es) ->
  merge_inv st stream ->
  merge_inv st' (stream ++ List.concat (List.map returned_places es)).
Proof.
  induction keywords as [|keyword rest IH]; intros st w st' w' es stream; simpl.
  - intros [= <- <- <-] Hinv. simpl. by rewrite app_nil_r.
  - destruct (textSearch _ w) as [[places | err] w1].
    + destruct (JsNumber.geb _ maxResults).
      * intros [= <- <- <-] Hinv. simpl. rewrite app_nil_r. by apply add_all_inv.
      * destruct (keyword_loop _ _ _ _ _ rest _ w1) as [[st2 w2] es2] eqn:Eloop.
        intros [= <- <- <-] Hinv. simpl. rewrite app_assoc.
        eapply IH; [exact Eloop |]. by apply add_all_inv.
    + destruct (keyword_loop _ _ _ _ _ rest _ w1) as [[st2 w2] es2] eqn:Eloop.
      intros [= <- <- <-] Hinv. simpl. by eapply IH.
Qed.

(** A keyword pass that is followed by another call either threw or left
    the accumulated count below [maxResults]. *)
Lemma keyword_loop_stops keywords : forall st w st' w' es before e next after,
  keyword_loop textSearch lat lng radiusMeters maxResults keywords st w = (st', w', es) ->
  es = before ++ e :: next :: after ->
  returned e = true ->
  JsNumber.geb (JsNumber.of_nat (count_after e)) maxResults = false.
Proof.
  induction keywords as [|keyword rest IH];
    intros st w st' w' es before e next after; simpl.
  - intros [= <- <- <-] Hes. by destruct before.
  - destruct (textSearch _ w) as [[places | err] w1].
    + destruct (JsNumber.geb _ maxResults) eqn:Ecap.
      * intros [= <- <- <-] Hes. destruct before as [|? [|? ?]]; discriminate.
      * destruct (keyword_loop _ _ _ _ _ rest _ w1) as [[st2 w2] es2] eqn:Eloop.
        intros [= <- <- <-] Hes Hret. destruct before as [|e0 before].
        -- injection Hes as <- _. exact Ecap.
        -- injection Hes as _ Hes. by eapply IH.
    + destruct (keyword_loop _ _ _ _ _ rest _ w1) as [[st2 w2] es2] eqn:Eloop.
      intros [= <- <- <-] Hes Hret. destruct before as [|e0 before].
      * injection Hes as <- _. discriminate.
      * injection Hes as _ Hes. by eapply IH.
Qed.

Lemma keyword_loop_text_calls keywords : forall st w st' w' es e,
  keyword_loop textSearch lat lng radiusMeters maxResults keywords st w = (st', w', es) ->
  In e es ->
  exists keyword, call e = TextCall (text_options lat lng radiusMeters maxResults keyword).
Proof.
  induction keywords as [|keyword rest IH]; intros st w st' w' es e; simpl.
  - by intros [= <- <- <-] [].
  - destruct (textSearch _ w) as [[places | err] w1].
    + destruct (JsNumber.geb _ maxResults).
      * intros [= <- <- <-] [<- | []]. by exists keyword.
      * destruct (keyword_loop _ _ _ _ _ rest _ w1) as [[st2 w2] es2] eqn:Eloop.
        intros [= <- <- <-] [<- | Hin]; [by exists keyword | by eapply IH].
    + destruct (keyword_loop _ _ _ _ _ rest _ w1) as [[st2 w2] es2] eqn:Eloop.
      intros [= <- <- <-] [<- | Hin]; [by exists keyword | by eapply IH].
Qed.

End SearchTurfsFacts.

(** The shape of a run: the state and the log of the two stages. *)
Lemma searchTurfs_unfold {World}
    (nearbySearch : NearbySearchOptions -> World -> Result (list NearbySearchPlace) * World)
    (textSearch : TextSearchOptions -> World -> Result (list NearbySearchPlace) * World)
    (lat lng radiusKm : number) (customKeyword : option string)
    (maxResults_arg : option number) (w : World) :
  let cap := default (maxResults DEFAULT_CONFIG) maxResults_arg in
  let radiusMeters := JsNumber.mul radiusKm (JsNumber.of_Z 1000) in
  exists st1 w1 e0 st2 w2 es,
    nearby_pass nearbySearch lat lng radiusMeters cap
      {| seenPlaceIds := ∅; allPlaces := [] |} w = (st1, w1, e0) /\
    keyword_loop textSearch lat lng radiusMeters cap
      (build_keywords customKeyword) st1 w1 = (st2, w2, es) /\
    merged (searchTurfs nearbySearch textSearch lat lng radiusKm customKeyword
              maxResults_arg w) = allPlaces st2 /\
    calls (searchTurfs nearbySearch textSearch lat lng radiusKm customKeyword
             maxResults_arg w) = e0 :: es.
Proof.
  intros cap radiusMeters. unfold searchTurfs. fold cap. fold radiusMeters.
  destruct (nearby_pass _ _ _ _ _ _ w) as [[st1 w1] e0] eqn:E1.
  destruct (keyword_loop _ _ _ _ _ _ st1 w1) as [[st2 w2] es] eqn:E2.
  by exists st1, w1, e0, st2, w2, es.
Qed.

(** C3.  Whatever the nearby seed pass and the keyword passes return, the
    merged list holds each surfaced place id exactly once: no id occurs
    twice, every surfaced id occurs, and the place kept for an id is the
    first sighting of that id, with all its fields; nothing of a later
    sighting is merged in. *)
Theorem searchTurfs_merges_first_seen {World}
    (nearbySearch : NearbySearchOptions -> World -> Result (list NearbySearchPlace) * World)
    (textSearch : TextSearchOptions -> World -> Result (list NearbySearchPlace) * World)
    (lat lng radiusKm : number) (customKeyword : option string)
    (maxResults_arg : option number) (w : World) :
  let run := searchTurfs nearbySearch textSearch lat lng radiusKm customKeyword
               maxResults_arg w in
  List.NoDup (List.map id (merged run)) /\
  (forall place, In place (surfaced run) -> In (id place) (List.map id (merged run))) /\
  (forall kept, In kept (merged run) ->
                first_sighting (id kept) (surfaced run) = Some kept).
Proof.
  intros run. unfold surfaced. subst run.
  destruct (searchTurfs_unfold nearbySearch textSearch lat lng radiusKm customKeyword
              maxResults_arg w) as (st1 & w1 & e0 & st2 & w2 & es & E1 & E2 & -> & ->).
  pose proof (nearby_pass_inv _ _ _ _ _ _ _ _ _ _ [] E1 merge_inv_init) as Hinv1.
  pose proof (keyword_loop_inv _ _ _ _ _ _ _ _ _ _ _ _ E2 Hinv1) as [_ Hnodup Hcover Hfirst].
  simpl in *. split; [by apply NoDup_ListNoDup | by split].
Qed.

(** C2, as the code has it.  The cap is looked at only after a keyword
    pass that returned: a keyword pass that returned with the accumulated
    count at or above [maxResults] is the last search call of the run.
    Read the other way round, a text-search call that is followed by
    another call either threw or left the count below [maxResults]. *)
Theorem searchTurfs_stops_after_full_pass {World}
    (nearbySearch : NearbySearchOptions -> World -> Result (list NearbySearchPlace) * World)
    (textSearch : TextSearchOptions -> World -> Result (list NearbySearchPlace) * World)
    (lat lng radiusKm : number) (customKeyword : option string)
    (maxResults_arg : option number) (w : World)
    (before after : list CallEntry) (e next : CallEntry) :
  let run := searchTurfs nearbySearch textSearch lat lng radiusKm customKeyword
               maxResults_arg w in
  calls run = before ++ e :: next :: after ->
  is_text_call e = true ->
  returned e = true ->
  JsNumber.geb (JsNumber.of_nat (count_after e))
               (default (maxResults DEFAULT_CONFIG) maxResults_arg) = false.
Proof.
  intros run. subst run.
  destruct (searchTurfs_unfold nearbySearch textSearch lat lng radiusKm customKeyword
              maxResults_arg w) as (st1 & w1 & e0 & st2 & w2 & es & E1 & E2 & _ & ->).
  intros Hcalls Htext Hret. destruct before as [|e0' before].
  - injection Hcalls as <- _. unfold nearby_pass in E1.
    destruct (nearbySearch _ w) as [res w0]. injection E1 as _ _ <-. discriminate.
  - injection Hcalls as _ Hes. by eapply keyword_loop_stops.
Qed.

Lemma searchTurfs_stops_after_full_pass_witness :
  exists e0 e1 e2,
    calls capped_run = [e0; e1; e2] /\
    JsNumber.geb (JsNumber.of_nat (count_after e1)) (JsNumber.of_Z 2) = false.
Proof.
  destruct (calls capped_run) as [|e0 [|e1 [|e2 [|e3 rest]]]] eqn:Ecalls;
    try (vm_compute in Ecalls; discriminate).
  exists e0, e1, e2. split; [reflexivity |].
  apply (searchTurfs_stops_after_full_pass (stub_nearby []) (stub_text one_per_keyword)
           (Num 12.9) (Num 77.6) (Num 5) None (Some (JsNumber.of_Z 2)) tt
           [e0] [] e1 e2).
  - exact Ecalls.
  - vm_compute in Ecalls. injection Ecalls as _ <- _. reflexivity.
  - vm_compute in Ecalls. injection Ecalls as _ <- _. reflexivity.
Defined.

(** The end-to-end scenario: a seed pass with three places, one of them a
    bowling alley, and a keyword pass with two places, one already seen,
    give four unique places and three results. *)
Example searchTurfs_end_to_end :
  let funzone := sample_place "f" "Funzone Bowling" None (at_position 12.913 77.645) in
  let run := searchTurfs (stub_nearby [arena_a; funzone; arena_b])
               (stub_text (fun query => if String.eqb query "turf"
                                        then Ok [arena_b_again; arena_c] else Ok []))
               (Num 12.9121) (Num 77.6446) (Num 5) None None tt in
  List.map id (merged run) = ["a"; "f"; "b"; "c"] /\
  output run = [arena_a; arena_b; arena_c] /\
  List.length (calls run) = 11%nat.
Proof. vm_compute. repeat split. Qed.

(** C2 as stated fails: when the nearby seed pass alone reaches
    [maxResults], the first keyword pass is issued all the same. *)
Lemma searchTurfs_text_call_at_cap :
  ~ no_text_call_at_cap
      (searchTurfs (stub_nearby [arena_a]) (stub_text (fun _ => Ok []))
         (Num 12.9) (Num 77.6) (Num 5) None (Some (JsNumber.of_Z 1)) tt)
      (JsNumber.of_Z 1).
Proof.
  intros Hclaim.
  set (run := searchTurfs _ _ _ _ _ _ _ _) in Hclaim.
  assert (exists e, nth_error (calls run) 1 = Some e /\ is_text_call e = true /\
                    count_before e = 1%nat) as (e & Hnth & Htext & Hcount).
  { eexists. split; [vm_compute; reflexivity | split; reflexivity]. }
  specialize (Hclaim e (nth_error_In _ _ Hnth) Htext).
  rewrite Hcount in Hclaim. vm_compute in Hclaim. discriminate.
Qed.

Lemma searchTurfs_merges_first_seen_witness :
  In "c" (List.map id (merged overlapping_run)) /\
  first_sighting "b" (surfaced overlapping_run) = Some arena_b.
Proof.
  destruct (searchTurfs_merges_first_seen (stub_nearby [arena_a; arena_b])
              (stub_text overlapping_answer)
              (Num 12.9) (Num 77.6) (Num 5) None None tt) as (_ & Hcover & Hfirst).
  split.
  - apply (Hcover arena_c). vm_compute. tauto.
  - apply (Hfirst arena_b). vm_compute. tauto.
Defined.

(** ** The search requests *)

(** Both request bodies carry [Math.min(radiusMeters, 50000)], which is at
    most 50000 whenever it is a number at all. *)
Lemma request_radius_capped (c : SearchCall) :
  let given := match c with
               | NearbyCall options => ns_radiusMeters options
               | TextCall options => ts_radiusMeters options
               end in
  requested_radius c = JsNumber.Math_min given MAX_RADIUS_METERS /\
  (given <> NaN -> JsNumber.leb (requested_radius c) MAX_RADIUS_METERS = true).
Proof.
  destruct c as [options | options]; simpl; (split; [reflexivity |]).
  all: unfold JsNumber.Math_min, MAX_RADIUS_METERS, JsNumber.of_Z.
  all: match goal with |- ?g <> NaN -> _ => destruct g as [| | |q] eqn:E end;
    intros Hnan; try done.
  all: simpl; destruct (Qle_bool q (inject_Z 50000)) eqn:Eq; simpl; try done.
Qed.

(** The page size of a request is the [maxResultCount] option when that is
    truthy, and 30 otherwise. *)
Lemma request_page_size (c : SearchCall) :
  requested_page_size c =
  JsNumber.or_else (match c with
                    | NearbyCall options => ns_maxResultCount options
                    | TextCall options => ts_maxResultCount options
                    end) (JsNumber.of_Z 30).
Proof. by destruct c. Qed.

Lemma searchTurfs_calls_options {World}
    (nearbySearch : NearbySearchOptions -> World -> Result (list NearbySearchPlace) * World)
    (textSearch : TextSearchOptions -> World -> Result (list NearbySearchPlace) * World)
    (lat lng radiusKm : number) (customKeyword : option string)
    (maxResults_arg : option number) (w : World) (e : CallEntry) :
  let cap := default (maxResults DEFAULT_CONFIG) maxResults_arg in
  let radiusMeters := JsNumber.mul radiusKm (JsNumber.of_Z 1000) in
  In e (calls (searchTurfs nearbySearch textSearch lat lng radiusKm customKeyword
                 maxResults_arg w)) ->
  call e = NearbyCall (nearby_options lat lng radiusMeters cap) \/
  exists keyword, call e = TextCall (text_options lat lng radiusMeters cap keyword).
Proof.
  intros cap radiusMeters.
  destruct (searchTurfs_unfold nearbySearch textSearch lat lng radiusKm customKeyword
              maxResults_arg w) as (st1 & w1 & e0 & st2 & w2 & es & E1 & E2 & _ & ->).
  intros [<- | Hin].
  - left. unfold nearby_pass in E1. destruct (nearbySearch _ w) as [res w0].
    by injection E1 as _ _ <-.
  - right. by eapply keyword_loop_text_calls.
Qed.

(** C1, where the code leaves it.  A search call whose options carry no
    [maxResultCount] asks for [DEFAULT_CONFIG.maxResults], that is 30
    results, and so does every call of a [searchTurfs] run with
    [maxResults = 0]: [Math.min(20, 0)] is [0], which is falsy.  Both are
    above the page maximum of 20. *)
Theorem search_requests_above_page_max {World}
    (nearbySearch : NearbySearchOptions -> World -> Result (list NearbySearchPlace) * World)
    (textSearch : TextSearchOptions -> World -> Result (list NearbySearchPlace) * World)
    (lat lng radiusKm radiusMeters : number) (customKeyword : option string)
    (query : string) (w : World) :
  let direct := TextCall {| ts_textQuery := query; ts_lat := lat; ts_lng := lng;
                            ts_radiusMeters := radiusMeters;
                            ts_maxResultCount := None |} in
  let run := searchTurfs nearbySearch textSearch lat lng radiusKm customKeyword
               (Some (JsNumber.of_Z 0)) w in
  (requested_page_size direct = JsNumber.of_Z 30 /\
   JsNumber.leb (requested_page_size direct) PAGE_MAX = false) /\
  calls run <> [] /\
  List.Forall (fun e => requested_page_size (call e) = JsNumber.of_Z 30 /\
                        JsNumber.leb (requested_page_size (call e)) PAGE_MAX = false)
              (calls run).
Proof.
  intros direct run. split; [by vm_compute |]. split.
  - subst run.
    destruct (searchTurfs_unfold nearbySearch textSearch lat lng radiusKm customKeyword
                (Some (JsNumber.of_Z 0)) w) as (? & ? & ? & ? & ? & ? & _ & _ & _ & ->).
    discriminate.
  - apply List.Forall_forall. intros e Hin.
    apply searchTurfs_calls_options in Hin as [-> | [keyword ->]]; by vm_compute.
Qed.

(** With a truthy [maxResults] the run keeps every request within the
    page maximum: the cap is set where [searchTurfs] builds the options. *)
Lemma searchTurfs_page_size_capped {World}
    (nearbySearch : NearbySearchOptions -> World -> Result (list NearbySearchPlace) * World)
    (textSearch : TextSearchOptions -> World -> Result (list NearbySearchPlace) * World)
    (lat lng radiusKm : number) (customKeyword : option string)
    (maxResults_arg : option number) (w : World) (e : CallEntry) :
  JsNumber.truthy (default (maxResults DEFAULT_CONFIG) maxResults_arg) = true ->
  In e (calls (searchTurfs nearbySearch textSearch lat lng radiusKm customKeyword
                 maxResults_arg w)) ->
  JsNumber.leb (requested_page_size (call e)) PAGE_MAX = true.
Proof.
  intros Htruthy Hin.
  assert (forall cap, JsNumber.truthy cap = true ->
            JsNumber.leb (JsNumber.or_else (Some (JsNumber.Math_min (JsNumber.of_Z 20) cap))
                            (JsNumber.of_Z 30)) PAGE_MAX = true) as Hcap.
  { intros [| | |q] Hq; try done. unfold JsNumber.Math_min, JsNumber.of_Z. simpl.
    simpl in Hq. destruct (Qle_bool (inject_Z 20) q) eqn:Eq; simpl.
    - reflexivity.
    - rewrite Hq. simpl. destruct (Qle_bool q (inject_Z 20)) eqn:Eq'; [done |].
      exfalso. destruct (Qlt_le_dec q (inject_Z 20)) as [Hlt | Hle].
      + apply Qlt_le_weak, Qle_bool_iff in Hlt. congruence.
      + apply Qle_bool_iff in Hle. congruence. }
  apply searchTurfs_calls_options in Hin as [-> | [keyword ->]]; by apply Hcap.
Qed.

(** ** The result builder *)

Lemma mapM_getPhotoUrl_Ok (apiKey : option string) (key : string)
    (photos : list GooglePhoto) :
  getApiKey apiKey = Ok key ->
  exists urls, mapM (fun photo => getPhotoUrl apiKey (photo_name photo)) photos = Ok urls.
Proof.
  intros Hkey. induction photos as [|photo photos [urls IH]]; simpl.
  - by eexists.
  - unfold getPhotoUrl at 1. rewrite Hkey. simpl. rewrite IH. simpl. by eexists.
Qed.

Lemma getPhotoUrls_Ok (apiKey : option string) (key : string)
    (photos : option (list GooglePhoto)) (maxPhotos : nat) :
  getApiKey apiKey = Ok key ->
  exists urls, getPhotoUrls apiKey photos maxPhotos = Ok urls.
Proof.
  intros Hkey. unfold getPhotoUrls. destruct photos as [[|photo photos]|];
    [by eexists | | by eexists].
  by eapply mapM_getPhotoUrl_Ok.
Qed.

Lemma str_or_resolve (detail summary : option string) (sentinel : string) :
  str_or (str_or_opt detail summary) sentinel =
  resolve (non_empty detail) (non_empty summary) sentinel.
Proof.
  destruct detail as [[|c s]|], summary as [[|c' s']|]; reflexivity.
Qed.

Lemma nullish_resolve {A} (detail summary : option A) :
  nullish detail (nullish summary None) = resolve_nullable detail summary.
Proof. destruct detail, summary; reflexivity. Qed.

(** C6, amended.  With the API key configured, [buildTurfResult] returns
    a result for every summary, optional detail record and distance, and
    each field is resolved on its own.  For the name and the address: the
    detail record's text when it is there and not empty, else the
    summary's when it is there and not empty, else the sentinel ("Unknown",
    "Address not available").  For the phone: the international number of
    the detail record when there and not empty, else its national number
    when there and not empty, else null; the summary record has no phone
    field.  For rating, open status, rating count and coordinates: the
    detail record's value when there, else the summary's, else null.  In
    particular a summary rating of 4.0 and a detail rating of 4.5 give 4.5,
    and a detail record without rating and a summary rating of 3.8 give
    3.8. *)
Theorem buildTurfResult_field_resolution (apiKey : option string) (key : string)
    (place : NearbySearchPlace) (details : option PlaceDetailsResponse)
    (distanceKm : number) :
  getApiKey apiKey = Ok key ->
  exists result,
    buildTurfResult apiKey place details distanceKm = Ok result /\
    r_name result =
      resolve (non_empty (displayName_text (opt_field details d_displayName)))
              (non_empty (displayName_text (displayName place))) "Unknown" /\
    r_address result =
      resolve (non_empty (opt_field details d_formattedAddress))
              (non_empty (formattedAddress place)) "Address not available" /\
    r_rating result = resolve_nullable (opt_field details d_rating) (rating place) /\
    r_phone result =
      resolve_nullable
        (resolve_nullable (non_empty (opt_field details internationalPhoneNumber))
                          (non_empty (opt_field details nationalPhoneNumber)))
        None /\
    r_openNow result =
      resolve_nullable (opt_field (opt_field details d_regularOpeningHours) openNow)
                       (opt_field (regularOpeningHours place) openNow) /\
    r_userRatingsTotal result =
      resolve_nullable (opt_field details d_userRatingCount) (userRatingCount place) /\
    r_lat result =
      resolve_nullable (opt_field (opt_field details d_location) latitude)
                       (opt_field (location place) latitude) /\
    r_lng result =
      resolve_nullable (opt_field (opt_field details d_location) longitude)
                       (opt_field (location place) longitude) /\
    (forall detail_rating,
       opt_field details d_rating = Some detail_rating ->
       r_rating result = Some detail_rating) /\
    (forall summary_rating,
       opt_field details d_rating = None -> rating place = Some summary_rating ->
       r_rating result = Some summary_rating).
Proof.
  intros Hkey. unfold buildTurfResult.
  destruct (getPhotoUrls_Ok apiKey key
              (match opt_field details d_photos with
               | Some ps => Some ps
               | None => photos place
               end) 3 Hkey) as [urls ->].
  simpl. eexists. split; [reflexivity |]. simpl.
  rewrite !str_or_resolve, !nullish_resolve.
  repeat split.
  - unfold opt_truthy.
    destruct (opt_field details internationalPhoneNumber) as [[|c s]|],
             (opt_field details nationalPhoneNumber) as [[|c' s']|]; reflexivity.
  - intros dr Hd. by rewrite Hd.
  - intros sr Hd Hs. by rewrite Hd, Hs.
Qed.

Lemma buildTurfResult_field_resolution_witness :
  (exists result,
     buildTurfResult (Some "key") (summary_rated (Some (Num 4.0)))
       (Some (detail_rated (Some (Num 4.5)))) (Num 1.2) = Ok result /\
     r_rating result = Some (Num 4.5)) /\
  (exists result,
     buildTurfResult (Some "key") (summary_rated (Some (Num 3.8)))
       (Some (detail_rated None)) (Num 1.2) = Ok result /\
     r_rating result = Some (Num 3.8) /\
     r_name result = "Summary name" /\ r_phone result = Some "080 1234").
Proof.
  split.
  - destruct (buildTurfResult_field_resolution (Some "key") "key"
                (summary_rated (Some (Num 4.0))) (Some (detail_rated (Some (Num 4.5))))
                (Num 1.2) eq_refl)
      as (result & Hres & _ & _ & _ & _ & _ & _ & _ & _ & Hdetail & _).
    exists result. split; [exact Hres |]. by apply Hdetail.
  - destruct (buildTurfResult_field_resolution (Some "key") "key"
                (summary_rated (Some (Num 3.8))) (Some (detail_rated None))
                (Num 1.2) eq_refl)
      as (result & Hres & Hname & _ & _ & Hphone & _ & _ & _ & _ & _ & Hsummary).
    exists result. split; [exact Hres |]. split; [by apply Hsummary |].
    split; [exact Hname | exact Hphone].
Defined.

(** C6 as stated fails twice.  A detail name that is there but empty is
    not used: the result takes the name of the summary.  And without an
    API key a place with a photo gives no result at all: building the
    photo URL throws. *)
Lemma buildTurfResult_empty_detail_name :
  ~ resolves_when_there (Some "key") (summary_rated None) (Some detail_unnamed) (Num 1.2) /\
  ~ resolves_when_there None (summary_rated None) None (Num 1.2).
Proof.
  split.
  - intros (result & Hres & Hname & _).
    vm_compute in Hres. injection Hres as <-. vm_compute in Hname. discriminate Hname.
  - intros (result & Hres & _). vm_compute in Hres. discriminate Hres.
Qed.

Example buildTurfResult_empty_detail_name_result :
  exists result,
    buildTurfResult (Some "key") (summary_rated None) (Some detail_unnamed) (Num 1.2)
      = Ok result /\
    r_name result = "Summary name".
Proof. eexists. split; [vm_compute; reflexivity | reflexivity]. Qed.


(** ** The cache key *)

Lemma string_compare_le_trans (s1 : string) : forall s2 s3,
  String.compare s1 s2 <> Gt -> String.compare s2 s3 <> Gt ->
  String.compare s1 s3 <> Gt.
Proof.
  induction s1 as [|a s1 IH]; intros [|b s2] [|c s3]; simpl; try congruence.
  unfold Ascii.compare.
  destruct (N.compare_spec (Ascii.N_of_ascii a) (Ascii.N_of_ascii b)) as [Hab|Hab|Hab],
           (N.compare_spec (Ascii.N_of_ascii b) (Ascii.N_of_ascii c)) as [Hbc|Hbc|Hbc],
           (N.compare_spec (Ascii.N_of_ascii a) (Ascii.N_of_ascii c)) as [Hac|Hac|Hac];
    try congruence; try lia.
  apply IH.
Qed.

Lemma string_leb_trans (s1 s2 s3 : string) :
  String.leb s1 s2 = true -> String.leb s2 s3 = true -> String.leb s1 s3 = true.
Proof.
  unfold String.leb. intros H12 H23.
  pose proof (string_compare_le_trans s1 s2 s3) as Htrans.
  destruct (String.compare s1 s2), (String.compare s2 s3), (String.compare s1 s3);
    try done; exfalso; by apply Htrans.
Qed.

Lemma sort_insert_In (x y : string) (l : list string) :
  In y (sort_insert x l) <-> y = x \/ In y l.
Proof.
  induction l as [|z l IH]; simpl; [intuition |].
  destruct (String.leb x z); simpl; [intuition | rewrite IH; intuition].
Qed.

Lemma sort_insert_ascending (x : string) (l : list string) :
  ascending l -> ascending (sort_insert x l).
Proof.
  induction 1 as [|z l Hz Hl IH]; simpl.
  - constructor; [intros y [] | constructor].
  - destruct (String.leb x z) eqn:E.
    + constructor; [| by constructor].
      intros y [<- | Hy]; [done |]. eapply string_leb_trans; [exact E | by apply Hz].
    + constructor; [| done]. intros y [-> | Hy]%sort_insert_In; [| by apply Hz].
      destruct (String.leb_total x z) as [H | H]; congruence.
Qed.

Lemma Array_sort_ascending (l : list string) : ascending (Array_sort l).
Proof.
  induction l as [|x l IH]; simpl; [constructor | by apply sort_insert_ascending].
Qed.

Lemma sort_insert_Permutation (x : string) (l : list string) :
  Permutation (x :: l) (sort_insert x l).
Proof.
  induction l as [|z l IH]; simpl; [done |].
  destruct (String.leb x z); [done |].
  rewrite <- IH. apply perm_swap.
Qed.

Lemma Array_sort_Permutation (l : list string) : Permutation l (Array_sort l).
Proof.
  induction l as [|x l IH]; simpl; [done |].
  rewrite <- sort_insert_Permutation. by constructor.
Qed.

(** Two ascending arrangements of the same strings coincide. *)
Lemma ascending_unique (l1 : list string) : forall l2,
  ascending l1 -> ascending l2 -> Permutation l1 l2 -> l1 = l2.
Proof.
  induction l1 as [|x l1 IH]; intros l2 H1 H2 Hperm.
  - by apply Permutation_nil in Hperm.
  - destruct l2 as [|y l2]; [by apply Permutation_sym, Permutation_nil in Hperm |].
    inversion H1 as [|? ? Hx H1']; inversion H2 as [|? ? Hy H2']; subst.
    assert (x = y) as ->.
    { assert (In x (y :: l2)) as [-> | Hxin]
        by (eapply Permutation_in; [exact Hperm | by left]); [done |].
      assert (In y (x :: l1)) as [-> | Hyin]
        by (eapply Permutation_in; [apply Permutation_sym; exact Hperm | by left]);
        [done |].
      apply String.leb_antisym; [by apply Hx | by apply Hy]. }
    f_equal. apply IH; [done | done |]. by apply Permutation_cons_inv in Hperm.
Qed.

Lemma Array_sort_Permutation_eq (l1 l2 : list string) :
  Permutation l1 l2 -> Array_sort l1 = Array_sort l2.
Proof.
  intros Hperm. apply ascending_unique; try apply Array_sort_ascending.
  rewrite <- !Array_sort_Permutation. exact Hperm.
Qed.

Lemma get_property_In (params : Params) (key : string) (v : JsValue) :
  NoDup (Object_keys params) -> In (key, v) params -> get_property params key = v.
Proof.
  induction params as [|[k v'] params IH]; simpl; [done |].
  intros Hnodup [[= -> ->] | Hin].
  - by rewrite String.eqb_refl.
  - apply NoDup_cons in Hnodup as [Hk Hnodup].
    destruct (String.eqb_spec k key) as [->|_]; [| by apply IH].
    exfalso. apply Hk. apply list_elem_of_In. apply (in_map fst) in Hin. exact Hin.
Qed.

Lemma get_property_Permutation (params1 params2 : Params) (key : string) :
  NoDup (Object_keys params1) -> Permutation params1 params2 ->
  In key (Object_keys params1) ->
  get_property params1 key = get_property params2 key.
Proof.
  intros Hnodup Hperm Hkey.
  apply in_map_iff in Hkey as ([k v] & <- & Hin). simpl.
  rewrite (get_property_In params1 k v Hnodup Hin). symmetry.
  apply get_property_In.
  - assert (Permutation (Object_keys params1) (Object_keys params2)) as Hkeys
      by (by apply Permutation_map).
    by rewrite <- Hkeys.
  - eapply Permutation_in; [exact Hperm | exact Hin].
Qed.

(** C8.  Two parameter records with the same key-value pairs, listed in
    different orders, get the same cache key: the key is built from the
    sorted key names, so the order of the parameters does not show.  In
    particular [generateKey({a:1,b:2})] is [generateKey({b:2,a:1})]. *)
Theorem generateKey_order_independent (JSON_stringify : JsValue -> string)
    (params1 params2 : Params) :
  NoDup (Object_keys params1) ->
  Permutation params1 params2 ->
  generateKey JSON_stringify params1 = generateKey JSON_stringify params2.
Proof.
  intros Hnodup Hperm. unfold generateKey. f_equal.
  rewrite <- (Array_sort_Permutation_eq (Object_keys params1) (Object_keys params2))
    by (by apply Permutation_map).
  apply map_ext_in. intros key Hkey.
  rewrite (get_property_Permutation params1 params2 key); [reflexivity | done | done |].
  eapply Permutation_in; [apply Permutation_sym, Array_sort_Permutation | exact Hkey].
Qed.

Lemma generateKey_order_independent_witness :
  generateKey sample_stringify [("a", JNumber (Num 1)); ("b", JNumber (Num 2))] =
  generateKey sample_stringify [("b", JNumber (Num 2)); ("a", JNumber (Num 1))] /\
  generateKey sample_stringify [("b", JNumber (Num 2)); ("a", JNumber (Num 1))]
    = "a=1&b=2".
Proof.
  split; [| reflexivity].
  apply generateKey_order_independent.
  - unfold Object_keys. simpl. apply NoDup_cons. split.
    + intros Hin. apply list_elem_of_In in Hin. destruct Hin as [Hin | []].
      discriminate.
    + apply NoDup_singleton.
  - apply perm_swap.
Defined.

(** ** The distance step of main *)

Lemma sortBy_insert_In {A} (key : A -> number) (x y : A) (l : list A) :
  In y (sortBy_insert key x l) <-> y = x \/ In y l.
Proof.
  induction l as [|z l IH]; [simpl; intuition |].
  cbn [sortBy_insert].
  destruct (JsNumber.gtb (comparator key x z) (JsNumber.of_Z 0)); cbn [In];
    [rewrite IH; intuition | intuition].
Qed.

Lemma Array_sortBy_In {A} (key : A -> number) (y : A) (l : list A) :
  In y (Array_sortBy key l) <-> In y l.
Proof.
  induction l as [|x l IH]; simpl; [done |].
  rewrite sortBy_insert_In, IH. intuition.
Qed.

Lemma number_falsy_zero_or_absent (c : option number) :
  zero_or_absent c -> number_falsy c = true.
Proof.
  destruct c as [[| | |q]|]; simpl; try done.
  intros Hq. apply Qeq_bool_iff in Hq. by rewrite Hq.
Qed.

(** The radius that got through [parseCliArgs] is not [Infinity]. *)
Lemma parseCliArgs_radius (options : CliOptions) (args : CliArgs) :
  parseCliArgs options = Ok args ->
  JsNumber.leb PosInfinity (arg_radiusKm args) = false.
Proof.
  unfold parseCliArgs.
  repeat match goal with |- context [if ?b then Throw _ else _] =>
    destruct b eqn:?; [discriminate |] end.
  intros [= <-]. simpl.
  destruct (opt_radiusKm options) as [| | |q]; try done.
Qed.

Section DistanceStepFacts.

Variable haversineDistance : LatLng -> LatLng -> number.
Variables (query_lat query_lng : number).

Lemma with_distance_place (place : NearbySearchPlace) :
  fst (with_distance haversineDistance query_lat query_lng place) = place.
Proof.
  unfold with_distance.
  destruct (opt_field (location place) latitude), (opt_field (location place) longitude);
    try done.
  by destruct (_ || _).
Qed.

Lemma with_distance_Infinity (place : NearbySearchPlace) :
  location_zero_or_missing place ->
  with_distance haversineDistance query_lat query_lng place = (place, PosInfinity).
Proof.
  unfold location_zero_or_missing, with_distance.
  destruct (location place) as [loc|]; simpl; [| done].
  intros Hzero.
  destruct (latitude loc) as [la|] eqn:Ela, (longitude loc) as [lo|] eqn:Elo; try done.
  destruct Hzero as [H | H]; apply number_falsy_zero_or_absent in H; rewrite H; try done.
  by rewrite orb_true_r.
Qed.

End DistanceStepFacts.

(** C10.  In [main], a place that reports no location, or whose latitude
    or longitude is absent or equal to 0, fails the falsy check of the
    distance step: it is given the distance [Infinity], and with a radius
    that [parseCliArgs] accepted it is never part of the radius-filtered
    list, although 0 is a valid coordinate. *)
Theorem main_drops_zero_coordinates (haversineDistance : LatLng -> LatLng -> number)
    (options : CliOptions) (args : CliArgs) (query_lat query_lng : number)
    (places : list NearbySearchPlace) (place : NearbySearchPlace) :
  parseCliArgs options = Ok args ->
  location_zero_or_missing place ->
  with_distance haversineDistance query_lat query_lng place = (place, PosInfinity) /\
  forall distanceKm,
    ~ In (place, distanceKm)
         (placesWithDistance haversineDistance query_lat query_lng (arg_radiusKm args)
            places).
Proof.
  intros Hargs Hzero. split; [by apply with_distance_Infinity |].
  intros distanceKm Hin. unfold placesWithDistance in Hin.
  apply Array_sortBy_In, filter_In in Hin as [Hin Hradius].
  apply in_map_iff in Hin as (place' & Heq & _).
  pose proof (with_distance_place haversineDistance query_lat query_lng place') as Hfst.
  rewrite Heq in Hfst. simpl in Hfst. subst place'.
  rewrite (with_distance_Infinity _ _ _ _ Hzero) in Heq. injection Heq as <-.
  cbn [snd] in Hradius. by rewrite (parseCliArgs_radius _ _ Hargs) in Hradius.
Qed.

Lemma main_drops_zero_coordinates_witness :
  exists args,
    parseCliArgs (cli_options (Num 50)) = Ok args /\
    with_distance (fun _ _ => Num 0.3) (Num 0.001) (Num 77.6) on_equator
      = (on_equator, PosInfinity) /\
    ~ In (on_meridian, PosInfinity)
         (placesWithDistance (fun _ _ => Num 0.3) (Num 0.001) (Num 77.6)
            (arg_radiusKm args) [on_equator; on_meridian; arena_a]).
Proof.
  eexists. split; [reflexivity |]. split.
  - apply (main_drops_zero_coordinates (fun _ _ => Num 0.3) (cli_options (Num 50)) _
             (Num 0.001) (Num 77.6) [] on_equator eq_refl).
    simpl. left. reflexivity.
  - apply (main_drops_zero_coordinates (fun _ _ => Num 0.3) (cli_options (Num 50)) _
             (Num 0.001) (Num 77.6) [on_equator; on_meridian; arena_a] on_meridian eq_refl).
    simpl. right. reflexivity.
Defined.

(** [sortByDistance] tests the location object itself: an item without
    location gets [Infinity], an item at latitude or longitude 0 gets its
    rounded distance. *)
Lemma sortByDistance_entry {T} (haversineDistance : LatLng -> LatLng -> number)
    (items : list T) (referencePoint : LatLng) (getLocation : T -> option LatLng)
    (item : T) (distanceKm : number) :
  In (item, distanceKm) (sortByDistance haversineDistance items referencePoint getLocation) ->
  match getLocation item with
  | None => distanceKm = PosInfinity
  | Some location => distanceKm = roundDistance (haversineDistance referencePoint location)
  end.
Proof.
  unfold sortByDistance. intros Hin.
  apply Array_sortBy_In, in_map_iff in Hin as (item' & Heq & _).
  destruct (getLocation item') eqn:E; injection Heq as -> <-; by rewrite E.
Qed.

(** The same step keeps a place with both coordinates away from zero. *)
Example main_keeps_other_places :
  List.map (fun p => id (fst p))
    (placesWithDistance (fun _ _ => Num 0.3) (Num 0.001) (Num 77.6) (Num 50)
       [on_equator; on_meridian; arena_a]) = ["a"].
Proof. reflexivity. Qed.

(** ** Binary64 arithmetic

    Facts of the IEEE 754 operations, from their specification in
    [SpecFloat]. *)

Section FloatFacts.

Local Open Scope float_scope.

(** Rounding does not look at the sign. *)
Lemma binary_round_aux_opp (s : bool) (m e : Z) (l : SpecFloat.location) :
  binary_round_aux prec emax (negb s) m e l = SFopp (binary_round_aux prec emax s m e l).
Proof.
  unfold binary_round_aux.
  destruct (shr_fexp prec emax m e l) as [mrs' e'].
  destruct (shr_fexp prec emax _ e' loc_Exact) as [mrs'' e''].
  destruct (shr_m mrs'') as [|p|p]; [reflexivity | | reflexivity].
  destruct (Z.leb e'' (emax - prec)); reflexivity.
Qed.

Lemma binary_normalize_opp (m e : Z) :
  m <> 0%Z ->
  binary_normalize prec emax (- m) e false = SFopp (binary_normalize prec emax m e false).
Proof.
  destruct m as [|p|p]; [congruence | |]; intros _; simpl; unfold binary_round;
    destruct (shl_align p e _) as [mz ez].
  - apply (binary_round_aux_opp false (Z.pos mz) ez loc_Exact).
  - apply (binary_round_aux_opp true (Z.pos mz) ez loc_Exact).
Qed.

Lemma SFopp_involutive (x : spec_float) : SFopp (SFopp x) = x.
Proof. destruct x as [[]| [] | | [] m e]; reflexivity. Qed.

Lemma float_opp_involutive (x : float) : - - x = x.
Proof. apply Prim2SF_inj. rewrite !opp_spec. apply SFopp_involutive. Qed.

Lemma float_mul_opp_l (x y : float) : (- x) * y = - (x * y).
Proof.
  apply Prim2SF_inj. rewrite opp_spec, !mul_spec, opp_spec.
  destruct (Prim2SF x) as [sx|sx| |sx mx ex], (Prim2SF y) as [sy|sy| |sy my ey];
    unfold SF64mul; simpl; try reflexivity;
    try (destruct sx, sy; reflexivity).
  rewrite <- binary_round_aux_opp. destruct sx, sy; reflexivity.
Qed.

Lemma float_mul_comm (x y : float) : x * y = y * x.
Proof.
  apply Prim2SF_inj. rewrite !mul_spec.
  destruct (Prim2SF x) as [sx|sx| |sx mx ex], (Prim2SF y) as [sy|sy| |sy my ey];
    unfold SF64mul; simpl; try reflexivity;
    try (destruct sx, sy; reflexivity).
  rewrite Pos.mul_comm, Z.add_comm. destruct sx, sy; reflexivity.
Qed.

Lemma float_mul_opp_r (x y : float) : x * (- y) = - (x * y).
Proof.
  rewrite (float_mul_comm x (- y)), float_mul_opp_l. f_equal. apply float_mul_comm.
Qed.

Lemma float_mul_opp_opp (x y : float) : (- x) * (- y) = x * y.
Proof. rewrite float_mul_opp_l, float_mul_opp_r. apply float_opp_involutive. Qed.

Lemma float_div_opp_l (x y : float) : (- x) / y = - (x / y).
Proof.
  apply Prim2SF_inj. rewrite opp_spec, !div_spec, opp_spec.
  destruct (Prim2SF x) as [sx|sx| |sx mx ex], (Prim2SF y) as [sy|sy| |sy my ey];
    unfold SF64div; simpl; try reflexivity;
    try (destruct sx, sy; reflexivity).
  destruct (SFdiv_core_binary prec emax (Z.pos mx) ex (Z.pos my) ey) as [[mz ez] lz].
  rewrite <- binary_round_aux_opp. destruct sx, sy; reflexivity.
Qed.

(** [y - x] is the opposite of [x - y]; both are the same number when the
    difference is zero or not a number. *)
Lemma float_sub_swap (x y : float) : y - x = - (x - y) \/ y - x = x - y.
Proof.
  assert (SF64sub (Prim2SF y) (Prim2SF x) = SFopp (SF64sub (Prim2SF x) (Prim2SF y)) \/
          SF64sub (Prim2SF y) (Prim2SF x) = SF64sub (Prim2SF x) (Prim2SF y)) as H.
  { destruct (Prim2SF x) as [sx|sx| |sx mx ex], (Prim2SF y) as [sy|sy| |sy my ey];
      unfold SF64sub; simpl;
      try (destruct sx; simpl; auto; fail);
      try (destruct sy; simpl; auto; fail);
      try (destruct sx, sy; simpl; auto; fail); auto.
    rewrite (Z.min_comm ey ex).
    change (IntDef.Z.min ex ey) with (Z.min ex ey).
    set (cx := cond_Zopp sx _). set (cy := cond_Zopp sy _).
    destruct (Z.eq_dec (cx - cy)%Z 0%Z) as [Hz | Hnz].
    - right. replace (cy - cx)%Z with 0%Z by (clear -Hz; lia). by rewrite Hz.
    - left. replace (cy - cx)%Z with (- (cx - cy))%Z by (clear; lia).
      by apply binary_normalize_opp. }
  destruct H as [H | H]; [left | right]; apply Prim2SF_inj.
  - by rewrite opp_spec, !sub_spec.
  - by rewrite !sub_spec.
Qed.

(** [Math.sqrt] of a negative number is [NaN]. *)
Lemma float_sqrt_negative (x : float) : (x <? 0) = true -> sqrt x = nan.
Proof.
  rewrite FloatAxioms.ltb_spec. intros H. apply Prim2SF_inj. rewrite sqrt_spec.
  change (Prim2SF nan) with S754_nan. change (Prim2SF 0) with (S754_zero false) in H.
  destruct (Prim2SF x) as [sx|sx| |sx mx ex]; try reflexivity.
  - destruct sx; discriminate.
  - destruct sx; [reflexivity | discriminate].
  - destruct sx; [reflexivity | discriminate].
Qed.

Lemma is_finite_SF (x : float) :
  is_finite x = true ->
  (exists s, Prim2SF x = S754_zero s) \/ (exists s m e, Prim2SF x = S754_finite s m e).
Proof.
  unfold is_finite, is_nan, is_infinity. rewrite !FloatAxioms.eqb_spec, abs_spec.
  change (Prim2SF infinity) with (S754_infinity false).
  destruct (Prim2SF x) as [s|s| |s m e]; intros H; eauto;
    [destruct s |]; vm_compute in H; discriminate H.
Qed.

Lemma float_sub_diag (x : float) : is_finite x = true -> x - x = 0.
Proof.
  intros Hfin. apply Prim2SF_inj. rewrite sub_spec.
  change (Prim2SF 0) with (S754_zero false).
  destruct (is_finite_SF x Hfin) as [[s ->] | (s & m & e & ->)].
  - by destruct s.
  - unfold SF64sub, SFsub. rewrite Z.sub_diag. reflexivity.
Qed.

Lemma float_mul_finite_zero (x : float) : is_finite x = true -> x * 0 = 0 \/ x * 0 = -0.
Proof.
  intros Hfin.
  assert (Prim2SF (x * 0) = S754_zero false \/ Prim2SF (x * 0) = S754_zero true) as H.
  { rewrite mul_spec. change (Prim2SF 0) with (S754_zero false).
    destruct (is_finite_SF x Hfin) as [[s ->] | (s & m & e & ->)]; destruct s; simpl; auto. }
  destruct H as [H | H]; [left | right]; apply Prim2SF_inj; exact H.
Qed.

End FloatFacts.

(** ** The haversine distance *)

Section HaversineFacts.

Local Open Scope float_scope.

Variables Math_sin Math_cos : float -> float.
Variable Math_atan2 : float -> float -> float.

Lemma half_sin_sq_swap (x y : float) :
  (forall t, Math_sin (- t) = - Math_sin t) ->
  half_sin_sq Math_sin (y - x) = half_sin_sq Math_sin (x - y).
Proof.
  intros Hodd. destruct (float_sub_swap x y) as [-> | ->]; [| reflexivity].
  unfold half_sin_sq, Distance.toRadians.
  rewrite float_mul_opp_l, float_div_opp_l, Hodd. apply float_mul_opp_opp.
Qed.

Lemma tail_sin_sq_swap (p x y : float) :
  (forall t, Math_sin (- t) = - Math_sin t) ->
  p * Math_sin (Distance.toRadians (y - x) / 2) * Math_sin (Distance.toRadians (y - x) / 2) =
  p * Math_sin (Distance.toRadians (x - y) / 2) * Math_sin (Distance.toRadians (x - y) / 2).
Proof.
  intros Hodd. destruct (float_sub_swap x y) as [-> | ->]; [| reflexivity].
  unfold Distance.toRadians.
  rewrite float_mul_opp_l, float_div_opp_l, Hodd, !float_mul_opp_r, float_mul_opp_l.
  apply float_opp_involutive.
Qed.

(** With an odd [Math.sin] the two orders of the points compute the same
    binary64 number, rounding included. *)
Lemma haversineDistance_swap (a b : Distance.LatLng) :
  (forall t, Math_sin (- t) = - Math_sin t) ->
  Distance.haversineDistance Math_sin Math_cos Math_atan2 a b =
  Distance.haversineDistance Math_sin Math_cos Math_atan2 b a.
Proof.
  intros Hodd.
  assert (Distance.haversine_a Math_sin Math_cos a b =
          Distance.haversine_a Math_sin Math_cos b a) as Ha.
  { unfold Distance.haversine_a. cbv zeta.
    fold (half_sin_sq Math_sin (Distance.lat b - Distance.lat a)).
    fold (half_sin_sq Math_sin (Distance.lat a - Distance.lat b)).
    rewrite (half_sin_sq_swap (Distance.lat a) (Distance.lat b) Hodd).
    rewrite (tail_sin_sq_swap _ (Distance.lng a) (Distance.lng b) Hodd).
    by rewrite (float_mul_comm (Math_cos (Distance.toRadians (Distance.lat a)))). }
  unfold Distance.haversineDistance. cbv zeta. by rewrite Ha.
Qed.

(** So [distance(a, b) == distance(b, a)] holds exactly when the distance
    is a number. *)
Lemma haversineDistance_equals_swap (a b : Distance.LatLng) :
  (forall t, Math_sin (- t) = - Math_sin t) ->
  Distance.equals (Distance.haversineDistance Math_sin Math_cos Math_atan2 a b)
                  (Distance.haversineDistance Math_sin Math_cos Math_atan2 b a) =
  negb (is_nan (Distance.haversineDistance Math_sin Math_cos Math_atan2 a b)).
Proof.
  intros Hodd. rewrite <- (haversineDistance_swap a b Hodd).
  unfold Distance.equals, is_nan. by rewrite negb_involutive.
Qed.

(** The distance from a point with finite coordinates to itself is 0. *)
Lemma haversineDistance_same_point (a : Distance.LatLng) :
  is_finite (Distance.lat a) = true -> is_finite (Distance.lng a) = true ->
  Math_sin 0 = 0 -> Math_atan2 0 1 = 0 ->
  (forall t, is_finite (Math_cos t * Math_cos t) = true) ->
  Distance.haversineDistance Math_sin Math_cos Math_atan2 a a = 0.
Proof.
  intros Hlat Hlng Hsin Hatan Hcos.
  assert (Distance.haversine_a Math_sin Math_cos a a = 0) as Ha.
  { unfold Distance.haversine_a. cbv zeta.
    rewrite (float_sub_diag _ Hlat), (float_sub_diag _ Hlng).
    change (Distance.toRadians 0 / 2) with 0. rewrite Hsin.
    destruct (float_mul_finite_zero _ (Hcos (Distance.toRadians (Distance.lat a))))
      as [-> | ->]; reflexivity. }
  unfold Distance.haversineDistance. cbv zeta. rewrite Ha.
  change (sqrt 0) with 0. change (sqrt (1 - 0)) with 1. rewrite Hatan. reflexivity.
Qed.

(** When rounding takes [a] above 1, [1 - a] is negative, its square root
    is [NaN], and so is the distance. *)
Lemma haversineDistance_NaN (a b : Distance.LatLng) :
  (forall y, Math_atan2 y nan = nan) ->
  (1 - Distance.haversine_a Math_sin Math_cos a b <? 0) = true ->
  Distance.haversineDistance Math_sin Math_cos Math_atan2 a b = nan.
Proof.
  intros Hnan Hneg. unfold Distance.haversineDistance. cbv zeta.
  rewrite (float_sqrt_negative _ Hneg), Hnan. reflexivity.
Qed.

(** C9.  At (8, 1) and (-8, -179), two valid coordinates on opposite
    sides of the globe, [a] is rounded to 1.0000000000000002, and
    [haversineDistance] returns [NaN] in either order, so that
    [distance(a, b) == distance(b, a)] is false.  The values of [Math.sin]
    and [Math.cos] this takes are the correctly rounded ones at 8 and 90
    degrees; [Math.atan2] returns [NaN] on a [NaN] argument, as ECMAScript
    requires. *)
Theorem haversineDistance_antipodal_NaN :
  nearest_at_samples Math_sin Math_cos ->
  (forall y, Math_atan2 y nan = nan) ->
  let distance := Distance.haversineDistance Math_sin Math_cos Math_atan2 in
  Distance.haversine_a Math_sin Math_cos near_side far_side = 0x1.0000000000001p+0 /\
  distance near_side far_side = nan /\
  distance far_side near_side = nan /\
  Distance.equals (distance near_side far_side) (distance far_side near_side) = false.
Proof.
  intros (Hs8 & Hs8' & Hs90 & Hs90' & Hc8 & Hc8') Hnan distance. subst distance.
  unfold rad_8, rad_90, sin_rad_8, cos_rad_8 in *. cbn in Hs8', Hs90', Hc8'.
  assert (Distance.haversine_a Math_sin Math_cos near_side far_side = 0x1.0000000000001p+0)
    as Ha.
  { unfold Distance.haversine_a. cbn. rewrite Hs8', Hs90', Hc8, Hc8'. reflexivity. }
  assert (Distance.haversine_a Math_sin Math_cos far_side near_side = 0x1.0000000000001p+0)
    as Ha'.
  { unfold Distance.haversine_a. cbn. rewrite Hs8, Hs90, Hc8, Hc8'. reflexivity. }
  assert (Distance.haversineDistance Math_sin Math_cos Math_atan2 near_side far_side = nan)
    as Hd.
  { apply haversineDistance_NaN; [exact Hnan |]. by rewrite Ha. }
  assert (Distance.haversineDistance Math_sin Math_cos Math_atan2 far_side near_side = nan)
    as Hd'.
  { apply haversineDistance_NaN; [exact Hnan |]. by rewrite Ha'. }
  split; [exact Ha |]. split; [exact Hd |]. split; [exact Hd' |].
  by rewrite Hd, Hd'.
Qed.

End HaversineFacts.

Lemma haversineDistance_antipodal_NaN_witness :
  Distance.haversineDistance sample_sin sample_cos sample_atan2 near_side far_side = nan /\
  Distance.equals
    (Distance.haversineDistance sample_sin sample_cos sample_atan2 near_side far_side)
    (Distance.haversineDistance sample_sin sample_cos sample_atan2 far_side near_side)
  = false.
Proof.
  destruct (haversineDistance_antipodal_NaN sample_sin sample_cos sample_atan2)
    as (_ & Hd & _ & Heq).
  - repeat split; reflexivity.
  - reflexivity.
  - by split.
Defined.

Example toRadians_samples :
  Distance.toRadians 8 = rad_8 /\
  (Distance.toRadians (-8 - 8) / 2)%float = (- rad_8)%float /\
  (Distance.toRadians (-179 - 1) / 2)%float = (- rad_90)%float.
Proof. repeat split; reflexivity. Qed.

(** ** The detail batch *)

Section BatchFacts.

Variable JSON_stringify : JsValue -> string.
Variable apiKey : option string.
Variable concurrencyLimit : nat.

#[local] Abbreviation step := (batch_step JSON_stringify apiKey concurrencyLimit).

Lemma accounted_init (placeIds : list string) (c : TtlCache PlaceDetailsResponse) :
  accounted placeIds (batch_init placeIds c).
Proof.
  intros i. simpl. rewrite lookup_empty. split; [by left |].
  intros [H | [[] | [? [=]]]]. exact H.
Qed.

Lemma accounted_step (placeIds : list string) (s s' : BatchState) :
  step s s' -> accounted placeIds s -> accounted placeIds s'.
Proof.
  intros Hstep Hacc i. specialize (Hacc i). destruct Hstep; simpl in *.
  - rewrite Hacc, List.map_app, in_app_iff. simpl. intuition.
  - rewrite Hacc, !List.map_app, !in_app_iff. simpl. intuition.
  - rewrite Hacc, !List.map_app, !in_app_iff. simpl.
    destruct (decide (placeId = i)) as [-> | Hne].
    + rewrite lookup_insert_eq. intuition eauto.
    + rewrite lookup_insert_ne by done. intuition.
Qed.

Lemma list_sum_weight_app (run1 run2 : list (string * TaskPhase)) :
  list_sum (List.map (fun t => phase_weight t.2) (run1 ++ run2)) =
  (list_sum (List.map (fun t => phase_weight t.2) run1) +
   list_sum (List.map (fun t => phase_weight t.2) run2))%nat.
Proof. by rewrite List.map_app, list_sum_app. Qed.

(** Each step does one unit of the remaining work. *)
Lemma batch_step_weight (s s' : BatchState) :
  step s s' -> (batch_weight s' < batch_weight s)%nat.
Proof.
  destruct 1 as [now placeId q run res c phase c' _ _ | | ]; unfold batch_weight; simpl.
  - rewrite list_sum_weight_app. simpl. destruct phase; simpl; lia.
  - rewrite !list_sum_weight_app. simpl. lia.
  - rewrite !list_sum_weight_app. simpl. lia.
Qed.

Lemma batch_nsteps_weight (n : nat) (s s' : BatchState) :
  nsteps step n s s' -> (batch_weight s' + n <= batch_weight s)%nat.
Proof.
  induction 1 as [|n s s1 s' Hstep _ IH]; [lia |].
  apply batch_step_weight in Hstep. lia.
Qed.

Lemma batch_nsteps_accounted (placeIds : list string) (n : nat) (s s' : BatchState) :
  nsteps step n s s' -> accounted placeIds s -> accounted placeIds s'.
Proof.
  induction 1 as [|n s s1 s' Hstep _ IH]; [done |].
  intros Hacc. by eapply IH, accounted_step.
Qed.

(** At most [concurrencyLimit] fetches are in flight. *)
Lemma batch_nsteps_in_flight (n : nat) (s s' : BatchState) :
  nsteps step n s s' ->
  (List.length (running s) <= concurrencyLimit)%nat ->
  (List.length (running s') <= concurrencyLimit)%nat.
Proof.
  induction 1 as [|n s s1 s' Hstep _ IH]; [done |].
  intros Hle. apply IH. destruct Hstep; simpl in *.
  - rewrite length_app. simpl. lia.
  - rewrite length_app in *. simpl in *. lia.
  - rewrite length_app in *. simpl in *. lia.
Qed.

(** A batch that is not done can always go on: nothing aborts it. *)
Lemma batch_progress (s : BatchState) :
  (1 <= concurrencyLimit)%nat -> batch_done s \/ exists s', step s s'.
Proof.
  intros Hlimit. destruct s as [q run res c]. destruct run as [|[placeId phase] run].
  - destruct q as [|placeId q]; [by left |]. right.
    destruct (getPlaceDetails_begin JSON_stringify apiKey 0 placeId c) as [phase c'] eqn:E.
    eexists. apply (step_start _ _ _ 0 placeId q [] res c phase c'); [simpl; lia | exact E].
  - right. destruct phase as [|r].
    + destruct (getPlaceDetails_resume JSON_stringify 0 placeId (FetchNotOk 500) c)
        as [r c'] eqn:E.
      eexists. exact (step_response _ _ _ 0 (FetchNotOk 500) placeId q [] run res c r c' E).
    + eexists. exact (step_return _ _ _ placeId q [] run res c r).
Qed.

(** From every state the batch can be run to its end. *)
Lemma batch_can_finish (s : BatchState) :
  (1 <= concurrencyLimit)%nat -> exists n s', nsteps step n s s' /\ batch_done s'.
Proof.
  intros Hlimit. remember (batch_weight s) as k eqn:Hk. revert s Hk.
  induction k as [k IH] using lt_wf_ind. intros s ->.
  destruct (batch_progress s Hlimit) as [Hdone | [s1 Hstep]].
  - exists 0%nat, s. split; [constructor | done].
  - destruct (IH (batch_weight s1) (batch_step_weight _ _ Hstep) s1 eq_refl)
      as (n & s' & Hrun & Hdone).
    exists (S n), s'. split; [by econstructor | done].
Qed.

End BatchFacts.

(** C7.  Run under any positive concurrency limit, with the responses
    arriving in any order and failing or not, the batch never gets stuck
    and ends within three steps per id; it can be run to its end; and when
    it has ended, that is, when every task has returned, the map holds an
    entry for exactly the requested ids.  A fetch that fails, by a
    non-success status or by a transport error, returns null for its id,
    leaves the cache alone and raises nothing. *)
Theorem getPlaceDetailsBatch_resolves_every_id (JSON_stringify : JsValue -> string)
    (apiKey : option string) (concurrencyLimit : nat) (placeIds : list string)
    (c : TtlCache PlaceDetailsResponse) :
  (1 <= concurrencyLimit)%nat ->
  (forall n s,
     nsteps (batch_step JSON_stringify apiKey concurrencyLimit) n
            (batch_init placeIds c) s ->
     (n <= 3 * List.length placeIds)%nat /\
     (batch_done s \/ exists s', batch_step JSON_stringify apiKey concurrencyLimit s s') /\
     (batch_done s -> forall i, In i placeIds <-> is_Some (results s !! i))) /\
  (exists n s,
     nsteps (batch_step JSON_stringify apiKey concurrencyLimit) n
            (batch_init placeIds c) s /\ batch_done s) /\
  (forall now placeId o cache,
     fetch_failed o = true ->
     getPlaceDetails_resume JSON_stringify now placeId o cache = (None, cache)).
Proof.
  intros Hlimit. split; [| split].
  - intros n s Hrun. split; [| split].
    + apply batch_nsteps_weight in Hrun. unfold batch_weight in Hrun at 2.
      simpl in Hrun. lia.
    + by apply batch_progress.
    + intros [Hq Hr] i.
      pose proof (batch_nsteps_accounted _ _ _ placeIds _ _ _ Hrun
                    (accounted_init placeIds c) i) as Hacc.
      rewrite Hq, Hr in Hacc. simpl in Hacc. rewrite Hacc. intuition.
  - by apply batch_can_finish.
  - intros now placeId [body | status | message] cache Hfail; [discriminate | done | done].
Qed.

(** A run of two ids under limit 1: the fetch of "p1" fails with status
    404, the fetch of "p2" succeeds. *)
Lemma sample_batch_run :
  exists s,
    nsteps (batch_step sample_stringify (Some "key") 1) 6
           (batch_init ["p1"; "p2"] empty_cache) s /\
    batch_done s /\
    results s !! "p1" = Some None.
Proof.
  eexists. split; [| split].
  - eapply nsteps_l.
    { eapply (step_start _ _ _ 0 "p1" ["p2"] [] ∅ empty_cache); [simpl; lia | reflexivity]. }
    eapply nsteps_l.
    { eapply (step_response _ _ _ 5 (FetchNotOk 404) "p1" ["p2"] [] [] ∅). reflexivity. }
    eapply nsteps_l.
    { eapply (step_return _ _ _ "p1" ["p2"] [] [] ∅). }
    eapply nsteps_l.
    { eapply (step_start _ _ _ 6 "p2" [] [] _ _); [simpl; lia | reflexivity]. }
    eapply nsteps_l.
    { eapply (step_response _ _ _ 9 (FetchOk (detail_rated None)) "p2" [] [] []).
      reflexivity. }
    eapply nsteps_l.
    { eapply (step_return _ _ _ "p2" [] [] []). }
    apply nsteps_O.
  - split; reflexivity.
  - reflexivity.
Qed.

Lemma getPlaceDetailsBatch_resolves_every_id_witness :
  exists s,
    nsteps (batch_step sample_stringify (Some "key") 1) 6
           (batch_init ["p1"; "p2"] empty_cache) s /\
    batch_done s /\
    results s !! "p1" = Some None /\
    is_Some (results s !! "p2").
Proof.
  destruct sample_batch_run as (s & Hrun & Hdone & Hp1).
  exists s. split; [exact Hrun |]. split; [exact Hdone |]. split; [exact Hp1 |].
  destruct (getPlaceDetailsBatch_resolves_every_id sample_stringify (Some "key")
              1 ["p1"; "p2"] empty_cache (le_n 1)) as (Hruns & _ & _).
  apply (Hruns 6%nat s Hrun); [exact Hdone |]. right. left. reflexivity.
Defined.

(** * Further properties of the sources *)

(** ** truncateText, any bound *)

Lemma string_length_substring_le (n m : nat) (s : string) :
  (String.length (String.substring n m s) <= m)%nat.
Proof.
  revert n m; induction s as [|c s IH]; intros [|n] [|m]; simpl; try lia.
  - specialize (IH 0%nat m). lia.
  - apply IH.
  - apply IH.
Qed.

(** X1.  For a bound of at least 3 the result of [truncateText] is never
    longer than the bound, and a truncated text keeps its first
    [maxLength - 3] code units in front of the three dots.  Below 3 the
    bound cannot be kept: a longer text becomes the three dots alone. *)
Theorem truncateText_bound (text : string) (maxLength : Z) :
  ((3 <= maxLength)%Z ->
     (JsString.length (truncateText text maxLength) <= maxLength)%Z /\
     ((maxLength < JsString.length text)%Z ->
        truncateText text maxLength =
        (String.substring 0 (Z.to_nat (maxLength - 3)) text ++ "...")%string)) /\
  ((maxLength < 3)%Z -> (maxLength < JsString.length text)%Z ->
     truncateText text maxLength = "..."%string).
Proof.
  unfold truncateText, JsString.substring, JsString.clamp, JsString.length.
  split.
  - intros Hmax.
    destruct (Z.leb_spec (Z.of_nat (String.length text)) maxLength) as [Hle | Hgt].
    + split; [exact Hle | lia].
    + replace (Z.to_nat (Z.min (Z.max 0 0) (Z.of_nat (String.length text)))) with 0%nat
        by lia.
      replace (Z.to_nat (Z.min (Z.max (maxLength - 3) 0) (Z.of_nat (String.length text))))
        with (Z.to_nat (maxLength - 3)) by lia.
      rewrite Nat.min_0_l, Nat.max_0_l, Nat.sub_0_r. split; [| reflexivity].
      rewrite string_length_app.
      pose proof (string_length_substring_le 0 (Z.to_nat (maxLength - 3)) text).
      simpl. lia.
  - intros Hmax Hgt.
    destruct (Z.leb_spec (Z.of_nat (String.length text)) maxLength) as [Hle | _]; [lia |].
    replace (Z.to_nat (Z.min (Z.max 0 0) (Z.of_nat (String.length text)))) with 0%nat
      by lia.
    replace (Z.to_nat (Z.min (Z.max (maxLength - 3) 0) (Z.of_nat (String.length text))))
      with 0%nat by lia.
    simpl. by destruct text.
Qed.

Lemma truncateText_bound_witness :
  (JsString.length (truncateText (review_of_length 50) 10) <= 10)%Z /\
  truncateText (review_of_length 50) 2 = "..."%string.
Proof.
  split.
  - apply (proj1 (truncateText_bound (review_of_length 50) 10)). lia.
  - apply (proj2 (truncateText_bound (review_of_length 50) 2)); [lia | vm_compute; reflexivity].
Defined.

(** ** The TTL cache *)

Section CacheFacts.

Context {T : Type}.

(** X2.  A value that was set is read back until its time to live has
    passed, the boundary included; reading it changes nothing in the
    cache, so a read does not extend the life of an entry. *)
Theorem TtlCache_get_after_set (now later : Z) (key : string) (d : T) (c : TtlCache T) :
  (later <= now + ttlMs c)%Z ->
  TtlCache_get later key (TtlCache_set now key d c) = (Some d, TtlCache_set now key d c).
Proof.
  intros Hfresh. unfold TtlCache_get, TtlCache_set. simpl.
  rewrite lookup_insert_eq. simpl.
  destruct (Z.ltb_spec (now + ttlMs c) later) as [Hlt | _]; [lia | reflexivity].
Qed.

(** X3.  Once the time to live has passed, a read returns null and
    removes the entry: the cache is then one entry smaller, and the key
    stays absent for every later read, at whatever time. *)
Theorem TtlCache_get_expired (now later : Z) (key : string) (d : T) (c : TtlCache T) :
  (now + ttlMs c < later)%Z ->
  let '(found, c') := TtlCache_get later key (TtlCache_set now key d c) in
  found = None /\
  cache c' !! key = None /\
  S (fst (TtlCache_stats c')) = fst (TtlCache_stats (TtlCache_set now key d c)) /\
  forall again, TtlCache_get again key c' = (None, c').
Proof.
  intros Hexp. unfold TtlCache_get at 1, TtlCache_set. simpl.
  rewrite lookup_insert_eq. simpl.
  destruct (Z.ltb_spec (now + ttlMs c) later) as [_ | Hle]; [| lia].
  split; [reflexivity |]. simpl. rewrite lookup_delete_eq. split; [reflexivity |]. split.
  - unfold TtlCache_stats. simpl.
    rewrite map_size_delete_Some by (rewrite lookup_insert_eq; eauto).
    assert (size (<[key:={| data := d; expiresAt := now + ttlMs c |}]> (cache c)) <> 0%nat)
      by (apply (map_size_ne_0_lookup_2 _ key); rewrite lookup_insert_eq; eauto).
    lia.
  - intros again. unfold TtlCache_get. simpl. by rewrite lookup_delete_eq.
Qed.

(** X4.  [set] overwrites the entry of its key and touches no other key:
    a read of another key gives the same value before and after. *)
Theorem TtlCache_set_other_key (now later : Z) (key other : string) (d : T)
    (c : TtlCache T) :
  key <> other ->
  fst (TtlCache_get later other (TtlCache_set now key d c)) =
  fst (TtlCache_get later other c).
Proof.
  intros Hne. unfold TtlCache_get, TtlCache_set. simpl.
  rewrite lookup_insert_ne by done.
  destruct (cache c !! other) as [entry|]; [| reflexivity].
  by destruct (expiresAt entry <? later)%Z.
Qed.

(** X5.  [prune] removes exactly the entries whose time has passed and
    returns their number: the count and the size left add up to the size
    before, an entry still alive is kept as it is, and nothing expired is
    left, so a second [prune] at the same time removes nothing. *)
Theorem TtlCache_prune_exact (now : Z) (c : TtlCache T) :
  let '(pruned, c') := TtlCache_prune now c in
  (pruned + size (cache c') = size (cache c))%nat /\
  (forall key entry,
     cache c' !! key = Some entry <->
     cache c !! key = Some entry /\ (now <= expiresAt entry)%Z) /\
  fst (TtlCache_prune now c') = 0%nat.
Proof.
  unfold TtlCache_prune. simpl.
  set (P := fun kv : string * CacheEntry T => (expiresAt kv.2 < now)%Z).
  split; [| split].
  - rewrite <- map_size_disj_union by apply map_disjoint_filter_complement.
    by rewrite map_filter_union_complement.
  - intros key entry. rewrite map_lookup_filter_Some.
    subst P. split; intros [Hentry Hlive]; (split; [exact Hentry |]); simpl in *;
      by apply Z.nlt_ge.
  - apply map_size_empty_iff. apply map_eq. intros key. rewrite lookup_empty.
    apply map_lookup_filter_None. right. intros entry Hentry.
    apply map_lookup_filter_Some in Hentry as [_ Hlive]. exact Hlive.
Qed.

End CacheFacts.

Lemma TtlCache_get_after_set_witness :
  fst (TtlCache_get 600000 "k" (TtlCache_set 0 "k" (detail_rated None) empty_cache))
  = Some (detail_rated None).
Proof.
  rewrite (TtlCache_get_after_set 0 600000 "k" (detail_rated None) empty_cache);
    [reflexivity | vm_compute; discriminate].
Defined.

Lemma TtlCache_get_expired_witness :
  fst (TtlCache_get 600001 "k" (TtlCache_set 0 "k" (detail_rated None) empty_cache))
  = None.
Proof.
  pose proof (TtlCache_get_expired 0 600001 "k" (detail_rated None) empty_cache) as H.
  destruct (TtlCache_get 600001 "k" (TtlCache_set 0 "k" (detail_rated None) empty_cache))
    as [found c'].
  apply H. vm_compute. reflexivity.
Defined.

Lemma TtlCache_set_other_key_witness :
  fst (TtlCache_get 7 "b"
         (TtlCache_set 5 "a" (detail_rated None)
            (TtlCache_set 0 "b" (detail_rated (Some (Num 4))) empty_cache)))
  = Some (detail_rated (Some (Num 4))).
Proof.
  rewrite (TtlCache_set_other_key 5 7 "a" "b"); [reflexivity | discriminate].
Defined.

Lemma TtlCache_prune_exact_witness :
  fst (TtlCache_prune 600001
         (TtlCache_set 5 "a" (detail_rated None)
            (TtlCache_set 0 "b" (detail_rated None) empty_cache))) = 1%nat.
Proof.
  pose proof (TtlCache_prune_exact 600001
                (TtlCache_set 5 "a" (detail_rated None)
                   (TtlCache_set 0 "b" (detail_rated None) empty_cache))) as H.
  destruct (TtlCache_prune 600001 _) as [pruned c'] eqn:E.
  destruct H as (Hsize & Hkeep & _). simpl.
  assert (size (cache c') = 1%nat) as Hone.
  { injection E as _ <-. reflexivity. }
  assert (size (cache (TtlCache_set 5 "a" (detail_rated None)
                         (TtlCache_set 0 "b" (detail_rated None) empty_cache))) = 2%nat)
    as Htwo by reflexivity.
  rewrite Hone, Htwo in Hsize. lia.
Defined.

(** ** Sorting by distance *)

Lemma number_leb_trans (a b c : number) :
  JsNumber.leb a b = true -> JsNumber.leb b c = true -> JsNumber.leb a c = true.
Proof.
  destruct a as [| | |x], b as [| | |y], c as [| | |z]; simpl; try done.
  rewrite !Qle_bool_iff. apply Qle_trans.
Qed.

Lemma number_leb_total (a b : number) :
  a <> NaN -> b <> NaN -> JsNumber.leb a b = true \/ JsNumber.leb b a = true.
Proof.
  destruct a as [| | |x], b as [| | |y]; simpl; intros Ha Hb; try done; try tauto.
  rewrite !Qle_bool_iff. destruct (Qlt_le_dec x y) as [H | H]; [left | right]; [| done].
  by apply Qlt_le_weak.
Qed.

(** The comparator [a - b] is positive only when [a <= b] is false; for
    numbers other than [NaN] the converse holds too. *)
Lemma comparator_positive (a b : number) :
  JsNumber.gtb (JsNumber.sub a b) (JsNumber.of_Z 0) = true -> JsNumber.leb a b = false.
Proof.
  destruct a as [| | |x], b as [| | |y]; simpl; try done.
  unfold JsNumber.gtb. simpl. intros H. apply negb_true_iff in H.
  destruct (Qle_bool x y) eqn:E; [| done].
  apply Qle_bool_iff in E.
  assert (Qle_bool (x - y) (inject_Z 0) = true) as E'
    by (apply Qle_bool_iff; change (inject_Z 0) with 0%Q; Lqa.lra).
  congruence.
Qed.

Lemma comparator_not_positive (a b : number) :
  a <> NaN -> b <> NaN ->
  JsNumber.gtb (JsNumber.sub a b) (JsNumber.of_Z 0) = false -> JsNumber.leb a b = true.
Proof.
  destruct a as [| | |x], b as [| | |y]; simpl; intros Ha Hb; try done.
  unfold JsNumber.gtb. simpl. intros H. apply negb_false_iff in H.
  apply Qle_bool_iff in H. apply Qle_bool_iff.
  change (inject_Z 0) with 0%Q in H. Lqa.lra.
Qed.

Section SortByFacts.

Context {A : Type}.
Variable key : A -> number.

Lemma sortBy_insert_Permutation (x : A) (l : list A) :
  Permutation (x :: l) (sortBy_insert key x l).
Proof.
  induction l as [|y l IH]; [done |]. cbn [sortBy_insert].
  destruct (JsNumber.gtb (comparator key x y) (JsNumber.of_Z 0)); [| done].
  rewrite <- IH. apply perm_swap.
Qed.

Lemma Array_sortBy_Permutation (l : list A) : Permutation l (Array_sortBy key l).
Proof.
  induction l as [|x l IH]; simpl; [done |].
  rewrite <- sortBy_insert_Permutation. by constructor.
Qed.

Lemma sortBy_insert_sorted (x : A) (l : list A) :
  key x <> NaN -> (forall y, In y l -> key y <> NaN) ->
  StronglySorted (fun a b => JsNumber.leb (key a) (key b) = true) l ->
  StronglySorted (fun a b => JsNumber.leb (key a) (key b) = true) (sortBy_insert key x l).
Proof.
  intros Hx Hl Hsorted. induction Hsorted as [|y l Hsorted IH Hy].
  - repeat constructor.
  - cbn [sortBy_insert]. unfold comparator.
    destruct (JsNumber.gtb _ _) eqn:E.
    + apply comparator_positive in E.
      destruct (number_leb_total (key x) (key y) Hx (Hl y (or_introl eq_refl)))
        as [H | Hyx]; [congruence |].
      constructor.
      * apply IH. intros z Hz. apply Hl. by right.
      * apply List.Forall_forall. intros z Hz.
        apply sortBy_insert_In in Hz as [-> | Hz]; [done |].
        by apply (proj1 (List.Forall_forall _ _) Hy).
    + apply comparator_not_positive in E; [| done | apply Hl; by left].
      constructor; [by constructor |]. constructor; [done |].
      apply List.Forall_forall. intros z Hz.
      eapply number_leb_trans; [exact E |].
      by apply (proj1 (List.Forall_forall _ _) Hy).
Qed.

Lemma Array_sortBy_StronglySorted (l : list A) :
  (forall x, In x l -> key x <> NaN) ->
  StronglySorted (fun a b => JsNumber.leb (key a) (key b) = true) (Array_sortBy key l).
Proof.
  intros Hkeys. induction l as [|x l IH]; simpl; [constructor |].
  apply sortBy_insert_sorted.
  - apply Hkeys. by left.
  - intros y Hy. apply Hkeys. right. by apply Array_sortBy_In in Hy.
  - apply IH. intros y Hy. apply Hkeys. by right.
Qed.

(** X7.  An array whose sort keys are all numbers comes out of
    [sort((a, b) => key(a) - key(b))] in ascending key order, with exactly
    the elements it had. *)
Theorem Array_sortBy_sorted (l : list A) :
  (forall x, In x l -> key x <> NaN) ->
  Permutation l (Array_sortBy key l) /\
  StronglySorted (fun a b => JsNumber.leb (key a) (key b) = true) (Array_sortBy key l).
Proof.
  intros Hkeys. split.
  - apply Array_sortBy_Permutation.
  - by apply Array_sortBy_StronglySorted.
Qed.

Lemma sortBy_insert_filter_tied (k : number) (x : A) (l : list A) :
  List.filter (fun z => tied k (key z)) (sortBy_insert key x l) =
  List.filter (fun z => tied k (key z)) (x :: l).
Proof.
  induction l as [|y l IH]; [done |]. cbn [sortBy_insert]. unfold comparator.
  destruct (JsNumber.gtb _ _) eqn:E; [| done].
  apply comparator_positive in E.
  cbn [List.filter] in *. rewrite IH.
  destruct (tied k (key x)) eqn:Ex; [| done].
  destruct (tied k (key y)) eqn:Ey; [| done].
  exfalso. unfold tied in Ex, Ey.
  apply andb_true_iff in Ex as [_ Hxk]. apply andb_true_iff in Ey as [Hky _].
  pose proof (number_leb_trans _ _ _ Hxk Hky). congruence.
Qed.

(** X8.  When no sort key is [NaN] the sort is stable: elements whose
    keys are tied with a given key keep the order they had in the input. *)
Theorem Array_sortBy_stable (k : number) (l : list A) :
  (forall x, In x l -> key x <> NaN) ->
  List.filter (fun z => tied k (key z)) (Array_sortBy key l) =
  List.filter (fun z => tied k (key z)) l.
Proof.
  intros _. induction l as [|x l IH]; simpl; [done |].
  rewrite sortBy_insert_filter_tied. simpl. by rewrite IH.
Qed.

End SortByFacts.

Lemma Array_sortBy_sorted_witness :
  Array_sortBy (fun n => n) [Num 3; PosInfinity; Num 1] = [Num 1; Num 3; PosInfinity] /\
  StronglySorted (fun a b => JsNumber.leb a b = true)
    (Array_sortBy (fun n => n) [Num 3; PosInfinity; Num 1]).
Proof.
  split; [reflexivity |].
  apply (Array_sortBy_sorted (fun n => n) [Num 3; PosInfinity; Num 1]).
  intros x [<- | [<- | [<- | []]]]; discriminate.
Defined.

Lemma Array_sortBy_stable_witness :
  List.filter (fun z => tied (Num 3) (fst z))
    (Array_sortBy fst [(Num 3, "a"); (Num 1, "b"); (Num 3, "c")]%string)
  = [(Num 3, "a"); (Num 3, "c")]%string.
Proof.
  rewrite (Array_sortBy_stable fst (Num 3) [(Num 3, "a"); (Num 1, "b"); (Num 3, "c")]%string).
  - reflexivity.
  - intros x [<- | [<- | [<- | []]]]; discriminate.
Defined.


(** ** The distance step, whatever the radius *)

Lemma roundDistance_not_NaN (d : number) : d <> NaN -> roundDistance d <> NaN.
Proof.
  by destruct d.
Qed.

(** X9.  The list the distance step hands on holds exactly the places of
    the search result whose computed distance is within the radius, each
    as often as the search returned it and with that distance, closest
    first. *)
Theorem placesWithDistance_within_radius_ascending
    (haversineDistance : LatLng -> LatLng -> number)
    (query_lat query_lng radiusKm : number) (places : list NearbySearchPlace) :
  let listed := placesWithDistance haversineDistance query_lat query_lng radiusKm places in
  Permutation listed
    (List.filter (fun pd => JsNumber.leb (snd pd) radiusKm)
       (List.map (with_distance haversineDistance query_lat query_lng) places)) /\
  List.Forall (fun pd => In (fst pd) places /\
                         JsNumber.leb (snd pd) radiusKm = true) listed /\
  StronglySorted (fun a b => JsNumber.leb (snd a) (snd b) = true) listed.
Proof.
  intros listed. subst listed. unfold placesWithDistance.
  set (mapped := List.map (with_distance haversineDistance query_lat query_lng) places).
  set (kept := List.filter (fun p => JsNumber.leb (snd p) radiusKm) mapped).
  assert (forall pd, In pd kept -> snd pd <> NaN) as Hnum.
  { intros pd [_ Hle]%filter_In Hnan. rewrite Hnan in Hle. discriminate. }
  pose proof (Array_sortBy_Permutation snd kept) as Hperm.
  pose proof (Array_sortBy_StronglySorted snd kept Hnum) as Hsorted.
  split; [by apply Permutation_sym | split; [| exact Hsorted]].
  apply List.Forall_forall. intros pd Hin.
  apply Array_sortBy_In, filter_In in Hin as [Hin Hle].
  apply in_map_iff in Hin as (place & <- & Hplace).
  rewrite with_distance_place. by split.
Qed.

(** X10.  In the HTTP handlers, which hand the [radiusKm] of the request
    to the same distance step unchecked, a place without usable
    coordinates is listed exactly when the radius is [Infinity]. *)
Theorem placesWithDistance_missing_listed_iff
    (haversineDistance : LatLng -> LatLng -> number)
    (query_lat query_lng radiusKm : number) (places : list NearbySearchPlace)
    (place : NearbySearchPlace) :
  In place places ->
  location_zero_or_missing place ->
  (exists distanceKm,
     In (place, distanceKm)
        (placesWithDistance haversineDistance query_lat query_lng radiusKm places)) <->
  radiusKm = PosInfinity.
Proof.
  intros Hplace Hzero. unfold placesWithDistance. split.
  - intros [d Hin]. apply Array_sortBy_In, filter_In in Hin as [Hin Hle].
    apply in_map_iff in Hin as (place' & Heq & _).
    pose proof (with_distance_place haversineDistance query_lat query_lng place') as Hfst.
    rewrite Heq in Hfst. simpl in Hfst. subst place'.
    rewrite (with_distance_Infinity _ _ _ _ Hzero) in Heq. injection Heq as <-.
    cbn [snd] in Hle. by destruct radiusKm.
  - intros ->. exists PosInfinity. apply Array_sortBy_In, filter_In. split; [| done].
    apply in_map_iff. exists place. split; [| done]. by apply with_distance_Infinity.
Qed.

Lemma placesWithDistance_missing_listed_iff_witness :
  (exists distanceKm,
     In (on_equator, distanceKm)
        (placesWithDistance (fun _ _ => Num 0.3) (Num 12.9) (Num 77.6) PosInfinity
           [arena_a; on_equator])) /\
  ~ (exists distanceKm,
       In (on_equator, distanceKm)
          (placesWithDistance (fun _ _ => Num 0.3) (Num 12.9) (Num 77.6) (Num 5)
             [arena_a; on_equator])).
Proof.
  split.
  - apply (placesWithDistance_missing_listed_iff (fun _ _ => Num 0.3) (Num 12.9) (Num 77.6)
             PosInfinity [arena_a; on_equator] on_equator);
      [right; left; reflexivity | left; reflexivity | reflexivity].
  - intros H.
    apply (placesWithDistance_missing_listed_iff (fun _ _ => Num 0.3) (Num 12.9) (Num 77.6)
             (Num 5) [arena_a; on_equator] on_equator) in H;
      [discriminate | right; left; reflexivity | left; reflexivity].
Defined.

(** X11.  [sortByDistance] pairs every item with a distance and loses
    none, and [filterWithinRadius] with any radius but [Infinity] keeps
    located items only; both hold whatever the distance function returns.
    When none of the distances computed for the items is [NaN], the result
    is in ascending distance, items without location last. *)
Theorem sortByDistance_sorted {T} (haversineDistance : LatLng -> LatLng -> number)
    (items : list T) (referencePoint : LatLng) (getLocation : T -> option LatLng) :
  let sorted := sortByDistance haversineDistance items referencePoint getLocation in
  Permutation items (List.map fst sorted) /\
  (forall radiusKm item distanceKm,
     radiusKm <> PosInfinity ->
     In (item, distanceKm) (filterWithinRadius sorted radiusKm) ->
     getLocation item <> None) /\
  ((forall item location,
      In item items -> getLocation item = Some location ->
      haversineDistance referencePoint location <> NaN) ->
   StronglySorted (fun a b => JsNumber.leb (snd a) (snd b) = true) sorted).
Proof.
  intros sorted. subst sorted. unfold sortByDistance.
  set (mapped := List.map _ items).
  assert (List.map fst mapped = items) as Hfst.
  { unfold mapped. rewrite List.map_map. rewrite <- (List.map_id items) at 2.
    apply List.map_ext. intros item. by destruct (getLocation item). }
  pose proof (Array_sortBy_Permutation snd mapped) as Hperm.
  split; [| split].
  - rewrite <- Hfst at 1. by apply Permutation_map.
  - intros radiusKm item distanceKm Hradius Hin Hnone.
    unfold filterWithinRadius in Hin. apply filter_In in Hin as [Hin Hle].
    apply (sortByDistance_entry haversineDistance items referencePoint getLocation) in Hin.
    rewrite Hnone in Hin. subst distanceKm. cbn [snd] in Hle. by destruct radiusKm.
  - intros Hnum. apply Array_sortBy_StronglySorted.
    intros pd (item & <- & Hitem)%in_map_iff.
    destruct (getLocation item) as [location|] eqn:Hloc; simpl; [| done].
    apply roundDistance_not_NaN. by apply (Hnum item location).
Qed.

Lemma sortByDistance_sorted_witness :
  StronglySorted (fun a b => JsNumber.leb (snd a) (snd b) = true)
    (sortByDistance toy_distance ["far"; "nowhere"; "near"]%string
       {| lat := Num 0; lng := Num 0 |} toy_location).
Proof.
  apply (sortByDistance_sorted toy_distance ["far"; "nowhere"; "near"]%string
           {| lat := Num 0; lng := Num 0 |} toy_location).
  intros item location [<- | [<- | [<- | []]]] Hloc; vm_compute in Hloc;
    try discriminate Hloc; injection Hloc as <-; vm_compute; discriminate.
Defined.

Example sortByDistance_then_filter :
  List.map fst
    (filterWithinRadius
       (sortByDistance (fun _ b => lat b) ["far"; "nowhere"; "near"]%string
          {| lat := Num 0; lng := Num 0 |}
          (fun item => if String.eqb item "nowhere" then None
                       else if String.eqb item "near"
                            then Some {| lat := Num 1; lng := Num 0 |}
                            else Some {| lat := Num 7; lng := Num 0 |}))
       (Num 10)) = ["near"; "far"]%string.
Proof. reflexivity. Qed.

(** ** searchTurfs: what a run returns and which calls it makes *)

Lemma List_filter_sublist {A} (f : A -> bool) (l : list A) : sublist (List.filter f l) l.
Proof.
  induction l as [|x l IH]; simpl; [constructor |].
  destruct (f x); by constructor.
Qed.

Lemma slice0_sublist {A} (l : list A) (stop : number) : sublist (JsNumber.slice0 l stop) l.
Proof.
  destruct stop as [| | |q]; simpl; try apply sublist_nil_l; [done |].
  apply sublist_take.
Qed.

Lemma searchTurfs_merged_NoDup {World}
    (nearbySearch : NearbySearchOptions -> World -> Result (list NearbySearchPlace) * World)
    (textSearch : TextSearchOptions -> World -> Result (list NearbySearchPlace) * World)
    (lat lng radiusKm : number) (customKeyword : option string)
    (maxResults_arg : option number) (w : World) :
  NoDup (List.map id (merged (searchTurfs nearbySearch textSearch lat lng radiusKm
                                customKeyword maxResults_arg w))).
Proof.
  destruct (searchTurfs_unfold nearbySearch textSearch lat lng radiusKm customKeyword
              maxResults_arg w) as (st1 & w1 & e0 & st2 & w2 & es & E1 & E2 & -> & _).
  pose proof (nearby_pass_inv _ _ _ _ _ _ _ _ _ _ [] E1 merge_inv_init) as Hinv1.
  by pose proof (keyword_loop_inv _ _ _ _ _ _ _ _ _ _ _ _ E2 Hinv1) as [_ Hnodup _ _].
Qed.

(** X12.  The places [searchTurfs] returns are places of the merged list,
    in discovery order; none of them is excluded by the filter and no id
    occurs twice among them. *)
Theorem searchTurfs_output_sound {World}
    (nearbySearch : NearbySearchOptions -> World -> Result (list NearbySearchPlace) * World)
    (textSearch : TextSearchOptions -> World -> Result (list NearbySearchPlace) * World)
    (lat lng radiusKm : number) (customKeyword : option string)
    (maxResults_arg : option number) (w : World) :
  let run := searchTurfs nearbySearch textSearch lat lng radiusKm customKeyword
               maxResults_arg w in
  sublist (output run) (merged run) /\
  List.Forall (fun place => ~ excluded place) (output run) /\
  List.NoDup (List.map id (output run)).
Proof.
  intros run.
  assert (output run =
          JsNumber.slice0 (filterTurfResults (merged run))
            (default (maxResults DEFAULT_CONFIG) maxResults_arg)) as Hout.
  { subst run. unfold searchTurfs.
    destruct (nearby_pass _ _ _ _ _ _ w) as [[st1 w1] e0].
    by destruct (keyword_loop _ _ _ _ _ _ st1 w1) as [[st2 w2] es]. }
  assert (sublist (output run) (filterTurfResults (merged run))) as Hsub
    by (rewrite Hout; apply slice0_sublist).
  split; [| split].
  - etransitivity; [exact Hsub | apply List_filter_sublist].
  - apply List.Forall_forall. intros place Hin.
    apply list_elem_of_In in Hin. eapply elem_of_sublist in Hin; [| exact Hsub].
    apply list_elem_of_In, filterTurfResults_In in Hin. tauto.
  - apply NoDup_ListNoDup.
    eapply (sublist_NoDup (List.map id (output run)) (List.map id (merged run))).
    + subst run. apply searchTurfs_merged_NoDup.
    + apply (fmap_sublist id). etransitivity; [exact Hsub | apply List_filter_sublist].
Qed.

Lemma searchTurfs_output_eq {World}
    (nearbySearch : NearbySearchOptions -> World -> Result (list NearbySearchPlace) * World)
    (textSearch : TextSearchOptions -> World -> Result (list NearbySearchPlace) * World)
    (lat lng radiusKm : number) (customKeyword : option string)
    (maxResults_arg : option number) (w : World) :
  let run := searchTurfs nearbySearch textSearch lat lng radiusKm customKeyword
               maxResults_arg w in
  output run = JsNumber.slice0 (filterTurfResults (merged run))
                 (default (maxResults DEFAULT_CONFIG) maxResults_arg).
Proof.
  intros run. subst run. unfold searchTurfs.
  destruct (nearby_pass _ _ _ _ _ _ w) as [[st1 w1] e0].
  by destruct (keyword_loop _ _ _ _ _ _ st1 w1) as [[st2 w2] es].
Qed.

(** X13.  [searchTurfs] returns at most [maxResults] places when
    [maxResults] is a number from 0 up, and none when it is [NaN].  A
    negative [maxResults] is not a cap: the places that passed the filter
    are returned with that many left off at the end. *)
Theorem searchTurfs_output_length {World}
    (nearbySearch : NearbySearchOptions -> World -> Result (list NearbySearchPlace) * World)
    (textSearch : TextSearchOptions -> World -> Result (list NearbySearchPlace) * World)
    (lat lng radiusKm : number) (customKeyword : option string)
    (maxResults_arg : option number) (w : World) :
  let run := searchTurfs nearbySearch textSearch lat lng radiusKm customKeyword
               maxResults_arg w in
  let cap := default (maxResults DEFAULT_CONFIG) maxResults_arg in
  (forall q, cap = Num q -> (0 <= q)%Q ->
             (Z.of_nat (List.length (output run)) <= Qfloor q)%Z) /\
  (cap = NaN -> output run = []) /\
  (forall k : Z, cap = JsNumber.of_Z k -> (k < 0)%Z ->
     output run =
     take (List.length (filterTurfResults (merged run)) - Z.to_nat (- k))
          (filterTurfResults (merged run))).
Proof.
  intros run cap.
  pose proof (searchTurfs_output_eq nearbySearch textSearch lat lng radiusKm customKeyword
                maxResults_arg w) as Hout.
  fold run in Hout. fold cap in Hout. cbv zeta in Hout. rewrite Hout. clear Hout.
  split; [| split].
  - intros q -> Hq. unfold JsNumber.slice0, JsNumber.trunc.
    apply Qle_bool_iff in Hq as Hb. rewrite Hb.
    assert (0 <= Qfloor q)%Z as Hfloor.
    { rewrite <- (Qfloor_Z 0). by apply Qfloor_resp_le. }
    destruct (Z.ltb_spec (Qfloor q) 0) as [Hneg | _]; [lia |].
    rewrite length_take. lia.
  - by intros ->.
  - intros k -> Hk. unfold JsNumber.slice0, JsNumber.trunc, JsNumber.of_Z.
    assert (Qle_bool 0 (inject_Z k) = false) as ->.
    { destruct (Qle_bool 0 (inject_Z k)) eqn:E; [| done].
      apply Qle_bool_iff in E. change 0%Q with (inject_Z 0) in E.
      rewrite <- Zle_Qle in E. lia. }
    rewrite Qceiling_Z.
    destruct (Z.ltb_spec k 0) as [_ | Hge]; [| lia].
    f_equal. lia.
Qed.

Lemma searchTurfs_output_length_witness :
  (Z.of_nat (List.length (output capped_run)) <= 2)%Z.
Proof.
  apply (proj1 (searchTurfs_output_length (stub_nearby []) (stub_text one_per_keyword)
                  (Num 12.9) (Num 77.6) (Num 5) None (Some (JsNumber.of_Z 2)) tt)
           (inject_Z 2)); [reflexivity | discriminate].
Defined.

(** ** searchTurfs: the keyword list and the calls of a run *)

Lemma DEFAULT_TURF_KEYWORDS_NoDup : List.NoDup DEFAULT_TURF_KEYWORDS.
Proof.
  unfold DEFAULT_TURF_KEYWORDS.
  repeat (constructor; [simpl; intuition discriminate |]). constructor.
Qed.

Lemma build_keywords_NoDup (customKeyword : option string) :
  List.NoDup (build_keywords customKeyword).
Proof.
  unfold build_keywords. destruct customKeyword as [k|];
    [| apply DEFAULT_TURF_KEYWORDS_NoDup].
  destruct (JsString.truthy k); [| apply DEFAULT_TURF_KEYWORDS_NoDup].
  constructor.
  - intros [_ Hin]%filter_In. rewrite String.eqb_refl in Hin. discriminate.
  - apply List.NoDup_filter, DEFAULT_TURF_KEYWORDS_NoDup.
Qed.

Lemma build_keywords_length (customKeyword : option string) :
  (1 <= List.length (build_keywords customKeyword) <= 11)%nat.
Proof.
  unfold build_keywords. destruct customKeyword as [k|]; [| simpl; lia].
  destruct (JsString.truthy k); [| simpl; lia].
  pose proof (filter_length_le (fun k' => negb (String.eqb k' k)) DEFAULT_TURF_KEYWORDS) as H.
  simpl in *. lia.
Qed.

(** X14.  The keyword list never holds a keyword twice and always holds
    every default keyword; a non-empty custom keyword comes first, and the
    list has then at most eleven entries. *)
Theorem build_keywords_distinct (customKeyword : option string) :
  List.NoDup (build_keywords customKeyword) /\
  (forall keyword, In keyword DEFAULT_TURF_KEYWORDS ->
                   In keyword (build_keywords customKeyword)) /\
  (1 <= List.length (build_keywords customKeyword) <= 11)%nat /\
  (forall custom, customKeyword = Some custom -> custom <> ""%string ->
                  exists rest, build_keywords customKeyword = custom :: rest).
Proof.
  split; [apply build_keywords_NoDup |].
  split; [| split; [apply build_keywords_length |]].
  - unfold build_keywords. destruct customKeyword as [k|]; [| done].
    destruct (JsString.truthy k); [| done].
    intros keyword Hin. destruct (String.eqb_spec keyword k) as [-> | Hne];
      [by left | right].
    apply filter_In. split; [done |]. by apply negb_true_iff, String.eqb_neq.
  - intros custom -> Hne. unfold build_keywords.
    destruct custom; [done |]. by eexists.
Qed.

Lemma build_keywords_distinct_witness :
  exists rest, build_keywords (Some "futsal"%string) = "futsal"%string :: rest.
Proof.
  apply (proj2 (proj2 (proj2 (build_keywords_distinct (Some "futsal"%string)))));
    [reflexivity | discriminate].
Defined.

Lemma keyword_loop_queries {World}
    (textSearch : TextSearchOptions -> World -> Result (list NearbySearchPlace) * World)
    (lat lng radiusMeters maxResults : number) (keywords : list string) :
  forall st w st' w' es,
    keyword_loop textSearch lat lng radiusMeters maxResults keywords st w = (st', w', es) ->
    (exists rest, keywords = List.map text_query es ++ rest) /\
    (keywords <> [] -> es <> []).
Proof.
  induction keywords as [|keyword rest IH]; intros st w st' w' es; simpl.
  - intros [= <- <- <-]. split; [by exists [] | done].
  - destruct (textSearch _ w) as [[places | err] w1].
    + destruct (JsNumber.geb _ maxResults).
      * intros [= <- <- <-]. split; [by exists rest | done].
      * destruct (keyword_loop _ _ _ _ _ rest _ w1) as [[st2 w2] es2] eqn:Eloop.
        intros [= <- <- <-]. destruct (IH _ _ _ _ _ Eloop) as [[rest' Hrest] _].
        split; [| done]. exists rest'. simpl. unfold text_query at 1. simpl.
        by rewrite Hrest at 1.
    + destruct (keyword_loop _ _ _ _ _ rest _ w1) as [[st2 w2] es2] eqn:Eloop.
      intros [= <- <- <-]. destruct (IH _ _ _ _ _ Eloop) as [[rest' Hrest] _].
      split; [| done]. exists rest'. simpl. unfold text_query at 1. simpl.
      by rewrite Hrest at 1.
Qed.

(** X15.  A run of [searchTurfs] makes one nearby call, first, and then
    text calls for the keywords in list order, stopping somewhere in the
    list but never before the first keyword; no query is sent twice, and a
    run makes between 2 and 12 search calls. *)
Theorem searchTurfs_calls_shape {World}
    (nearbySearch : NearbySearchOptions -> World -> Result (list NearbySearchPlace) * World)
    (textSearch : TextSearchOptions -> World -> Result (list NearbySearchPlace) * World)
    (lat lng radiusKm : number) (customKeyword : option string)
    (maxResults_arg : option number) (w : World) :
  let run := searchTurfs nearbySearch textSearch lat lng radiusKm customKeyword
               maxResults_arg w in
  exists e0 es rest,
    calls run = e0 :: es /\
    is_text_call e0 = false /\
    List.Forall (fun e => is_text_call e = true) es /\
    build_keywords customKeyword = List.map text_query es ++ rest /\
    List.NoDup (List.map text_query es) /\
    (2 <= List.length (calls run) <= 12)%nat.
Proof.
  intros run. subst run.
  destruct (searchTurfs_unfold nearbySearch textSearch lat lng radiusKm customKeyword
              maxResults_arg w) as (st1 & w1 & e0 & st2 & w2 & es & E1 & E2 & _ & ->).
  destruct (keyword_loop_queries _ _ _ _ _ _ _ _ _ _ _ E2) as [[rest Hrest] Hne].
  pose proof (build_keywords_NoDup customKeyword) as Hnodup.
  pose proof (build_keywords_length customKeyword) as Hlen.
  exists e0, es, rest. split; [done |]. split; [| split; [| split; [done | split]]].
  - unfold nearby_pass in E1. destruct (nearbySearch _ w) as [res w0].
    by injection E1 as _ _ <-.
  - apply List.Forall_forall. intros e Hin.
    destruct (keyword_loop_text_calls _ _ _ _ _ _ _ _ _ _ _ e E2 Hin) as [keyword Hcall].
    unfold is_text_call. by rewrite Hcall.
  - rewrite Hrest in Hnodup. by apply List.NoDup_app_remove_r in Hnodup.
  - assert (es <> []) as Hes.
    { apply Hne. intros Hnil. rewrite Hnil in Hlen. simpl in Hlen. lia. }
    rewrite Hrest, length_app, length_map in Hlen. simpl.
    destruct es; [done | simpl in *; lia].
Qed.

(** ** Photo URLs and the rest of the result builder *)

Lemma mapM_getPhotoUrl_eq (apiKey : option string) (key : string)
    (photos : list GooglePhoto) :
  getApiKey apiKey = Ok key ->
  mapM (fun photo => getPhotoUrl apiKey (photo_name photo)) photos =
  Ok (List.map (photo_url key) photos).
Proof.
  intros Hkey. induction photos as [|photo photos IH]; simpl; [done |].
  unfold getPhotoUrl at 1. rewrite Hkey. simpl. by rewrite IH.
Qed.

Lemma getPhotoUrls_eq (apiKey : option string) (key : string)
    (photos : option (list GooglePhoto)) (maxPhotos : nat) :
  getApiKey apiKey = Ok key ->
  getPhotoUrls apiKey photos maxPhotos =
  Ok (List.map (photo_url key) (take maxPhotos (photo_list photos))).
Proof.
  intros Hkey. unfold getPhotoUrls, photo_list.
  destruct photos as [[|photo photos]|]; [by destruct maxPhotos | | by destruct maxPhotos].
  by apply mapM_getPhotoUrl_eq.
Qed.

(** X16.  With the API key set, [getPhotoUrls] returns the URLs of the
    first [maxPhotos] photos, in their order, each ending in the key, so
    never more than [maxPhotos]; without the key it throws exactly when
    there is a photo to resolve, and returns the empty list otherwise. *)
Theorem getPhotoUrls_first_photos (apiKey : option string)
    (photos : option (list GooglePhoto)) (maxPhotos : nat) :
  (forall key, getApiKey apiKey = Ok key ->
     exists urls,
       getPhotoUrls apiKey photos maxPhotos = Ok urls /\
       urls = List.map (photo_url key) (take maxPhotos (photo_list photos)) /\
       (List.length urls <= maxPhotos)%nat) /\
  (forall e, getApiKey apiKey = Throw e ->
     getPhotoUrls apiKey photos maxPhotos =
     match take maxPhotos (photo_list photos) with
     | [] => Ok []
     | _ :: _ => Throw e
     end).
Proof.
  split.
  - intros key Hkey. eexists. split; [by apply getPhotoUrls_eq |]. split; [done |].
    rewrite length_map, length_take. lia.
  - intros e Hkey. unfold getPhotoUrls, photo_list.
    destruct photos as [[|photo photos]|]; [by destruct maxPhotos | | by destruct maxPhotos].
    destruct maxPhotos as [|n]; [done |]. simpl.
    unfold getPhotoUrl. by rewrite Hkey.
Qed.

Lemma getPhotoUrls_first_photos_witness :
  (exists urls,
     getPhotoUrls (Some "k") (photos (summary_rated None)) 3 = Ok urls /\
     List.length urls = 1%nat) /\
  (exists e, getPhotoUrls None (photos (summary_rated None)) 3 = Throw e) /\
  getPhotoUrls None (Some []) 3 = Ok [].
Proof.
  destruct (getPhotoUrls_first_photos (Some "k") (photos (summary_rated None)) 3)
    as [Hset _].
  destruct (getPhotoUrls_first_photos None (photos (summary_rated None)) 3) as [_ Hunset].
  destruct (getPhotoUrls_first_photos None (Some []) 3) as [_ Hempty].
  split; [| split].
  - destruct (Hset "k"%string eq_refl) as (urls & Hurls & -> & _).
    exists (List.map (photo_url "k") (take 3 (photo_list (photos (summary_rated None))))).
    split; [exact Hurls | reflexivity].
  - eexists. apply Hunset. reflexivity.
  - apply (Hempty (GoogleApiError
                     "Google Maps API key not set. Call setApiKey() or set GOOGLE_MAPS_API_KEY env var.")).
    reflexivity.
Defined.

Lemma truncateText_length_le (text : string) (maxLength : Z) :
  (3 <= maxLength)%Z -> (JsString.length (truncateText text maxLength) <= maxLength)%Z.
Proof.
  intros Hmax. unfold truncateText, JsString.substring, JsString.clamp, JsString.length.
  destruct (Z.leb_spec (Z.of_nat (String.length text)) maxLength) as [Hle | Hgt]; [done |].
  rewrite string_length_app.
  pose proof (string_length_substring_le
                (Nat.min (Z.to_nat (Z.min (Z.max 0 0) (Z.of_nat (String.length text))))
                         (Z.to_nat (Z.min (Z.max (maxLength - 3) 0)
                                          (Z.of_nat (String.length text)))))
                (Nat.max (Z.to_nat (Z.min (Z.max 0 0) (Z.of_nat (String.length text))))
                         (Z.to_nat (Z.min (Z.max (maxLength - 3) 0)
                                          (Z.of_nat (String.length text))))
                 - Nat.min (Z.to_nat (Z.min (Z.max 0 0) (Z.of_nat (String.length text))))
                           (Z.to_nat (Z.min (Z.max (maxLength - 3) 0)
                                            (Z.of_nat (String.length text)))))
                text) as Hsub.
  simpl String.length. lia.
Qed.

(** X17.  Whatever the records hold, the result of [buildTurfResult]
    carries the id of the summary and the distance it was given, at most
    three photo URLs and at most three reviews, each review text at most
    240 code units long; without a detail record it has no reviews, no
    phone, and the maps link built from the place id. *)
Theorem buildTurfResult_bounds (apiKey : option string) (key : string)
    (place : NearbySearchPlace) (details : option PlaceDetailsResponse)
    (distanceKm : number) :
  getApiKey apiKey = Ok key ->
  exists result,
    buildTurfResult apiKey place details distanceKm = Ok result /\
    r_placeId result = id place /\
    r_distanceKm result = distanceKm /\
    (List.length (r_photos result) <= 3)%nat /\
    (List.length (r_topReviews result) <= 3)%nat /\
    List.Forall (fun review => (JsString.length (tr_text review) <= 240)%Z)
                (r_topReviews result) /\
    (details = None ->
       r_topReviews result = [] /\ r_phone result = None /\
       r_mapsUrl result =
       ("https://www.google.com/maps/place/?q=place_id:" ++ id place)%string).
Proof.
  intros Hkey. unfold buildTurfResult.
  rewrite (getPhotoUrls_eq apiKey key _ 3 Hkey). simpl.
  eexists. split; [reflexivity |]. simpl.
  split; [done |]. split; [done |]. split; [| split; [| split]].
  - rewrite length_map, length_take. lia.
  - rewrite length_map, length_take. lia.
  - apply List.Forall_forall. intros review (raw & <- & _)%in_map_iff.
    simpl. by apply truncateText_length_le.
  - by intros ->.
Qed.

Lemma buildTurfResult_bounds_witness :
  exists result,
    buildTurfResult (Some "key") (summary_rated None) None (Num 1.2) = Ok result /\
    r_phone result = None /\ r_placeId result = "p1"%string.
Proof.
  destruct (buildTurfResult_bounds (Some "key") "key" (summary_rated None) None (Num 1.2)
              eq_refl) as (result & Hres & Hid & _ & _ & _ & _ & Hnone).
  exists result. split; [exact Hres |]. split; [by apply Hnone | exact Hid].
Defined.

(** ** The detail batch and its cache *)

Section BatchMoreFacts.

Variable JSON_stringify : JsValue -> string.
Variable apiKey : option string.
Variable concurrencyLimit : nat.

#[local] Abbreviation step := (batch_step JSON_stringify apiKey concurrencyLimit).

(** Tasks are started from the front of the queue. *)
Lemma batch_nsteps_fifo (placeIds : list string) (n : nat) (s s' : BatchState) :
  nsteps step n s s' ->
  (exists started, placeIds = started ++ queue s) ->
  exists started, placeIds = started ++ queue s'.
Proof.
  induction 1 as [|n s s1 s' Hstep _ IH]; [done |].
  intros [started Hq]. apply IH. destruct Hstep; simpl in *; [| by exists started ..].
  exists (started ++ [placeId]). by rewrite <- app_assoc.
Qed.

End BatchMoreFacts.

(** X18.  At every moment of a batch at most [concurrencyLimit] detail
    fetches are in flight, the ids still waiting are a tail of the
    requested list (tasks start in list order), and the map holds entries
    for requested ids only. *)
Theorem getPlaceDetailsBatch_in_flight (JSON_stringify : JsValue -> string)
    (apiKey : option string) (concurrencyLimit : nat) (placeIds : list string)
    (c : TtlCache PlaceDetailsResponse) (n : nat) (s : BatchState) :
  nsteps (batch_step JSON_stringify apiKey concurrencyLimit) n (batch_init placeIds c) s ->
  (List.length (running s) <= concurrencyLimit)%nat /\
  (exists started, placeIds = started ++ queue s) /\
  (forall i, is_Some (results s !! i) -> In i placeIds).
Proof.
  intros Hrun. split; [| split].
  - eapply batch_nsteps_in_flight; [exact Hrun | simpl; lia].
  - eapply batch_nsteps_fifo; [exact Hrun | by exists []].
  - intros i Hi.
    apply (batch_nsteps_accounted _ _ _ placeIds _ _ _ Hrun (accounted_init placeIds c) i).
    by right; right.
Qed.

Lemma getPlaceDetailsBatch_in_flight_witness :
  exists s,
    nsteps (batch_step sample_stringify (Some "key") 1) 6
           (batch_init ["p1"; "p2"] empty_cache) s /\
    (List.length (running s) <= 1)%nat.
Proof.
  destruct sample_batch_run as (s & Hrun & _ & _).
  exists s. split; [exact Hrun |].
  apply (getPlaceDetailsBatch_in_flight sample_stringify (Some "key") 1 ["p1"; "p2"]
           empty_cache 6 s Hrun).
Defined.

Section DetailsCacheFacts.

Variable JSON_stringify : JsValue -> string.

(** X19.  Once a detail fetch has succeeded, asking for the same place
    again before the time to live is over is answered from the cache: no
    request is made, whether or not an API key is set, and the cache stays
    as it is. *)
Theorem getPlaceDetails_cached (apiKey : option string) (now later : Z) (placeId : string)
    (body : PlaceDetailsResponse) (c : TtlCache PlaceDetailsResponse) :
  (later <= now + ttlMs c)%Z ->
  let c' := snd (getPlaceDetails_resume JSON_stringify now placeId (FetchOk body) c) in
  getPlaceDetails_begin JSON_stringify apiKey later placeId c' = (Settled (Some body), c').
Proof.
  intros Hfresh. simpl. unfold getPlaceDetails_begin, TtlCache_get, TtlCache_set. simpl.
  rewrite lookup_insert_eq. simpl.
  destruct (Z.ltb_spec (now + ttlMs c) later) as [Hlt | _]; [lia | reflexivity].
Qed.

(** X20.  A failed detail fetch is not remembered: it returns null and
    leaves the cache as the lookup left it, and the next call for the same
    place, at whatever time, sends a request again. *)
Theorem getPlaceDetails_failure_not_cached (apiKey : option string) (now answered : Z)
    (placeId : string) (o : FetchOutcome) (c c1 : TtlCache PlaceDetailsResponse) :
  getPlaceDetails_begin JSON_stringify apiKey now placeId c = (Fetching, c1) ->
  fetch_failed o = true ->
  getPlaceDetails_resume JSON_stringify answered placeId o c1 = (None, c1) /\
  forall again,
    getPlaceDetails_begin JSON_stringify apiKey again placeId c1 = (Fetching, c1).
Proof.
  intros Hbegin Hfail. split; [by destruct o |].
  intros again. unfold getPlaceDetails_begin, TtlCache_get in *.
  destruct (cache c !! details_cacheKey JSON_stringify placeId) as [entry|] eqn:Hentry.
  - destruct (expiresAt entry <? now)%Z; [| done].
    destruct (getApiKey apiKey) eqn:Hkey; [| done].
    injection Hbegin as <-. simpl. by rewrite lookup_delete_eq.
  - destruct (getApiKey apiKey) eqn:Hkey; [| done].
    injection Hbegin as <-. by rewrite Hentry.
Qed.

Lemma string_app_inv_tail (a b t : string) : (a ++ t = b ++ t)%string -> a = b.
Proof.
  revert b. induction a as [|x a IH]; intros [|y b] H.
  - done.
  - exfalso. apply (f_equal String.length) in H.
    rewrite !string_length_app in H. simpl in H. lia.
  - exfalso. apply (f_equal String.length) in H.
    rewrite !string_length_app in H. simpl in H. lia.
  - injection H as -> H. f_equal. by apply IH.
Qed.

Lemma details_cacheKey_inj (placeId1 placeId2 : string) :
  (forall a b, JSON_stringify (JString a) = JSON_stringify (JString b) -> a = b) ->
  details_cacheKey JSON_stringify placeId1 = details_cacheKey JSON_stringify placeId2 ->
  placeId1 = placeId2.
Proof.
  intros Hinj Hkey. unfold details_cacheKey, generateKey in Hkey.
  change (Array_sort (Object_keys [("type", JString "details"); ("placeId", JString placeId1)]))
    with ["placeId"; "type"]%string in Hkey.
  change (Array_sort (Object_keys [("type", JString "details"); ("placeId", JString placeId2)]))
    with ["placeId"; "type"]%string in Hkey.
  simpl in Hkey. injection Hkey as Hkey.
  apply string_app_inv_tail in Hkey. by apply Hinj.
Qed.

(** X21.  When [JSON.stringify] tells strings apart, two place ids never
    share a cache key, so storing the details of one place does not
    change what a lookup of another place finds. *)
Theorem details_cache_keeps_places_apart (apiKey : option string) (now later : Z)
    (placeId other : string) (body : PlaceDetailsResponse)
    (c : TtlCache PlaceDetailsResponse) :
  (forall a b, JSON_stringify (JString a) = JSON_stringify (JString b) -> a = b) ->
  placeId <> other ->
  details_cacheKey JSON_stringify placeId <> details_cacheKey JSON_stringify other /\
  fst (getPlaceDetails_begin JSON_stringify apiKey later other
         (snd (getPlaceDetails_resume JSON_stringify now placeId (FetchOk body) c))) =
  fst (getPlaceDetails_begin JSON_stringify apiKey later other c).
Proof.
  intros Hinj Hne.
  assert (details_cacheKey JSON_stringify placeId <> details_cacheKey JSON_stringify other)
    as Hkeys by (intros H; apply Hne; exact (details_cacheKey_inj _ _ Hinj H)).
  split; [exact Hkeys |].
  simpl. unfold getPlaceDetails_begin, TtlCache_get, TtlCache_set. simpl.
  rewrite lookup_insert_ne by done.
  destruct (cache c !! details_cacheKey JSON_stringify other) as [entry|];
    [destruct (expiresAt entry <? later)%Z |]; by destruct (getApiKey apiKey).
Qed.

End DetailsCacheFacts.

Lemma sample_stringify_inj (a b : string) :
  sample_stringify (JString a) = sample_stringify (JString b) -> a = b.
Proof.
  unfold sample_stringify. intros H. injection H as H.
  by apply string_app_inv_tail in H.
Qed.

Lemma getPlaceDetails_cached_witness :
  fst (getPlaceDetails_begin sample_stringify None 600000 "p1"
         (snd (getPlaceDetails_resume sample_stringify 0 "p1"
                 (FetchOk (detail_rated None)) empty_cache)))
  = Settled (Some (detail_rated None)).
Proof.
  rewrite (getPlaceDetails_cached sample_stringify None 0 600000 "p1" (detail_rated None)
             empty_cache); [reflexivity | vm_compute; discriminate].
Defined.

Lemma getPlaceDetails_failure_not_cached_witness :
  getPlaceDetails_begin sample_stringify (Some "key") 99 "p1" empty_cache
  = (Fetching, empty_cache).
Proof.
  apply (getPlaceDetails_failure_not_cached sample_stringify (Some "key") 0 5 "p1"
           (FetchNotOk 503) empty_cache empty_cache); reflexivity.
Defined.

Lemma details_cache_keeps_places_apart_witness :
  details_cacheKey sample_stringify "p1" <> details_cacheKey sample_stringify "p2".
Proof.
  apply (details_cache_keeps_places_apart sample_stringify None 0 1 "p1" "p2"
           (detail_rated None) empty_cache sample_stringify_inj).
  discriminate.
Defined.

(** ** The API key *)

(** X22.  [getApiKey] returns a key exactly when [isApiKeyConfigured]
    says so, and then it is the key last set; setting the empty string
    leaves the key unconfigured, whatever was set before. *)
Theorem apiKey_configured (apiKey : option string) (key : string) :
  (isApiKeyConfigured apiKey = true <-> exists k, getApiKey apiKey = Ok k) /\
  (key <> ""%string ->
     isApiKeyConfigured (setApiKey key apiKey) = true /\
     getApiKey (setApiKey key apiKey) = Ok key) /\
  isApiKeyConfigured (setApiKey "" apiKey) = false.
Proof.
  split; [| split; [| done]].
  - unfold isApiKeyConfigured, getApiKey, opt_truthy.
    destruct apiKey as [[|c k]|]; simpl; split; try done; try (by intros [? ?]).
    intros _. by eexists.
  - intros Hne. by destruct key.
Qed.

Lemma apiKey_configured_witness :
  getApiKey (setApiKey "secret" None) = Ok "secret"%string.
Proof.
  apply (proj1 (proj2 (apiKey_configured None "secret"))). discriminate.
Defined.

(** ** The CLI arguments *)

Lemma parseCliArgs_accepted_shape (options : CliOptions) (args : CliArgs) :
  parseCliArgs options = Ok args ->
  ((exists la lo, arg_lat args = Some la /\ arg_lng args = Some lo) \/
   (arg_lat args = None /\ arg_lng args = None /\
    exists location, arg_location args = Some location /\ location <> ""%string)) /\
  arg_radiusKm args = opt_radiusKm options /\
  arg_keyword args = opt_keyword options /\
  arg_maxResults args = opt_maxResults options /\
  arg_detailsLimit args = opt_detailsLimit options.
Proof.
  unfold parseCliArgs.
  destruct (negb (opt_truthy (opt_location options))
            && (is_none (opt_lat options) || is_none (opt_lng options))) eqn:E1;
    [discriminate |].
  destruct (negb (is_none (opt_lat options)) && is_none (opt_lng options)) eqn:E2;
    [discriminate |].
  destruct (negb (is_none (opt_lng options)) && is_none (opt_lat options)) eqn:E3;
    [discriminate |].
  destruct (JsNumber.leb (opt_radiusKm options) (JsNumber.of_Z 0)
            || JsNumber.gtb (opt_radiusKm options) (JsNumber.of_Z 50));
    [discriminate |].
  intros [= <-]. simpl. split; [| done].
  destruct (opt_lat options) as [la|], (opt_lng options) as [lo|]; simpl in *;
    try discriminate.
  - left. by exists la, lo.
  - right. split; [done |]. split; [done |].
    unfold opt_truthy in E1. destruct (opt_location options) as [[|c location]|];
      simpl in E1; try discriminate.
    by eexists.
Qed.

(** X23.  Arguments that [parseCliArgs] accepts come with both
    coordinates, or with neither of them and a non-empty location text,
    and their radius is above 0 and at most 50 or else [NaN], which the
    two comparisons of the check let through.  The accepted values are the
    given ones. *)
Theorem parseCliArgs_accepted (options : CliOptions) (args : CliArgs) :
  parseCliArgs options = Ok args ->
  ((exists la lo, arg_lat args = Some la /\ arg_lng args = Some lo) \/
   (arg_lat args = None /\ arg_lng args = None /\
    exists location, arg_location args = Some location /\ location <> ""%string)) /\
  (arg_radiusKm args = NaN \/
   exists q, arg_radiusKm args = Num q /\ (0 < q)%Q /\ (q <= 50)%Q) /\
  arg_radiusKm args = opt_radiusKm options /\
  arg_keyword args = opt_keyword options /\
  arg_maxResults args = opt_maxResults options /\
  arg_detailsLimit args = opt_detailsLimit options.
Proof.
  intros Hparse.
  destruct (parseCliArgs_accepted_shape options args Hparse) as (Hcoords & Hsame).
  split; [exact Hcoords |]. split; [| exact Hsame].
  destruct Hsame as (Hr & _). rewrite Hr. clear Hcoords Hr.
  unfold parseCliArgs in Hparse.
  repeat match type of Hparse with
         | (if ?b then Throw _ else _) = _ =>
             destruct b eqn:?; [discriminate |]
         end.
  match goal with H : _ || _ = false |- _ => apply orb_false_iff in H as [Hlow Hhigh] end.
  destruct (opt_radiusKm options) as [| | |q]; try discriminate; [by left |].
  right. exists q. split; [done |].
  unfold JsNumber.gtb in Hhigh. simpl in *.
  apply negb_false_iff, Qle_bool_iff in Hhigh.
  split; [| exact Hhigh].
  apply Qnot_le_lt. intros Hle. apply Qle_bool_iff in Hle.
  change (Qle_bool q (inject_Z 0)) with (Qle_bool q 0) in Hlow. congruence.
Qed.

Lemma parseCliArgs_accepted_witness :
  exists args,
    parseCliArgs (cli_options NaN) = Ok args /\ arg_radiusKm args = NaN.
Proof.
  eexists. split; [reflexivity |].
  apply (parseCliArgs_accepted (cli_options NaN) _ eq_refl).
Defined.

(** ** resolveSearchQuery *)

(** X24.  For arguments that [parseCliArgs] accepted, [resolveSearchQuery]
    uses given coordinates as they are and then does not geocode, even
    when a location text is given too; otherwise it geocodes the location
    text, and the only way it can fail is that the geocoding call fails.
    Radius, keyword and limits are handed on unchanged. *)
Theorem resolveSearchQuery_after_parse {World}
    (geocode : string -> World -> Result GeocodingResult * World)
    (options : CliOptions) (args : CliArgs) (w : World) :
  parseCliArgs options = Ok args ->
  (forall la lo, arg_lat args = Some la -> arg_lng args = Some lo ->
     exists query,
       resolveSearchQuery geocode args w = (Ok query, w) /\
       q_lat query = la /\ q_lng query = lo) /\
  (arg_lat args = None ->
     exists location,
       arg_location args = Some location /\
       snd (resolveSearchQuery geocode args w) = snd (geocode location w) /\
       match fst (geocode location w) with
       | Ok found =>
           exists query,
             fst (resolveSearchQuery geocode args w) = Ok query /\
             q_lat query = geo_lat found /\ q_lng query = geo_lng found
       | Throw e => fst (resolveSearchQuery geocode args w) = Throw e
       end) /\
  (forall query, fst (resolveSearchQuery geocode args w) = Ok query ->
     q_radiusKm query = opt_radiusKm options /\
     q_keyword query = opt_keyword options /\
     q_maxResults query = opt_maxResults options /\
     q_detailsLimit query = opt_detailsLimit options).
Proof.
  intros Hparse.
  destruct (parseCliArgs_accepted_shape options args Hparse) as (Hcoords & Hsame).
  destruct Hsame as (Hr & Hk & Hm & Hd).
  split; [| split].
  - intros la lo Hla Hlo. unfold resolveSearchQuery. rewrite Hla, Hlo.
    eexists. by split.
  - intros Hnone. destruct Hcoords as [(la & lo & Hla & _) | (_ & Hlng & location & Hloc & Hne)];
      [congruence |].
    exists location. split; [done |]. unfold resolveSearchQuery.
    rewrite Hnone, Hloc. destruct location as [|ch location]; [done |]. simpl.
    destruct (geocode (String ch location) w) as [[found | e] w']; simpl; [| done].
    split; [done |]. eexists. by split.
  - intros query Hquery. unfold resolveSearchQuery in Hquery.
    destruct (arg_lat args) as [la|], (arg_lng args) as [lo|];
      try (simpl in Hquery; injection Hquery as <-; simpl; by rewrite Hr, Hk, Hm, Hd).
    all: destruct (arg_location args) as [location|]; [| discriminate].
    all: destruct (JsString.truthy location); [| discriminate].
    all: destruct (geocode location w) as [[found | e] w']; [| discriminate].
    all: simpl in Hquery; injection Hquery as <-; simpl; by rewrite Hr, Hk, Hm, Hd.
Qed.

Lemma resolveSearchQuery_after_parse_witness :
  exists args query,
    parseCliArgs (cli_options (Num 5)) = Ok args /\
    resolveSearchQuery (fun _ w => (Throw (GeocodingError "unreachable"), w)) args tt
      = (Ok query, tt) /\
    q_lat query = Num 0.001.
Proof.
  eexists.
  destruct (resolveSearchQuery_after_parse
              (fun _ (w : unit) => (Throw (GeocodingError "unreachable"), w))
              (cli_options (Num 5)) _ tt eq_refl) as (Hcoords & _ & _).
  destruct (Hcoords (Num 0.001) (Num 77.6) eq_refl eq_refl) as (query & Hres & Hlat & _).
  exists query. split; [reflexivity |]. split; [exact Hres | exact Hlat].
Defined.

(** ** The search operations and the search cache *)

Lemma TtlCache_get_ttlMs {T} (now : Z) (key : string) (c : TtlCache T) :
  ttlMs (snd (TtlCache_get now key c)) = ttlMs c.
Proof.
  unfold TtlCache_get. destruct (cache c !! key) as [entry|]; [| done].
  by destruct (expiresAt entry <? now)%Z.
Qed.

Lemma TtlCache_get_set_hit {T} (now later : Z) (key : string) (d : T) (c : TtlCache T) :
  (later <= now + ttlMs c)%Z ->
  TtlCache_get later key (TtlCache_set now key d c) = (Some d, TtlCache_set now key d c).
Proof.
  intros Hfresh. unfold TtlCache_get, TtlCache_set. simpl.
  rewrite lookup_insert_eq. simpl.
  destruct (Z.ltb_spec (now + ttlMs c) later) as [Hlt | _]; [lia | reflexivity].
Qed.

(** After a lookup that found nothing, the key is absent. *)
Lemma TtlCache_get_miss {T} (now : Z) (key : string) (c c1 : TtlCache T) :
  TtlCache_get now key c = (None, c1) ->
  forall again, TtlCache_get again key c1 = (None, c1).
Proof.
  unfold TtlCache_get. intros Hget again.
  destruct (cache c !! key) as [entry|] eqn:Hentry.
  - destruct (expiresAt entry <? now)%Z; [| discriminate].
    injection Hget as <-. simpl. by rewrite lookup_delete_eq.
  - injection Hget as <-. by rewrite Hentry.
Qed.

Section SearchCallFacts.

Variable JSON_stringify : JsValue -> string.

(** X25.  Once a text search or a nearby search has fetched an answer,
    the same options asked again before the time to live is over get the
    same places from the cache: no request is sent, whatever the key and
    the provider would do, and the cache stays as it is.  An answer
    without a [places] field counts as the empty list and is served the
    same way. *)
Theorem search_served_from_cache (apiKey apiKey' : option string)
    (now later again again' : Z) (o o' : SearchOutcome)
    (c : TtlCache (list NearbySearchPlace)) (places : list NearbySearchPlace) :
  (again <= later + ttlMs c)%Z ->
  (forall options,
     let first := textSearch JSON_stringify apiKey now later options o c in
     sr_request first <> None -> sr_result first = Ok places ->
     textSearch JSON_stringify apiKey' again again' options o' (sr_cache first) =
     {| sr_result := Ok places; sr_cache := sr_cache first; sr_request := None |}) /\
  (forall options,
     let first := nearbySearch JSON_stringify apiKey now later options o c in
     sr_request first <> None -> sr_result first = Ok places ->
     nearbySearch JSON_stringify apiKey' again again' options o' (sr_cache first) =
     {| sr_result := Ok places; sr_cache := sr_cache first; sr_request := None |}).
Proof.
  intros Hfresh. split; intros options first Hreq Hres; subst first.
  - unfold textSearch in *.
    pose proof (TtlCache_get_ttlMs now
                  (generateKey JSON_stringify (text_params options)) c) as Httl.
    destruct (TtlCache_get now _ c) as [[hit|] c1]; [done |]. simpl in Httl.
    destruct (getApiKey apiKey); [| done].
    destruct o as [data | |]; [| done | done]. simpl in *.
    injection Hres as Hres. rewrite Hres.
    rewrite TtlCache_get_set_hit by (rewrite Httl; exact Hfresh). reflexivity.
  - unfold nearbySearch in *.
    pose proof (TtlCache_get_ttlMs now
                  (generateKey JSON_stringify (nearby_params options)) c) as Httl.
    destruct (TtlCache_get now _ c) as [[hit|] c1]; [done |]. simpl in Httl.
    destruct (getApiKey apiKey); [| done].
    destruct o as [data | |]; [| done | done]. simpl in *.
    injection Hres as Hres. rewrite Hres.
    rewrite TtlCache_get_set_hit by (rewrite Httl; exact Hfresh). reflexivity.
Qed.

(** X26.  A search that fails throws a [GoogleApiError] and stores
    nothing: with the key set, the next call with the same options, at
    whatever time, sends the request again. *)
Theorem search_failure_not_cached (apiKey : option string) (key : string)
    (now later again again' : Z) (o o' : SearchOutcome)
    (c : TtlCache (list NearbySearchPlace)) (e : TurfFinderError) :
  getApiKey apiKey = Ok key ->
  (forall options,
     let first := textSearch JSON_stringify apiKey now later options o c in
     sr_result first = Throw e ->
     (exists message, e = GoogleApiError message) /\
     sr_request (textSearch JSON_stringify apiKey again again' options o' (sr_cache first))
       = Some (textSearch_requestBody options)) /\
  (forall options,
     let first := nearbySearch JSON_stringify apiKey now later options o c in
     sr_result first = Throw e ->
     (exists message, e = GoogleApiError message) /\
     sr_request (nearbySearch JSON_stringify apiKey again again' options o' (sr_cache first))
       = Some (nearbySearch_requestBody options)).
Proof.
  intros Hkey. split; intros options first Hres; subst first.
  - unfold textSearch in *.
    destruct (TtlCache_get now _ c) as [[hit|] c1] eqn:Hget; [done |].
    rewrite Hkey in *.
    destruct o as [data | status statusText | message]; simpl in *; [done | |].
    all: injection Hres as <-; split; [by eexists |].
    all: rewrite (TtlCache_get_miss _ _ _ _ Hget again); by destruct o'.
  - unfold nearbySearch in *.
    destruct (TtlCache_get now _ c) as [[hit|] c1] eqn:Hget; [done |].
    rewrite Hkey in *.
    destruct o as [data | status statusText | message]; simpl in *; [done | |].
    all: injection Hres as <-; split; [by eexists |].
    all: rewrite (TtlCache_get_miss _ _ _ _ Hget again); by destruct o'.
Qed.

End SearchCallFacts.

Lemma search_served_from_cache_witness :
  sr_result
    (textSearch sample_stringify None 600010 600020 turf_query (SearchThrows None)
       (sr_cache (textSearch sample_stringify (Some "key") 0 10 turf_query (SearchOk None)
                    (TtlCache_new None)))) = Ok [].
Proof.
  rewrite (proj1 (search_served_from_cache sample_stringify (Some "key") None
                    0 10 600010 600020 (SearchOk None) (SearchThrows None)
                    (TtlCache_new None) [] ltac:(vm_compute; discriminate)) turf_query);
    [reflexivity | discriminate | reflexivity].
Defined.

Lemma search_failure_not_cached_witness :
  sr_request
    (textSearch sample_stringify (Some "key") 20 30 turf_query (SearchOk None)
       (sr_cache (textSearch sample_stringify (Some "key") 0 10 turf_query
                    (SearchNotOk 429 "Too Many Requests") (TtlCache_new None))))
  = Some (textSearch_requestBody turf_query).
Proof.
  apply (proj1 (search_failure_not_cached sample_stringify (Some "key") "key"
                  0 10 20 30 (SearchNotOk 429 "Too Many Requests") (SearchOk None)
                  (TtlCache_new None)
                  (GoogleApiError "Text search failed: 429 Too Many Requests") eq_refl)
           turf_query).
  reflexivity.
Defined.

(** ** Geocoding *)

Section GeocodingFacts.

Variable JSON_stringify : JsValue -> string.
Variable TypeError_message : string.

(** X27.  [geocodeLocation] fails in two ways only.  Either no API key
    is set: the error is the [GoogleApiError] of [getApiKey] and no
    request was sent.  Or a key is set: the error is a [GeocodingError],
    the request was sent, and the fetch was rejected, or the status was
    not OK, or the result list was empty.  A failure stores nothing in the
    cache. *)
Theorem geocodeLocation_failures (apiKey : option string) (now later : Z)
    (address : string) (options : GeocodeOptions) (o : GeocodeOutcome)
    (c : TtlCache GeocodingResult) (e : TurfFinderError) :
  let call := geocodeLocation JSON_stringify apiKey TypeError_message now later address
                options o c in
  gr_result call = Throw e ->
  gr_cache call =
    snd (TtlCache_get now (generateKey JSON_stringify (geocode_params address options)) c) /\
  ((getApiKey apiKey = Throw e /\ gr_request call = None) \/
   (exists key message,
      getApiKey apiKey = Ok key /\ e = GeocodingError message /\
      gr_request call <> None /\
      match o with
      | GeocodeThrows _ => True
      | GeocodeResponds data => geo_status data <> "OK"%string \/ geo_results data = []
      end)).
Proof.
  intros call Hres. subst call. unfold geocodeLocation in *.
  destruct (TtlCache_get now _ c) as [[hit|] c1]; [done |].
  destruct (getApiKey apiKey) as [key | e'] eqn:Hkey.
  - destruct o as [data | message].
    + destruct (String.eqb_spec (geo_status data) "ZERO_RESULTS") as [Hzero | _].
      * simpl in *. injection Hres as <-. split; [done |]. right.
        eexists key, _. split; [done |]. split; [done |]. split; [done |].
        left. rewrite Hzero. discriminate.
      * destruct (String.eqb_spec (geo_status data) "OK") as [Hok | Hnot]; simpl in *.
        -- destruct (geo_results data) as [|result rest]; [| done].
           simpl in *. injection Hres as <-. split; [done |]. right.
           eexists key, _. split; [done |]. split; [done |]. split; [done |]. by right.
        -- injection Hres as <-. split; [done |]. right.
           eexists key, _. split; [done |]. split; [done |]. split; [done |]. by left.
    + simpl in *. injection Hres as <-. split; [done |]. right.
      eexists key, _. by repeat split.
  - simpl in *. injection Hres as <-. split; [done |]. by left.
Qed.

(** X28.  When the provider answers OK with matches, [geocodeLocation]
    returns the first match and none of the others, and the same address
    with the same options asked again before the time to live is over is
    answered from the cache with that result and without a request. *)
Theorem geocodeLocation_first_match_cached (apiKey apiKey' : option string) (key : string)
    (now later again again' : Z) (address : string) (options : GeocodeOptions)
    (data : GeocodingApiResponse) (best : GeocodingMatch) (others : list GeocodingMatch)
    (o' : GeocodeOutcome) (c : TtlCache GeocodingResult) :
  getApiKey apiKey = Ok key ->
  fst (TtlCache_get now (generateKey JSON_stringify (geocode_params address options)) c)
    = None ->
  geo_status data = "OK"%string ->
  geo_results data = best :: others ->
  (again <= later + ttlMs c)%Z ->
  let found := {| geo_lat := match_lat best; geo_lng := match_lng best;
                  geo_formattedAddress := formatted_address best |} in
  let first := geocodeLocation JSON_stringify apiKey TypeError_message now later address
                 options (GeocodeResponds data) c in
  gr_result first = Ok found /\
  geocodeLocation JSON_stringify apiKey' TypeError_message again again' address options o'
    (gr_cache first) =
  {| gr_result := Ok found; gr_cache := gr_cache first; gr_request := None |}.
Proof.
  intros Hkey Hmiss Hok Hresults Hfresh found first. subst first found.
  unfold geocodeLocation.
  pose proof (TtlCache_get_ttlMs now
                (generateKey JSON_stringify (geocode_params address options)) c) as Httl.
  destruct (TtlCache_get now _ c) as [cached c1]. simpl in Hmiss, Httl. subst cached.
  rewrite Hkey, Hok, Hresults. simpl. split; [done |].
  rewrite TtlCache_get_set_hit by (rewrite Httl; exact Hfresh). reflexivity.
Qed.

End GeocodingFacts.

Lemma geocodeLocation_failures_witness :
  gr_request (geocodeLocation sample_stringify None "undefined geometry" 0 1
                "HSR Layout" no_geocode_options (GeocodeThrows None) (TtlCache_new None))
  = None.
Proof.
  destruct (geocodeLocation_failures sample_stringify "undefined geometry" None 0 1
              "HSR Layout" no_geocode_options (GeocodeThrows None) (TtlCache_new None)
              (GoogleApiError
                 "Google Maps API key not set. Call setApiKey() or set GOOGLE_MAPS_API_KEY env var.")
              eq_refl) as [_ [[_ Hreq] | (key & message & Hkey & _)]];
    [exact Hreq | discriminate].
Defined.

Lemma geocodeLocation_first_match_cached_witness :
  gr_result (geocodeLocation sample_stringify (Some "key") "undefined geometry" 0 1
               "HSR Layout" no_geocode_options (GeocodeResponds two_matches)
               (TtlCache_new None))
  = Ok {| geo_lat := Num 12.9121; geo_lng := Num 77.6446;
          geo_formattedAddress := "HSR Layout, Bengaluru" |}.
Proof.
  apply (geocodeLocation_first_match_cached sample_stringify "undefined geometry"
           (Some "key") None "key" 0 1 5 6 "HSR Layout" no_geocode_options two_matches
           _ _ (GeocodeThrows None) (TtlCache_new None)
           eq_refl eq_refl eq_refl eq_refl).
  vm_compute. discriminate.
Defined.

(** ** The distance endpoint *)

Lemma leg_at_fetchDistanceMatrix (destinations : list string) (data : MatrixResponse)
    (i : nat) (leg : Leg) :
  leg_at (fetchDistanceMatrix destinations data) i = Some leg ->
  leg_from data i leg.
Proof.
  unfold leg_from, leg_at, fetchDistanceMatrix.
  destruct (String.eqb_spec (mx_status data) "OK") as [Hok | Hnot]; simpl.
  - intros Hleg. split; [done |].
    destruct (rows data) as [|row more]; [done |].
    destruct (elements row) as [es|] eqn:Hes; [| done].
    rewrite list_lookup_fmap in Hleg.
    destruct (es !! i) as [element|] eqn:Hel; [| done]. simpl in Hleg.
    destruct (String.eqb_spec (el_status element) "OK") as [Hst | _]; [| done].
    injection Hleg as <-. exists row, more, es, element. repeat split; assumption.
  - rewrite list_lookup_fmap. by destruct (destinations !! i).
Qed.

Lemma distance_results_spec (destinations : list string)
    (drivingData bicyclingData : list (option Leg)) :
  forall i,
    List.map destination (distance_results destinations drivingData bicyclingData i)
      = destinations /\
    forall k r,
      distance_results destinations drivingData bicyclingData i !! k = Some r ->
      driving r = leg_at drivingData (i + k) /\
      bicycling r = leg_at bicyclingData (i + k).
Proof.
  induction destinations as [|d rest IH]; intros i; simpl; [done |].
  destruct (IH (S i)) as [Hmap Hlegs]. split; [by rewrite Hmap |].
  intros [|k] r Hr; simpl in Hr.
  - injection Hr as <-. simpl. by rewrite Nat.add_0_r.
  - destruct (Hlegs k r Hr) as [Hd Hb].
    by rewrite Hd, Hb, Nat.add_succ_r.
Qed.

(** X29.  A POST to the distance endpoint with an origin and a
    destination list, answered by both matrix calls, returns exactly one
    result per destination, in the order given, however many elements the
    matrices hold.  A result has a driving (or bicycling) leg only when
    that matrix has the status OK and the element at the same position of
    its first row has the status OK; the leg then carries the texts of
    that element. *)
Theorem distance_handler_one_per_destination (origin : option string)
    (destinations : list string) (drivingResponse bicyclingResponse : MatrixResponse)
    (driving_first : bool) :
  opt_truthy origin = true ->
  exists results,
    distance_handler "POST" origin (Some destinations) (MatrixData drivingResponse)
      (MatrixData bicyclingResponse) driving_first = JsonResults results /\
    List.map destination results = destinations /\
    forall i r,
      results !! i = Some r ->
      (forall leg, driving r = Some leg -> leg_from drivingResponse i leg) /\
      (forall leg, bicycling r = Some leg -> leg_from bicyclingResponse i leg).
Proof.
  intros Horigin. unfold distance_handler. simpl. rewrite Horigin. simpl.
  eexists. split; [reflexivity |].
  destruct (distance_results_spec destinations
              (fetchDistanceMatrix destinations drivingResponse)
              (fetchDistanceMatrix destinations bicyclingResponse) 0) as [Hmap Hlegs].
  split; [exact Hmap |].
  intros i r Hr. destruct (Hlegs i r Hr) as [Hd Hb]. simpl in Hd, Hb.
  split; intros leg Hleg.
  - rewrite Hd in Hleg. by apply leg_at_fetchDistanceMatrix in Hleg.
  - rewrite Hb in Hleg. by apply leg_at_fetchDistanceMatrix in Hleg.
Qed.

Lemma distance_handler_one_per_destination_witness :
  exists results,
    distance_handler "POST" (Some "HSR Layout") (Some ["Turf A"; "Turf B"; "Turf C"])
      (MatrixData sample_matrix) (MatrixData denied_matrix) true = JsonResults results /\
    List.map destination results = ["Turf A"; "Turf B"; "Turf C"]%string.
Proof.
  destruct (distance_handler_one_per_destination (Some "HSR Layout")
              ["Turf A"; "Turf B"; "Turf C"]%string sample_matrix denied_matrix true eq_refl)
    as (results & Hres & Hmap & _).
  exists results. by split.
Defined.

Example distance_handler_sample :
  distance_handler "POST" (Some "HSR Layout") (Some ["Turf A"; "Turf B"; "Turf C"])
    (MatrixData sample_matrix) (MatrixData denied_matrix) true =
  JsonResults
    [ {| destination := "Turf A";
         driving := Some {| leg_distance := "2.1 km"; leg_duration := "9 mins" |};
         bicycling := None |};
      {| destination := "Turf B"; driving := None; bicycling := None |};
      {| destination := "Turf C"; driving := None; bicycling := None |} ].
Proof. reflexivity. Qed.
